(** * The in-memory search engine of server.js

    A shallow embedding of the search server (the variant with
    OR-groups, categories and the token index): loader, tokenizer, token
    index, query parser, candidate selection, ranking loop, result
    cache, pagination, the presentation of a result (source path,
    display title, preview) and the content endpoint; of the chunk
    writer of splitData.js; and of the loader of the first variant of
    the server, which reads the chunks back.  The definitions are
    followed by the properties of the specification that were checked
    against them, and by further properties of the code.

    JavaScript values are modelled as follows.
    - A string is the list of its UTF-16 code units ([jsstring]).
    - Integral numbers are [Z]; every number the modelled code compares or
      slices with is integral.
    - A [Map] is an association list in insertion order with distinct keys
      ([JsMap]); a [Set] is a duplicate-free list in insertion order
      ([JsSet]).
    - The module-level variables [searchData] and [tokenIndex] are the
      fields of a [Server] record; [queryCache] is threaded through the
      request handler explicitly, together with the clock reading that
      [Date.now()] returns.
    - In the chunk writer [None] stands for a thrown exception.
    - The chunk directory is a map from file names to what [JSON.parse]
      makes of the files; [Buffer.byteLength], [JSON.stringify] and
      [JSON.parse] on an entry, [String.prototype.toLowerCase] and the
      floating-point rank formula are parameters. *)

From Stdlib Require Import ZArith List Bool Lia String Ascii DecimalN.
From Stdlib Require Import QArith Qround Qminmax.
From Stdlib Require Import Permutation Sorted.
Import ListNotations.

Local Open Scope Z_scope.

(* ================================================================== *)
(** ** Strings of UTF-16 code units *)

Module JsString.

Definition jschar := Z.
Definition jsstring := list jschar.

(** A string literal of the development, one code unit per character. *)
Definition lit (s : string) : jsstring :=
  map (fun a => Z.of_N (N_of_ascii a)) (list_ascii_of_string s).

Definition isEmpty (s : jsstring) : bool :=
  match s with [] => true | _ :: _ => false end.

Definition len (s : jsstring) : Z := Z.of_nat (List.length s).

Fixpoint streq (a b : jsstring) : bool :=
  match a, b with
  | [], [] => true
  | x :: a', y :: b' => (x =? y) && streq a' b'
  | _, _ => false
  end.

Fixpoint takeWhile (p : jschar -> bool) (s : jsstring) : jsstring :=
  match s with
  | [] => []
  | c :: s' => if p c then c :: takeWhile p s' else []
  end.

Fixpoint dropWhile (p : jschar -> bool) (s : jsstring) : jsstring :=
  match s with
  | [] => []
  | c :: s' => if p c then dropWhile p s' else s
  end.

(** WhiteSpace and LineTerminator code units: what [\s] matches and what
    [trim] and [parseInt] strip. *)
Definition isWhiteSpace (c : jschar) : bool :=
  ((9 <=? c) && (c <=? 13)) || (c =? 32) || (c =? 160) || (c =? 5760)
  || ((8192 <=? c) && (c <=? 8202)) || (c =? 8232) || (c =? 8233)
  || (c =? 8239) || (c =? 8287) || (c =? 12288) || (c =? 65279).

(** [s.trim()] *)
Definition trim (s : jsstring) : jsstring :=
  rev (dropWhile isWhiteSpace (rev (dropWhile isWhiteSpace s))).

(** [s.split(sep)] for a separator of one code unit. *)
Fixpoint split (sep : jschar) (s : jsstring) : list jsstring :=
  match s with
  | [] => [[]]
  | c :: s' =>
      if c =? sep then [] :: split sep s'
      else match split sep s' with
           | piece :: pieces => (c :: piece) :: pieces
           | [] => [[c]]
           end
  end.

(** [parts.join(sep)] *)
Fixpoint join (sep : jsstring) (parts : list jsstring) : jsstring :=
  match parts with
  | [] => []
  | [p] => p
  | p :: rest => p ++ sep ++ join sep rest
  end.

Fixpoint isPrefix (p s : jsstring) : bool :=
  match p, s with
  | [], _ => true
  | a :: p', b :: s' => (a =? b) && isPrefix p' s'
  | _ :: _, [] => false
  end.

(** First position [>= pos] at which [keyword] occurs, [s] being the
    suffix of the source that starts at [pos]; [-1] when there is none. *)
Fixpoint indexOfFrom (keyword s : jsstring) (pos : Z) : Z :=
  if isPrefix keyword s then pos
  else match s with
       | [] => -1
       | _ :: s' => indexOfFrom keyword s' (pos + 1)
       end.

(** [source.indexOf(keyword, start)] *)
Definition indexOf (source keyword : jsstring) (start : Z) : Z :=
  let k := Z.max 0 (Z.min start (len source)) in
  indexOfFrom keyword (skipn (Z.to_nat k) source) k.

Definition isDigit (c : jschar) : bool := (48 <=? c) && (c <=? 57).

Definition digitsValue (ds : jsstring) : Z :=
  fold_left (fun acc d => acc * 10 + (d - 48)) ds 0.

(** [Number.MAX_SAFE_INTEGER]: up to it, in absolute value, every
    integer is a number of the runtime. *)
Definition MAX_SAFE_INTEGER : Z := 2 ^ 53 - 1.

(** [parseInt(s, 10)]; [None] stands for NaN.  Leading white space is
    skipped, one sign is accepted, and the longest run of decimal digits
    is read; anything after it is ignored.  The result is the integer
    that the digits denote.  The runtime returns the nearest number
    instead, which is that integer as long as its absolute value is at
    most [MAX_SAFE_INTEGER]; beyond, the two can differ (the numeral
    [9007199254740993] is read as [9007199254740992]), so a statement
    about the value itself holds of the code up to that bound only.
    The handlers clamp or range-check what they read, except for the
    page number. *)
Definition parseInt (s : jsstring) : option Z :=
  let s1 := dropWhile isWhiteSpace s in
  let '(sign, s2) :=
    match s1 with
    | c :: r => if c =? 45 then (-1, r) else if c =? 43 then (1, r) else (1, s1)
    | [] => (1, s1)
    end in
  let ds := takeWhile isDigit s2 in
  if isEmpty ds then None else Some (sign * digitsValue ds).

Fixpoint uintDigits (u : Decimal.uint) : jsstring :=
  match u with
  | Decimal.Nil => []
  | Decimal.D0 u' => 48 :: uintDigits u'
  | Decimal.D1 u' => 49 :: uintDigits u'
  | Decimal.D2 u' => 50 :: uintDigits u'
  | Decimal.D3 u' => 51 :: uintDigits u'
  | Decimal.D4 u' => 52 :: uintDigits u'
  | Decimal.D5 u' => 53 :: uintDigits u'
  | Decimal.D6 u' => 54 :: uintDigits u'
  | Decimal.D7 u' => 55 :: uintDigits u'
  | Decimal.D8 u' => 56 :: uintDigits u'
  | Decimal.D9 u' => 57 :: uintDigits u'
  end.

(** [String(n)] for a non-negative integer [n]. *)
Definition ofNumber (n : Z) : jsstring :=
  uintDigits (N.to_uint (Z.to_N n)).

End JsString.

Import JsString.

(* ================================================================== *)
(** ** [Map] and [Set] in insertion order *)

Module JsMap.

Definition t (V : Type) := list (jsstring * V).

Fixpoint get {V} (m : t V) (k : jsstring) : option V :=
  match m with
  | [] => None
  | (k', v) :: m' => if streq k' k then Some v else get m' k
  end.

(** [m.set(k, v)]: an existing key keeps its position, a new one is
    appended. *)
Fixpoint set {V} (m : t V) (k : jsstring) (v : V) : t V :=
  match m with
  | [] => [(k, v)]
  | (k', v') :: m' =>
      if streq k' k then (k', v) :: m' else (k', v') :: set m' k v
  end.

Fixpoint delete {V} (m : t V) (k : jsstring) : t V :=
  match m with
  | [] => []
  | (k', v') :: m' => if streq k' k then m' else (k', v') :: delete m' k
  end.

Definition size {V} (m : t V) : Z := Z.of_nat (List.length m).

Definition keys {V} (m : t V) : list jsstring := map fst m.

End JsMap.

Module JsSet.

Definition t := list Z.

Definition has (s : t) (x : Z) : bool := existsb (Z.eqb x) s.

Definition add (s : t) (x : Z) : t := if has s x then s else s ++ [x].

(** [new Set(iterable)] *)
Definition ofList (l : list Z) : t := fold_left add l [].

Definition size (s : t) : Z := Z.of_nat (List.length s).

End JsSet.

(* ================================================================== *)
(** ** Constants *)

Definition MIN_TOKEN_LENGTH : Z := 2.
Definition CACHE_MAX_ENTRIES : Z := 120.
Definition CACHE_TTL : Z := 5 * 60 * 1000.
Definition MAX_PAGE_SIZE : Z := 100.

(** [ASCII_TOKEN_REGEX.test(keyword)], the regex being [/^[a-z0-9]+$/]. *)
Definition isAsciiTokenChar (c : jschar) : bool :=
  ((97 <=? c) && (c <=? 122)) || isDigit c.

Definition ASCII_TOKEN_REGEX_test (keyword : jsstring) : bool :=
  negb (isEmpty keyword) && forallb isAsciiTokenChar keyword.

(* ================================================================== *)
(** ** Query parser *)

Definition quoteChar : jschar := 34.
Definition barChar : jschar := 124.

(** One attempt of the keyword regex at the start of [s].  The regex has
    two alternatives: a double quote, one or more characters other than a
    double quote (captured as [match[1]]) and a double quote; or one or
    more non-space characters (captured as [match[2]]).  The result is the
    value of [match[1] || match[2]] and the length of the match. *)
Definition matchHere (s : jsstring) : option (jsstring * nat) :=
  match s with
  | [] => None
  | c :: rest =>
      let notQuote := fun x => negb (x =? quoteChar) in
      let phrase := takeWhile notQuote rest in
      let closing := dropWhile notQuote rest in
      if (c =? quoteChar) && negb (isEmpty phrase) && negb (isEmpty closing)
      then Some (phrase, (List.length phrase + 2)%nat)
      else if isWhiteSpace c then None
      else let word := takeWhile (fun x => negb (isWhiteSpace x)) s in
           Some (word, List.length word)
  end.

(** [regex.exec] with the global flag: the leftmost match at or after
    [pos], [s] being the suffix of the input that starts at [pos]; the
    second component is the new [lastIndex]. *)
Fixpoint execFrom (s : jsstring) (pos : nat) : option (jsstring * nat) :=
  match matchHere s with
  | Some (tok, n) => Some (tok, (pos + n)%nat)
  | None =>
      match s with
      | [] => None
      | _ :: s' => execFrom s' (S pos)
      end
  end.

Definition orPartsOf (token : jsstring) : list jsstring :=
  filter (fun part => 0 <? len part) (map trim (split barChar token)).

(** The [while ((match = regex.exec(rawKeyword)) !== null)] loop; [None]
    only when the fuel runs out. *)
Fixpoint parseLoop (fuel : nat) (rawKeyword : jsstring) (lastIndex : nat)
    (groups : list (list jsstring)) : option (list (list jsstring)) :=
  match fuel with
  | O => None
  | S fuel' =>
      match execFrom (skipn lastIndex rawKeyword) lastIndex with
      | None => Some groups
      | Some (m, lastIndex') =>
          let token := trim m in
          if isEmpty token then parseLoop fuel' rawKeyword lastIndex' groups
          else
            let orParts := orPartsOf token in
            if 0 <? Z.of_nat (List.length orParts)
            then parseLoop fuel' rawKeyword lastIndex' (groups ++ [orParts])
            else parseLoop fuel' rawKeyword lastIndex' groups
      end
  end.

Definition parseSearchKeywords (rawKeyword : jsstring) : list (list jsstring) :=
  if isEmpty rawKeyword then []
  else match parseLoop (S (List.length rawKeyword)) rawKeyword 0 [] with
       | Some groups => groups
       | None => []
       end.

(* ================================================================== *)
(** ** Request parameters *)

(** A query-string parameter: absent, or the string the client sent. *)
Definition param := option jsstring.

(** [parseInt(p, 10) || dflt], [p] defaulting to the number [dflt] when
    the parameter is absent: NaN and 0 are both falsy. *)
Definition parseIntOr (p : param) (dflt : Z) : Z :=
  match p with
  | None => dflt
  | Some s =>
      match parseInt s with
      | None => dflt
      | Some n => if n =? 0 then dflt else n
      end
  end.

(** [Math.max(parseInt(page, 10) || 1, 1)] *)
Definition pageNumOf (page : param) : Z := Z.max (parseIntOr page 1) 1.

(** [Math.min(Math.max(parseInt(pageSize, 10) || 20, 1), MAX_PAGE_SIZE)] *)
Definition sizeOf (pageSize : param) : Z :=
  Z.min (Z.max (parseIntOr pageSize 20) 1) MAX_PAGE_SIZE.

(* ================================================================== *)
(** ** Generic array operations *)

(** [arr.slice(start, end)] *)
Definition slice {A} (arr : list A) (start stop : Z) : list A :=
  let n := Z.of_nat (List.length arr) in
  let clamp := fun k => if k <? 0 then Z.max (n + k) 0 else Z.min k n in
  let from := clamp start in
  let to := clamp stop in
  firstn (Z.to_nat (Z.max (to - from) 0)) (skipn (Z.to_nat from) arr).

Fixpoint insertBy {A} (cmp : A -> A -> Z) (x : A) (sorted : list A) : list A :=
  match sorted with
  | [] => [x]
  | y :: rest => if cmp x y <=? 0 then x :: sorted else y :: insertBy cmp x rest
  end.

(** [arr.sort(cmp)]: the sort of the language is stable, and so is this
    insertion sort; for a comparator that orders the elements totally the
    result does not depend on the algorithm. *)
Definition sortBy {A} (cmp : A -> A -> Z) (arr : list A) : list A :=
  fold_right (insertBy cmp) [] arr.

(* ================================================================== *)
(** ** Document store and token index *)

Record Doc := mkDoc {
  content : jsstring;
  title : jsstring;
  path : jsstring;
  titleLower : jsstring;
  contentLower : jsstring;
  category : jsstring
}.

Record Server := mkServer {
  searchData : list Doc;
  tokenIndex : JsMap.t JsSet.t
}.

(** A code unit that the splitting regex of [extractTokens] does not
    treat as a separator: [a-zA-Z0-9] and the range 4e00 to 9fa5. *)
Definition isTokenChar (c : jschar) : bool :=
  ((97 <=? c) && (c <=? 122)) || ((65 <=? c) && (c <=? 90)) || isDigit c
  || ((19968 <=? c) && (c <=? 40869)).

(** [text.split(re)] for the regex of one or more separator code units;
    [inSeparator] tells that the previous code unit was a separator. *)
Fixpoint splitOnSeparators (text : jsstring) (inSeparator : bool) : list jsstring :=
  match text with
  | [] => [[]]
  | c :: text' =>
      if isTokenChar c then
        match splitOnSeparators text' false with
        | piece :: pieces => (c :: piece) :: pieces
        | [] => [[c]]
        end
      else if inSeparator then splitOnSeparators text' true
      else [] :: splitOnSeparators text' true
  end.

(** [[...new Set(pieces)]] on strings. *)
Fixpoint dedupe (seen pieces : list jsstring) : list jsstring :=
  match pieces with
  | [] => []
  | p :: rest =>
      if existsb (streq p) seen then dedupe seen rest
      else p :: dedupe (p :: seen) rest
  end.

Definition extractTokens (text : jsstring) : list jsstring :=
  if isEmpty text then []
  else
    let pieces :=
      filter (fun segment => MIN_TOKEN_LENGTH <=? len segment)
             (map trim (splitOnSeparators text false)) in
    dedupe [] pieces.

Definition spaceStr : jsstring := [32].

(** The bucket is created on first use; [bucket.add] acts on the set held
    by the map, which the model writes back. *)
Definition indexDocumentTokens (index : JsMap.t JsSet.t) (docIndex : Z)
    (titleLower contentLower : jsstring) : JsMap.t JsSet.t :=
  let tokens := extractTokens (titleLower ++ spaceStr ++ contentLower) in
  fold_left
    (fun idx token =>
       let bucket := match JsMap.get idx token with
                     | Some b => b
                     | None => []
                     end in
       JsMap.set idx token (JsSet.add bucket docIndex))
    tokens index.

Definition emptyServer : Server := mkServer [] [].

(** One turn of the loading loop for an already normalized record:
    [searchData.push(record)] and [indexDocumentTokens(docIndex, ...)]. *)
Definition ingest (srv : Server) (record : Doc) : Server :=
  let docIndex := Z.of_nat (List.length (searchData srv)) in
  mkServer (searchData srv ++ [record])
           (indexDocumentTokens (tokenIndex srv) docIndex
              (titleLower record) (contentLower record)).

(** The state after [loadSearchData] has ingested [records]; reading and
    normalizing the data file is outside the model. *)
Definition loadRecords (records : list Doc) : Server :=
  fold_left ingest records emptyServer.

(** [searchData[index]] *)
Definition docAt (srv : Server) (index : Z) : option Doc :=
  if index <? 0 then None else nth_error (searchData srv) (Z.to_nat index).

(* ================================================================== *)
(** ** Occurrence counting *)

(** The [while (true)] loop of [countOccurrences]; [None] only when the
    fuel runs out. *)
Fixpoint countLoop (fuel : nat) (source keyword : jsstring)
    (count startIndex : Z) : option Z :=
  match fuel with
  | O => None
  | S fuel' =>
      let idx := indexOf source keyword startIndex in
      if idx =? -1 then Some count
      else countLoop fuel' source keyword (count + 1) (idx + len keyword)
  end.

Definition countOccurrences (source keyword : jsstring) : Z :=
  if isEmpty source || isEmpty keyword then 0
  else match countLoop (S (List.length source)) source keyword 0 0 with
       | Some count => count
       | None => 0
       end.

(* ================================================================== *)
(** ** Candidate selection *)

Definition asciiCandidatesOf (group : list jsstring) : list jsstring :=
  filter (fun keyword =>
            (MIN_TOKEN_LENGTH <=? len keyword) && ASCII_TOKEN_REGEX_test keyword)
         group.

(** The [for (const group of keywordGroupsLower)] loop, on the state
    ([candidateSet], [usedIndexedKeyword]); [None] is [null]. *)
Fixpoint collectLoop (index : JsMap.t JsSet.t) (baseIndexesSet : option JsSet.t)
    (groups : list (list jsstring)) (candidateSet : option JsSet.t)
    (usedIndexedKeyword : bool) : option JsSet.t * bool :=
  match groups with
  | [] => (candidateSet, usedIndexedKeyword)
  | group :: rest =>
      let skip := collectLoop index baseIndexesSet rest candidateSet
                              usedIndexedKeyword in
      if Z.of_nat (List.length group) =? 0 then skip
      else
        match asciiCandidatesOf group with
        | [keyword] =>
            match JsMap.get index keyword with
            | None => skip
            | Some bucket =>
                if JsSet.size bucket =? 0 then skip
                else
                  let filteredBucket :=
                    match baseIndexesSet with
                    | Some base => filter (JsSet.has base) bucket
                    | None => bucket
                    end in
                  let candidateSet' :=
                    match candidateSet with
                    | None => filteredBucket
                    | Some cand => filter (JsSet.has cand) filteredBucket
                    end in
                  if JsSet.size candidateSet' =? 0 then (Some candidateSet', true)
                  else collectLoop index baseIndexesSet rest (Some candidateSet') true
            end
        | _ => skip
        end
  end.

Definition collectCandidateIndexes (index : JsMap.t JsSet.t)
    (keywordGroupsLower : list (list jsstring))
    (baseIndexesSet : option JsSet.t) : option JsSet.t :=
  let '(candidateSet, usedIndexedKeyword) :=
    collectLoop index baseIndexesSet keywordGroupsLower None false in
  if negb usedIndexedKeyword then baseIndexesSet
  else match candidateSet with
       | Some cand => Some cand
       | None => Some []
       end.

(* ================================================================== *)
(** ** Ranking, cache, pagination and the request handler *)

(** One entry of the result list.  [index] and [rank] are as in the
    source; the other fields of a result (titles, paths, preview, content,
    category) are copied or derived from the document [item] alone. *)
Record Result := mkResult {
  index : Z;
  rank : Z;
  item : Doc
}.

Record CacheEntry := mkEntry {
  results : list Result;
  timestamp : Z
}.

Definition Cache := JsMap.t CacheEntry.

(** The body of a search response. *)
Record Response := mkResponse {
  resResults : list Result;
  total : Z;
  page : Z;
  totalPages : Z;
  pageSize : Z
}.

(** [req.query] of a search request. *)
Record Request := mkRequest {
  qKeyword : param;
  qTitleOnly : param;
  qPage : param;
  qPageSize : param;
  qBaseIndexes : param;
  qCategory : param
}.

(** The inner loop over the alternatives of one group: the pair
    ([bestTitleOccurrences], [bestContentOccurrences]). *)
Definition bestOccurrences (isTitleOnly : bool) (it : Doc)
    (group : list jsstring) : Z * Z :=
  fold_left
    (fun best kwLower =>
       if isEmpty kwLower then best
       else
         let titleOccurrences := countOccurrences (titleLower it) kwLower in
         let bestTitle :=
           if titleOccurrences >? fst best then titleOccurrences else fst best in
         if isTitleOnly then (bestTitle, snd best)
         else
           let contentOccurrences := countOccurrences (contentLower it) kwLower in
           (bestTitle,
            if contentOccurrences >? snd best then contentOccurrences
            else snd best))
    group (0, 0).

Definition keywordMatched (isTitleOnly : bool) (best : Z * Z) : bool :=
  if isTitleOnly then 0 <? fst best
  else (0 <? fst best) || (0 <? snd best).

(** The loop over the groups; [None] when it leaves through [break] with
    [matchedAllKeywords] false, else the pair ([titleRank],
    [contentRank]). *)
Fixpoint rankGroups (isTitleOnly : bool) (it : Doc)
    (groups : list (list jsstring)) (titleRank contentRank : Z)
    : option (Z * Z) :=
  match groups with
  | [] => Some (titleRank, contentRank)
  | group :: rest =>
      let best := bestOccurrences isTitleOnly it group in
      if negb (keywordMatched isTitleOnly best) then None
      else
        rankGroups isTitleOnly it rest
          (if 0 <? fst best then titleRank * (fst best + 1) else titleRank)
          (if negb isTitleOnly && (0 <? snd best)
           then contentRank * (snd best + 1) else contentRank)
  end.

(** The comparator handed to [results.sort]. *)
Definition compareResults (a b : Result) : Z :=
  if negb (rank b =? rank a) then rank b - rank a
  else index a - index b.

(** [Math.ceil(total / pageSize)]: the division is the exact quotient,
    which the floating-point division agrees with after rounding up for
    the list lengths and page sizes (at most [MAX_PAGE_SIZE]) that
    occur. *)
Definition paginateResults (sortedResults : list Result) (pageNum size : Z)
    : Response :=
  let total := Z.of_nat (List.length sortedResults) in
  let totalPages := Qceiling (Qdiv (inject_Z total) (inject_Z size)) in
  let start := (pageNum - 1) * size in
  let paginatedResults := slice sortedResults start (start + size) in
  mkResponse paginatedResults total pageNum totalPages size.

Definition commaChar : jschar := 44.

(** The template string of [buildCacheKey]. *)
Definition buildCacheKey (keywordSignatureParts : list jsstring)
    (isTitleOnly : bool) (baseIndexesSet : option JsSet.t)
    (category : jsstring) : jsstring :=
  let basePart :=
    match baseIndexesSet with
    | Some base => join [commaChar] (map ofNumber (sortBy (fun a b => a - b) base))
    | None => []
    end in
  (if isTitleOnly then [49] else [48]) ++ [barChar]
  ++ join spaceStr keywordSignatureParts ++ [barChar]
  ++ basePart ++ [barChar] ++ category.

(** Returns the cached list ([None] is [null]) and the cache it leaves. *)
Definition getCachedResults (queryCache : Cache) (cacheKey : jsstring)
    (now : Z) : option (list Result) * Cache :=
  match JsMap.get queryCache cacheKey with
  | None => (None, queryCache)
  | Some entry =>
      if now - timestamp entry >? CACHE_TTL
      then (None, JsMap.delete queryCache cacheKey)
      else (Some (results entry),
            JsMap.set (JsMap.delete queryCache cacheKey) cacheKey entry)
  end.

Definition setCachedResults (queryCache : Cache) (cacheKey : jsstring)
    (res : list Result) (now : Z) : Cache :=
  let stored := JsMap.set queryCache cacheKey (mkEntry res now) in
  if JsMap.size stored >? CACHE_MAX_ENTRIES then
    match JsMap.keys stored with
    | oldestKey :: _ =>
        if isEmpty oldestKey then stored else JsMap.delete stored oldestKey
    | [] => stored
    end
  else stored.

(** The [baseIndexes] parameter: [None] is [null] (no restriction). *)
Definition isValidIndex (srv : Server) (parsed : option Z) : bool :=
  match parsed with
  | Some idx => (0 <=? idx) && (idx <? Z.of_nat (List.length (searchData srv)))
  | None => false
  end.

Definition validIndexes (srv : Server) (baseIndexes : jsstring) : list Z :=
  flat_map (fun parsed => match parsed with Some idx => [idx] | None => [] end)
    (filter (isValidIndex srv) (map parseInt (split commaChar baseIndexes))).

Definition parseBaseIndexes (srv : Server) (baseIndexes : param)
    : option JsSet.t :=
  match baseIndexes with
  | Some s =>
      if 0 <? len (trim s) then Some (JsSet.ofList (validIndexes srv s))
      else None
  | None => None
  end.

(** The times of last use after the request numbered [time] has used
    [key], if it used one. *)
Definition useAt (lastUse : jsstring -> Z) (key : option jsstring) (time : Z)
    : jsstring -> Z :=
  fun k =>
    match key with
    | Some used => if streq used k then time else lastUse k
    | None => lastUse k
    end.

Section Engine.

(** [String.prototype.toLowerCase], the case mapping of the runtime. *)
Variable toLowerCase : jsstring -> jsstring.

(** [powRound x g k] is [Math.round(Math.pow(x, 1 / g) * k)], a
    floating-point computation of the runtime ([k] is 20 for the title
    rank, and 1, an exact factor, for the content rank). *)
Variable powRound : Z -> Z -> Z -> Z.

(** The body of the loop over the search space for one index: [None]
    when the iteration ends in [continue]. *)
Definition rankItem (srv : Server) (keywordGroupsLower : list (list jsstring))
    (isTitleOnly : bool) (idx : Z) : option Result :=
  match docAt srv idx with
  | None => None
  | Some it =>
      match rankGroups isTitleOnly it keywordGroupsLower 1 1 with
      | None => None
      | Some (titleRank, contentRank) =>
          let n := Z.of_nat (List.length keywordGroupsLower) in
          let groupCount := if n =? 0 then 1 else n in
          let totalRank :=
            powRound titleRank groupCount 20
            + (if isTitleOnly then 0 else powRound contentRank groupCount 1) in
          Some (mkResult idx totalRank it)
      end
  end.

Definition rankAll (srv : Server) (keywordGroupsLower : list (list jsstring))
    (isTitleOnly : bool) (searchSpace : list Z) : list Result :=
  flat_map (fun idx =>
              match rankItem srv keywordGroupsLower isTitleOnly idx with
              | Some r => [r]
              | None => []
              end)
           searchSpace.

(** The handler after a cache miss, up to and including the sort: the
    list that is stored in the cache and handed to [paginateResults].
    The two early exits store and paginate the empty list. *)
Definition computeResults (srv : Server)
    (keywordGroupsLower : list (list jsstring)) (isTitleOnly : bool)
    (baseIndexesSet : option JsSet.t) (categoryFilter : jsstring)
    : list Result :=
  let candidateSet :=
    collectCandidateIndexes (tokenIndex srv) keywordGroupsLower baseIndexesSet in
  if match candidateSet with
     | Some cand => JsSet.size cand =? 0
     | None => false
     end
  then []
  else
    let searchSpace :=
      match candidateSet with
      | Some cand => cand
      | None =>
          match baseIndexesSet with
          | Some base => base
          | None => map Z.of_nat (seq 0 (List.length (searchData srv)))
          end
      end in
    let filtered :=
      if isEmpty categoryFilter then searchSpace
      else filter (fun idx =>
                     match docAt srv idx with
                     | Some doc => streq (category doc) categoryFilter
                     | None => false
                     end)
                  searchSpace in
    if negb (isEmpty categoryFilter) && (Z.of_nat (List.length filtered) =? 0)
    then []
    else sortBy compareResults
           (rankAll srv keywordGroupsLower isTitleOnly filtered).

Definition emptyResponse (pageNum size : Z) : Response :=
  mkResponse [] 0 pageNum 0 size.

Definition categoryFilterOf (category : param) : jsstring :=
  let rawCategory := match category with Some c => trim c | None => [] end in
  if negb (isEmpty rawCategory)
     && negb (streq (toLowerCase rawCategory) (lit "all"))
  then rawCategory else [].

Definition isTitleOnlyOf (titleOnly : param) : bool :=
  match titleOnly with
  | Some s => streq s (lit "true")
  | None => false
  end.

(** The handler from [parseSearchKeywords] on, for a keyword that is not
    empty and a restriction that was accepted. *)
Definition searchKeyword (srv : Server) (queryCache : Cache) (now : Z)
    (req : Request) (pageNum size : Z) (keyword : jsstring)
    (baseIndexesSet : option JsSet.t) : Response * Cache :=
  let keywordGroups := parseSearchKeywords keyword in
  if Z.of_nat (List.length keywordGroups) =? 0
  then (emptyResponse pageNum size, queryCache)
  else
    let keywordGroupsLower := map (map toLowerCase) keywordGroups in
    let cacheKeyParts := map (join [barChar]) keywordGroupsLower in
    let isTitleOnly := isTitleOnlyOf (qTitleOnly req) in
    let categoryFilter := categoryFilterOf (qCategory req) in
    let cacheKey :=
      buildCacheKey cacheKeyParts isTitleOnly baseIndexesSet categoryFilter in
    match getCachedResults queryCache cacheKey now with
    | (Some cachedResults, cache') =>
        (paginateResults cachedResults pageNum size, cache')
    | (None, cache') =>
        let res := computeResults srv keywordGroupsLower isTitleOnly
                     baseIndexesSet categoryFilter in
        (paginateResults res pageNum size,
         setCachedResults cache' cacheKey res now)
    end.

(** The handler of [GET /api/search]: the response body and the cache it
    leaves.  [now] is the reading of the clock during the request. *)
Definition apiSearch (srv : Server) (queryCache : Cache) (now : Z)
    (req : Request) : Response * Cache :=
  let pageNum := pageNumOf (qPage req) in
  let size := sizeOf (qPageSize req) in
  match qKeyword req with
  | None => (emptyResponse pageNum size, queryCache)
  | Some keyword =>
      if isEmpty keyword then (emptyResponse pageNum size, queryCache)
      else
        let baseIndexesSet := parseBaseIndexes srv (qBaseIndexes req) in
        if match baseIndexesSet with
           | Some base => JsSet.size base =? 0
           | None => false
           end
        then (emptyResponse pageNum size, queryCache)
        else searchKeyword srv queryCache now req pageNum size keyword
               baseIndexesSet
  end.

(** The full, unpaginated list that the handler computes for the parsed
    query [keywordGroups] when the request has no base-index restriction
    and no category filter and the cache holds no entry for it: the guard
    on the number of groups, then the cache-miss path. *)
Definition unrestrictedResults (srv : Server)
    (keywordGroups : list (list jsstring)) (isTitleOnly : bool)
    : list Result :=
  if Z.of_nat (List.length keywordGroups) =? 0 then []
  else computeResults srv (map (map toLowerCase) keywordGroups) isTitleOnly
         None [].

(** The caches that a server can hold: empty after loading, then changed
    by the requests it serves. *)
Inductive reachable (srv : Server) : Cache -> Prop :=
| reachable_load : reachable srv []
| reachable_request : forall queryCache now req,
    reachable srv queryCache ->
    reachable srv (snd (apiSearch srv queryCache now req)).

(** The key under which the handler consults the cache for a request;
    [None] when the request is answered before the cache is consulted. *)
Definition cacheKeyOf (srv : Server) (req : Request) : option jsstring :=
  match qKeyword req with
  | None => None
  | Some keyword =>
      if isEmpty keyword then None
      else
        let baseIndexesSet := parseBaseIndexes srv (qBaseIndexes req) in
        if match baseIndexesSet with
           | Some base => JsSet.size base =? 0
           | None => false
           end
        then None
        else
          let keywordGroups := parseSearchKeywords keyword in
          if Z.of_nat (List.length keywordGroups) =? 0 then None
          else
            Some (buildCacheKey
                    (map (join [barChar]) (map (map toLowerCase) keywordGroups))
                    (isTitleOnlyOf (qTitleOnly req)) baseIndexesSet
                    (categoryFilterOf (qCategory req)))
  end.

(** The caches of a server together with their history of use:
    [lastUse key] is the number of the last request that consulted the
    cache under [key] (whether it hit the entry or stored it), and
    [clock] the number of requests served. *)
Inductive served (srv : Server) : Cache -> (jsstring -> Z) -> Z -> Prop :=
| served_load : served srv [] (fun _ => 0) 0
| served_request : forall queryCache lastUse clock now req,
    served srv queryCache lastUse clock ->
    served srv (snd (apiSearch srv queryCache now req))
      (useAt lastUse (cacheKeyOf srv req) (clock + 1)) (clock + 1).

End Engine.

(* ================================================================== *)
(** ** Text normalization, paths and titles *)

Definition crChar : jschar := 13.
Definition lfChar : jschar := 10.
Definition backslashChar : jschar := 92.
Definition slashChar : jschar := 47.
Definition dotChar : jschar := 46.

(** [s.replace(re, by)] for a global regex that matches the two code
    units [a] then [b]: the matches are taken from left to right and do
    not overlap. *)
Fixpoint replacePair (a b : jschar) (by_ : jsstring) (s : jsstring) : jsstring :=
  match s with
  | x :: (y :: rest) as tail =>
      if (x =? a) && (y =? b) then by_ ++ replacePair a b by_ rest
      else x :: replacePair a b by_ tail
  | _ => s
  end.

(** [s.replace(re, by)] for a global regex that matches the one code unit
    [a]. *)
Definition replaceChar (a by_ : jschar) (s : jsstring) : jsstring :=
  map (fun c => if c =? a then by_ else c) s.

Definition normalizeLineEndings (text : jsstring) : jsstring :=
  replaceChar crChar lfChar
    (replacePair lfChar crChar [lfChar]
       (replacePair crChar lfChar [lfChar] text)).

(** [s.replace(re, "/")] for the global regex of one or more backslashes:
    every maximal run of backslashes becomes one slash; [inRun] tells
    that the previous code unit was a backslash. *)
Fixpoint collapseBackslashes (s : jsstring) (inRun : bool) : jsstring :=
  match s with
  | [] => []
  | c :: s' =>
      if c =? backslashChar
      then if inRun then collapseBackslashes s' true
           else slashChar :: collapseBackslashes s' true
      else c :: collapseBackslashes s' false
  end.

(** A code unit matches the small ASCII letter [letter] under the
    [i] flag: it is the letter or its capital. *)
Definition matchesLetter (letter c : jschar) : bool :=
  (c =? letter) || (c =? letter - 32).

(** [s.replace(re, "")] for the regex that matches, at the start of the
    string and ignoring case, the word topics and a slash. *)
Definition stripTopicsPrefix (s : jsstring) : jsstring :=
  match s with
  | c1 :: c2 :: c3 :: c4 :: c5 :: c6 :: c7 :: rest =>
      if matchesLetter 116 c1 && matchesLetter 111 c2 && matchesLetter 112 c3
         && matchesLetter 105 c4 && matchesLetter 99 c5 && matchesLetter 115 c6
         && (c7 =? slashChar)
      then rest else s
  | _ => s
  end.

Definition extractSourcePath (rawPath : jsstring) : jsstring :=
  if isEmpty rawPath then []
  else stripTopicsPrefix (collapseBackslashes rawPath false).

(** The sentinel category, three code units of the CJK range. *)
Definition DEFAULT_CATEGORY : jsstring := [26410; 20998; 31867].

Definition extractCategory (sanitizedPath : jsstring) : jsstring :=
  if isEmpty sanitizedPath then DEFAULT_CATEGORY
  else
    let normalized := trim (stripTopicsPrefix sanitizedPath) in
    if isEmpty normalized then DEFAULT_CATEGORY
    else
      let parts := split slashChar normalized in
      let category :=
        match parts with
        | first :: _ => if isEmpty first then [] else trim first
        | [] => []
        end in
      if isEmpty category then DEFAULT_CATEGORY else category.

(** The suffix test of the regex that matches, at the end of the string
    and ignoring case, a dot followed by html or htm. *)
Definition isHtmlExtension (suffix : jsstring) : bool :=
  match suffix with
  | [d; h; t; m; l] =>
      (d =? dotChar) && matchesLetter 104 h && matchesLetter 116 t
      && matchesLetter 109 m && matchesLetter 108 l
  | [d; h; t; m] =>
      (d =? dotChar) && matchesLetter 104 h && matchesLetter 116 t
      && matchesLetter 109 m
  | _ => false
  end.

(** [s.replace(re, "")] for that regex: the leftmost position from which
    the rest of the string is such an extension is cut off. *)
Fixpoint stripHtmlExtension (s : jsstring) : jsstring :=
  if isHtmlExtension s then []
  else match s with
       | [] => []
       | c :: s' => c :: stripHtmlExtension s'
       end.

(** The placeholder title, five code units of the CJK range. *)
Definition UNNAMED_PAGE : jsstring := [26410; 21629; 21517; 39029; 38754].

Definition buildDisplayTitle (rawTitle sourcePath : jsstring) : jsstring :=
  let fromPath :=
    if isEmpty sourcePath then UNNAMED_PAGE
    else
      let last := List.last (split slashChar sourcePath) [] in
      let stripped := stripHtmlExtension last in
      if isEmpty stripped then UNNAMED_PAGE else stripped in
  if isEmpty rawTitle then fromPath
  else
    let normalized := trim (normalizeLineEndings rawTitle) in
    if isEmpty normalized then fromPath
    else
      let firstLine := trim (hd [] (split lfChar normalized)) in
      if isEmpty firstLine then fromPath else firstLine.

(* ================================================================== *)
(** ** The content endpoint *)

Definition isHexDigit (c : jschar) : bool :=
  isDigit c || ((97 <=? c) && (c <=? 102)) || ((65 <=? c) && (c <=? 70)).

Definition hexDigitValue (c : jschar) : Z :=
  if isDigit c then c - 48
  else if 97 <=? c then c - 87 else c - 55.

(** [parseInt(s)] without a radix: as [parseInt(s, 10)], except that
    after the sign a prefix 0x or 0X selects the radix 16. *)
Definition parseIntAuto (s : jsstring) : option Z :=
  let s1 := dropWhile isWhiteSpace s in
  let '(sign, s2) :=
    match s1 with
    | c :: r => if c =? 45 then (-1, r) else if c =? 43 then (1, r) else (1, s1)
    | [] => (1, s1)
    end in
  match s2 with
  | z :: x :: hex =>
      if (z =? 48) && ((x =? 120) || (x =? 88)) then
        let ds := takeWhile isHexDigit hex in
        if isEmpty ds then None
        else Some (sign * fold_left (fun acc d => acc * 16 + hexDigitValue d) ds 0)
      else
        let ds := takeWhile isDigit s2 in
        if isEmpty ds then None else Some (sign * digitsValue ds)
  | _ =>
      let ds := takeWhile isDigit s2 in
      if isEmpty ds then None else Some (sign * digitsValue ds)
  end.

(** The body that the content endpoint answers with. *)
Record ContentBody := mkContentBody {
  bodyContent : jsstring;
  bodyTitle : jsstring;
  bodyPath : jsstring
}.

(** The handler of [GET /api/content/:index]; [None] is the 404
    answer. *)
Definition apiContent (srv : Server) (indexParam : jsstring) : option ContentBody :=
  match parseIntAuto indexParam with
  | Some idx =>
      if (0 <=? idx) && (idx <? Z.of_nat (List.length (searchData srv)))
      then match docAt srv idx with
           | Some doc => Some (mkContentBody (content doc) (title doc) (path doc))
           | None => None
           end
      else None
  | None => None
  end.

(* ================================================================== *)
(** ** Presentation of a result and loading *)

Definition ellipsisChar : jschar := 8230.
Definition PREVIEW_MAX_LENGTH : Z := 600.

(** The object pushed to [results]: the fields of [Result] and those
    copied or derived from the document. *)
Record ResultObject := mkResultObject {
  objIndex : Z;
  objTitle : jsstring;
  objRawTitle : jsstring;
  objPath : jsstring;
  objSourcePath : jsstring;
  objRank : Z;
  objPreview : jsstring;
  objContent : jsstring;
  objCategory : jsstring
}.

Section Presentation.

Variable toLowerCase : jsstring -> jsstring.

(** The [forEach] of [buildPreview]: the pair ([bestIndex],
    [bestKeywordLength]). *)
Definition bestPreviewMatch (lower : jsstring) (keywords : list jsstring)
    : Z * Z :=
  fold_left
    (fun best kw =>
       if isEmpty kw then best
       else
         let idx := indexOf lower (toLowerCase kw) 0 in
         if negb (idx =? -1) && ((fst best =? -1) || (idx <? fst best))
         then (idx, len kw) else best)
    keywords (-1, 0).

Definition buildPreview (text : jsstring) (keywords : list jsstring)
    (maxLength : Z) : jsstring :=
  if isEmpty text then []
  else
    let normalized := normalizeLineEndings text in
    let lower := toLowerCase normalized in
    let best := bestPreviewMatch lower keywords in
    let bestIndex := fst best in
    let bestKeywordLength := snd best in
    if bestIndex =? -1 then
      let truncated := slice normalized 0 maxLength in
      if len normalized >? maxLength then truncated ++ [ellipsisChar]
      else truncated
    else
      let halfWindow :=
        Qmax (Qdiv (inject_Z (maxLength - bestKeywordLength)) (inject_Z 2))
             (inject_Z 0) in
      let start :=
        Z.max 0 (Qfloor (Qminus (inject_Z bestIndex) halfWindow)) in
      let stop :=
        Z.min (len normalized)
              (Qceiling (Qplus (inject_Z start) (inject_Z maxLength))) in
      let snippet := slice normalized start stop in
      let snippet := if start >? 0 then ellipsisChar :: snippet else snippet in
      if stop <? len normalized then snippet ++ [ellipsisChar] else snippet.

(** The object that the ranking loop pushes for a ranked document;
    [previewKeywords] is [keywordGroups.flat()]. *)
Definition resultObject (previewKeywords : list jsstring) (r : Result)
    : ResultObject :=
  let sourcePath := extractSourcePath (path (item r)) in
  mkResultObject (index r)
    (buildDisplayTitle (title (item r)) sourcePath)
    (title (item r)) (path (item r)) sourcePath (rank r)
    (buildPreview (content (item r)) previewKeywords PREVIEW_MAX_LENGTH)
    (content (item r)) (category (item r)).

(** The record that [loadSearchData] builds from one triple of the data
    array, whose entries are taken to be strings. *)
Definition recordOf (rawContent rawTitle rawPath : jsstring) : Doc :=
  let normalizedContent := normalizeLineEndings rawContent in
  let normalizedTitle := trim (normalizeLineEndings rawTitle) in
  let sanitizedPath := collapseBackslashes rawPath false in
  mkDoc normalizedContent normalizedTitle sanitizedPath
        (toLowerCase normalizedTitle) (toLowerCase normalizedContent)
        (extractCategory sanitizedPath).

(** The loop of [loadSearchData] over the data array, three entries at a
    time; entries after the last complete triple are left out. *)
Fixpoint recordsOf (rawContents : list jsstring) : list Doc :=
  match rawContents with
  | rawContent :: rawTitle :: rawPath :: rest =>
      recordOf rawContent rawTitle rawPath :: recordsOf rest
  | _ => []
  end.

Definition loadSearchData (rawContents : list jsstring) : Server :=
  loadRecords (recordsOf rawContents).

(** The set [categories] after loading: the sentinel, then the category
    of every record, in order of first appearance. *)
Definition categoriesOf (rawContents : list jsstring) : list jsstring :=
  dedupe [] (DEFAULT_CATEGORY :: map category (recordsOf rawContents)).

End Presentation.

(* ================================================================== *)
(** ** The chunk writer of splitData.js *)

Definition MAX_CHUNK_BYTES : Z := 10 * 1024 * 1024.

(** An entry of three strings, as [groupEntries] builds it and as the
    first variant of the server stores it. *)
Record SplitEntry := mkSplitEntry {
  entryContent : jsstring;
  entryTitle : jsstring;
  entryPath : jsstring
}.

(** The loop of [groupEntries] over the data array, whose entries are
    taken to be strings: three at a time while [i + 2] is within the
    array.  Every backslash of the path becomes a slash. *)
Fixpoint groupEntries (rawArray : list jsstring) : list SplitEntry :=
  match rawArray with
  | rawContent :: rawTitle :: rawPath :: rest =>
      mkSplitEntry (normalizeLineEndings rawContent) rawTitle
                   (replaceChar backslashChar slashChar rawPath)
      :: groupEntries rest
  | _ => []
  end.

(** [s.padStart(targetLength, fill)] for a filler of one code unit. *)
Definition padStart (s : jsstring) (targetLength : nat) (fill : jschar)
    : jsstring :=
  repeat fill (targetLength - List.length s) ++ s.

(** The name that [flush] gives to the file of the chunk numbered
    [chunkIndex]. *)
Definition chunkFileName (chunkIndex : Z) : jsstring :=
  lit "chunk-" ++ padStart (ofNumber chunkIndex) 3 48 ++ lit ".json".

(** The payload of a chunk file: the serialized entries, separated by
    commas, between brackets. *)
Definition payloadOf (entries : list jsstring) : jsstring :=
  [91] ++ join [commaChar] entries ++ [93].

(** The state of [writeChunks]: the variables [manifest], [chunkIndex],
    [currentEntries] and [currentSize], and the files written so far, by
    name; a file is given by the serialized entries that its payload
    joins. *)
Record ChunkState := mkChunkState {
  manifest : list jsstring;
  chunkIndex : Z;
  writtenFiles : JsMap.t (list jsstring);
  currentEntries : list jsstring;
  currentSize : Z
}.

Section SplitData.

(** [Buffer.byteLength], the number of bytes of the UTF-8 encoding. *)
Variable byteLength : jsstring -> Z.

(** [flush]; [None] when it throws. *)
Definition flush (st : ChunkState) : option ChunkState :=
  if Z.of_nat (List.length (currentEntries st)) =? 0 then Some st
  else
    let fileName := chunkFileName (chunkIndex st) in
    if byteLength (payloadOf (currentEntries st)) >? MAX_CHUNK_BYTES
    then None
    else Some (mkChunkState (manifest st ++ [fileName]) (chunkIndex st + 1)
                 (JsMap.set (writtenFiles st) fileName (currentEntries st))
                 [] 2).

(** One turn of the [forEach] of [writeChunks], for the entry that
    [JSON.stringify] serializes as [entryJson]; [None] when it throws.
    The separator is counted for the entries held before the flush. *)
Definition addEntry (st : ChunkState) (entryJson : jsstring)
    : option ChunkState :=
  let entryBytes := byteLength entryJson in
  if entryBytes >? MAX_CHUNK_BYTES then None
  else
    let separatorBytes :=
      if Z.of_nat (List.length (currentEntries st)) >? 0 then 1 else 0 in
    match (if currentSize st + separatorBytes + entryBytes >? MAX_CHUNK_BYTES
           then flush st else Some st) with
    | None => None
    | Some st' =>
        Some (mkChunkState (manifest st') (chunkIndex st') (writtenFiles st')
                (currentEntries st' ++ [entryJson])
                (currentSize st' + separatorBytes + entryBytes))
    end.

Fixpoint addEntries (st : ChunkState) (entryJsons : list jsstring)
    : option ChunkState :=
  match entryJsons with
  | [] => Some st
  | entryJson :: rest =>
      match addEntry st entryJson with
      | None => None
      | Some st' => addEntries st' rest
      end
  end.

(** [writeChunks] on the serialized entries, in a directory that
    [ensureCleanDir] has emptied: the [chunks] array that it writes to
    the manifest and the chunk files that it has written; [None] when it
    throws. *)
Definition writeChunks (entryJsons : list jsstring)
    : option (list jsstring * JsMap.t (list jsstring)) :=
  match addEntries (mkChunkState [] 0 [] [] 2) entryJsons with
  | None => None
  | Some st =>
      match flush st with
      | None => None
      | Some st' => Some (manifest st', writtenFiles st')
      end
  end.

(** The bytes of a payload when the bytes of its parts add up. *)
Definition payloadBytes (entries : list jsstring) : Z :=
  2 + fold_right (fun e acc => byteLength e + acc) 0 entries
  + (Z.of_nat (List.length entries) - 1).

End SplitData.

(* ================================================================== *)
(** ** The first variant of the server: loading from chunk files *)

(** What [JSON.parse] makes of a file of the chunk directory: an array,
    given by the JSON texts of its elements, or another value. *)
Inductive FileData :=
| JsonArray (entries : list jsstring)
| JsonOther.

(** The chunk directory: the [chunks] array of its manifest, if there is
    a manifest with such an array, and its files by name. *)
Record ChunkDir := mkChunkDir {
  manifestChunks : option (list jsstring);
  dirFiles : JsMap.t FileData
}.

(** The comparison of [Array.prototype.sort] without a comparator, on
    strings: by code units. *)
Fixpoint compareStrings (a b : jsstring) : Z :=
  match a, b with
  | [], [] => 0
  | [], _ :: _ => -1
  | _ :: _, [] => 1
  | x :: a', y :: b' =>
      if x <? y then -1 else if y <? x then 1 else compareStrings a' b'
  end.

(** [s.endsWith(suffix)] *)
Definition endsWith (s suffix : jsstring) : bool :=
  isPrefix (rev suffix) (rev s).

Module FirstServer.

(** The record that [ingestEntry] pushes.  The second replacement looks
    for two backslashes in a string that the first has left without
    any. *)
Definition ingestEntry (rawContent rawTitle rawPath : jsstring) : SplitEntry :=
  mkSplitEntry (normalizeLineEndings rawContent) rawTitle
    (replacePair backslashChar backslashChar [slashChar]
       (collapseBackslashes rawPath false)).

(** The loop of [loadFromLegacy] over the data array, whose entries are
    taken to be strings; the result is what it appends to
    [searchData]. *)
Fixpoint loadFromLegacy (rawContents : list jsstring) : list SplitEntry :=
  match rawContents with
  | rawContent :: rawTitle :: rawPath :: rest =>
      ingestEntry rawContent rawTitle rawPath :: loadFromLegacy rest
  | _ => []
  end.

Section Loader.

(** [JSON.parse] on the text of an element of a chunk, which is taken
    to denote an object with the three fields of an entry. *)
Variable parseEntry : jsstring -> SplitEntry.

(** The [forEach] over the sorted file names, on [searchData]; the flag
    tells that reading a file threw, which ends the loop. *)
Fixpoint readChunks (files : JsMap.t FileData) (chunkFiles : list jsstring)
    (searchData : list SplitEntry) : list SplitEntry * bool :=
  match chunkFiles with
  | [] => (searchData, false)
  | file :: rest =>
      match JsMap.get files file with
      | None => (searchData, true)
      | Some JsonOther => readChunks files rest searchData
      | Some (JsonArray entries) =>
          readChunks files rest
            (searchData
             ++ map (fun entryJson =>
                       let entry := parseEntry entryJson in
                       ingestEntry (entryContent entry) (entryTitle entry)
                                   (entryPath entry))
                    entries)
      end
  end.

(** [loadFromChunks]: [searchData] when it returns, and what it returns;
    [None] stands for a directory that does not exist. *)
Definition loadFromChunks (chunkDir : option ChunkDir)
    (searchData : list SplitEntry) : list SplitEntry * bool :=
  match chunkDir with
  | None => (searchData, false)
  | Some dir =>
      let listed :=
        match manifestChunks dir with
        | Some chunks => chunks
        | None => []
        end in
      let chunkFiles :=
        if Z.of_nat (List.length listed) =? 0
        then filter (fun name => endsWith name (lit ".json"))
                    (JsMap.keys (dirFiles dir))
        else listed in
      let '(loaded, thrown) :=
        readChunks (dirFiles dir) (sortBy compareStrings chunkFiles)
                   searchData in
      if thrown then (loaded, false)
      else (loaded, Z.of_nat (List.length loaded) >? 0)
  end.

(** [loadSearchData]: the store after loading, from the chunks or else
    from the data array. *)
Definition loadSearchData (chunkDir : option ChunkDir)
    (rawContents : list jsstring) : list SplitEntry :=
  let '(loaded, loadedFromChunks) := loadFromChunks chunkDir [] in
  if loadedFromChunks then loaded else loaded ++ loadFromLegacy rawContents.

End Loader.

End FirstServer.

(* ================================================================== *)
(** ** Vocabulary of the specification *)

(** The best occurrence count of a group in a text: the maximum, over the
    alternatives of the group, of the occurrence count. *)
Definition bestCount (text : jsstring) (group : list jsstring) : Z :=
  fold_right Z.max 0 (map (countOccurrences text) group).

(** A group is satisfied by a document when its best title count is
    positive or, unless only titles are searched, its best content count
    is. *)
Definition groupSatisfied (isTitleOnly : bool) (D : Doc)
    (group : list jsstring) : Prop :=
  if isTitleOnly then 0 < bestCount (titleLower D) group
  else 0 < bestCount (titleLower D) group
       \/ 0 < bestCount (contentLower D) group.

(** The document with identifier [i] appears in a result list. *)
Definition appearsIn (i : Z) (l : list Result) : Prop :=
  exists r, In r l /\ index r = i.

(** The order of a result list: higher rank first, and among equal ranks
    the lower document identifier first. *)
Definition precedes (a b : Result) : Prop :=
  rank b < rank a \/ (rank a = rank b /\ index a < index b).

(** A group that the candidate selection may use: exactly one of its
    alternatives has the minimum token length and passes the ASCII token
    regex.  [eligibleToken] returns that alternative. *)
Definition eligibleToken (group : list jsstring) : option jsstring :=
  match asciiCandidatesOf group with
  | [keyword] => Some keyword
  | _ => None
  end.

(** The bucket of a token is absent from the index, or empty. *)
Definition noBucket (index : JsMap.t JsSet.t) (token : jsstring) : Prop :=
  JsMap.get index token = None \/ JsMap.get index token = Some [].

(** What the cache maintains: distinct, non-empty keys, and no more than
    [CACHE_MAX_ENTRIES] entries. *)
Definition cacheOK (queryCache : Cache) : Prop :=
  NoDup (JsMap.keys queryCache)
  /\ Forall (fun k => k <> []) (JsMap.keys queryCache)
  /\ JsMap.size queryCache <= CACHE_MAX_ENTRIES.

(** What a request that consults the cache under [cacheKey] does to it:
    a lookup, and on a miss the store of the list [res] it computed. *)
Definition touch (queryCache : Cache) (cacheKey : jsstring) (now : Z)
    (res : list Result) : Cache :=
  match getCachedResults queryCache cacheKey now with
  | (Some _, cache') => cache'
  | (None, cache') => setCachedResults cache' cacheKey res now
  end.

(** The map lists its entries from the least to the most recently
    used. *)
Definition recencyOrdered (lastUse : jsstring -> Z) (queryCache : Cache) : Prop :=
  StronglySorted (fun a b => lastUse a < lastUse b) (JsMap.keys queryCache).

(** Every cached list is in the order [precedes]. *)
Definition cacheSorted (queryCache : Cache) : Prop :=
  Forall (fun kv => StronglySorted precedes (results (snd kv))) queryCache.

(** Every bucket of the index is duplicate-free, as a [Set] is. *)
Definition indexOK (index : JsMap.t JsSet.t) : Prop :=
  forall token bucket, JsMap.get index token = Some bucket -> NoDup bucket.

(** An entry of [baseIndexes] names a valid document: [parseInt] reads an
    integer from it that lies within the store. *)
Definition namesValidDoc (srv : Server) (entry : jsstring) (i : Z) : Prop :=
  parseInt entry = Some i
  /\ 0 <= i < Z.of_nat (List.length (searchData srv)).

(** The tokens under which a document is indexed. *)
Definition tokensOfDoc (d : Doc) : list jsstring :=
  extractTokens (titleLower d ++ spaceStr ++ contentLower d).

(** The bucket of [token] exists and holds [i]. *)
Definition inBucket (index : JsMap.t JsSet.t) (token : jsstring) (i : Z) : Prop :=
  exists bucket, JsMap.get index token = Some bucket /\ In i bucket.

(** [keyword] occurs in [text] as a substring. *)
Definition occursIn (keyword text : jsstring) : Prop :=
  exists pre post, text = pre ++ keyword ++ post.

(** What loading guarantees of a record. *)
Definition recordNormalized (toLowerCase : jsstring -> jsstring) (d : Doc) : Prop :=
  titleLower d = toLowerCase (title d)
  /\ contentLower d = toLowerCase (content d)
  /\ ~ In crChar (content d) /\ ~ In crChar (title d)
  /\ trim (title d) = title d
  /\ ~ In backslashChar (path d)
  /\ category d = extractCategory (path d).

(** The bucket that the candidate selection uses for a group, if it
    uses one: the group has exactly one ASCII candidate and the bucket of
    that candidate exists and is not empty. *)
Definition usedBucket (index : JsMap.t JsSet.t) (group : list jsstring)
    : option JsSet.t :=
  match asciiCandidatesOf group with
  | [keyword] =>
      match JsMap.get index keyword with
      | Some bucket => if JsSet.size bucket =? 0 then None else Some bucket
      | None => None
      end
  | _ => None
  end.

Definition usedBuckets (index : JsMap.t JsSet.t)
    (groups : list (list jsstring)) : list JsSet.t :=
  flat_map (fun group => match usedBucket index group with
                         | Some bucket => [bucket]
                         | None => []
                         end) groups.

(** The identifier lies within the restriction, if there is one. *)
Definition withinBase (base : option JsSet.t) (i : Z) : Prop :=
  forall ids, base = Some ids -> In i ids.

(** A well-formed parsed query: no empty group, and every alternative is
    non-empty, trimmed and free of the bar character. *)
Definition wellFormedQuery (groups : list (list jsstring)) : Prop :=
  Forall (fun group =>
            group <> []
            /\ Forall (fun alt => alt <> [] /\ ~ In barChar alt
                                  /\ trim alt = alt) group)
         groups.

(** What the parsing loop guarantees of every group it has pushed. *)
Definition parsedFrom (rawKeyword : jsstring) (groups : list (list jsstring))
    : Prop :=
  wellFormedQuery groups
  /\ Forall (Forall (fun alt => occursIn alt rawKeyword)) groups.

(** Every cached list has the property [P]. *)
Definition cacheAll (P : list Result -> Prop) (queryCache : Cache) : Prop :=
  Forall (fun kv => P (results (snd kv))) queryCache.

(** A result list names no document twice, and every result carries the
    document stored under its identifier. *)
Definition resultsOK (srv : Server) (l : list Result) : Prop :=
  NoDup (map index l)
  /\ Forall (fun r => docAt srv (index r) = Some (item r)) l.

(** The list that the handler computes for a request when the cache
    holds no entry for it. *)
Definition freshResults (toLowerCase : jsstring -> jsstring)
    (powRound : Z -> Z -> Z -> Z) (srv : Server) (req : Request)
    : list Result :=
  match qKeyword req with
  | Some keyword =>
      computeResults powRound srv
        (map (map toLowerCase) (parseSearchKeywords keyword))
        (isTitleOnlyOf (qTitleOnly req))
        (parseBaseIndexes srv (qBaseIndexes req))
        (categoryFilterOf toLowerCase (qCategory req))
  | None => []
  end.

(** The body that the content endpoint answers with for a document. *)
Definition bodyOf (d : Doc) : ContentBody :=
  mkContentBody (content d) (title d) (path d).

(** The identifiers that the ranking loop visits on a cache miss: the
    candidate set, else the restriction, else the whole store, narrowed
    by the category filter. *)
Definition searchSpaceOf (srv : Server) (groups : list (list jsstring))
    (base : option JsSet.t) (categoryFilter : jsstring) : list Z :=
  let searchSpace :=
    match collectCandidateIndexes (tokenIndex srv) groups base with
    | Some cand => cand
    | None =>
        match base with
        | Some ids => ids
        | None => map Z.of_nat (seq 0 (List.length (searchData srv)))
        end
    end in
  if isEmpty categoryFilter then searchSpace
  else filter (fun idx =>
                 match docAt srv idx with
                 | Some doc => streq (category doc) categoryFilter
                 | None => false
                 end)
              searchSpace.

(** A chunk file that may be written: at least one entry, and a payload
    within the limit. *)
Definition goodChunk (byteLength : jsstring -> Z) (chunk : list jsstring) : Prop :=
  chunk <> [] /\ byteLength (payloadOf chunk) <= MAX_CHUNK_BYTES.

(** The accounting of the chunk writer is right for its pending
    entries: [currentSize] is their payload size, or one more (the
    separator counted before a flush), and that payload fits. *)
Definition fits (byteLength : jsstring -> Z) (st : ChunkState) : Prop :=
  match currentEntries st with
  | [] => currentSize st = 2
  | _ :: _ =>
      payloadBytes byteLength (currentEntries st) <= currentSize st
      /\ currentSize st <= payloadBytes byteLength (currentEntries st) + 1
      /\ payloadBytes byteLength (currentEntries st) <= MAX_CHUNK_BYTES
  end.

(** A pending entry is too large for any payload. *)
Definition oversized (byteLength : jsstring -> Z) (st : ChunkState) : Prop :=
  exists e, In e (currentEntries st) /\ MAX_CHUNK_BYTES - 2 < byteLength e.

(** The names of the first [n] chunk files. *)
Definition chunkNames (n : nat) : list jsstring :=
  map (fun i => chunkFileName (Z.of_nat i)) (seq 0 n).

(** The state of the chunk writer has written [chunks], one file each,
    named in the order of writing. *)
Definition holdsChunks (st : ChunkState) (chunks : list (list jsstring))
    : Prop :=
  manifest st = chunkNames (List.length chunks)
  /\ chunkIndex st = Z.of_nat (List.length chunks)
  /\ writtenFiles st = combine (chunkNames (List.length chunks)) chunks.


(** The paths of the data array: every third entry, for the complete
    triples. *)
Fixpoint rawPathsOf (rawContents : list jsstring) : list jsstring :=
  match rawContents with
  | _ :: _ :: rawPath :: rest => rawPath :: rawPathsOf rest
  | _ => []
  end.


(** The product, over the groups, of the best count plus one. *)
Definition rankProduct (text : jsstring) (groups : list (list jsstring)) : Z :=
  fold_right Z.mul 1 (map (fun group => bestCount text group + 1) groups).

(* ================================================================== *)
(** ** Concrete data for the examples *)

(** The examples instantiate the two functions of the runtime.  On
    strings of ASCII characters [toLowerCase] maps the capital letters to
    the small ones and leaves the rest. *)
Definition asciiLower (s : jsstring) : jsstring :=
  map (fun c => if (65 <=? c) && (c <=? 90) then c + 32 else c) s.

(** Rounding to the nearest integer of [k] times the [g]-th root of [x],
    the value that the floating-point computation approximates, computed
    exactly: the largest [n] with [(2n - 1)^g <= (2k)^g * x]. *)
Definition exactPowRound (x g k : Z) : Z :=
  fold_left
    (fun best n => if (2 * n - 1) ^ g <=? (2 * k) ^ g * x then n else best)
    (map Z.of_nat (seq 0 (Z.to_nat (k * x) + 1))) 0.

(** A document with the given title and content, lower-cased as the
    loader does. *)
Definition docOf (t c : string) : Doc :=
  mkDoc (lit c) (lit t) (lit "topics/basics/page.html")
        (asciiLower (lit t)) (asciiLower (lit c)) (lit "basics").

Definition requestOf (keyword : string) : Request :=
  mkRequest (Some (lit keyword)) None None None None None.

(** The request for a phrase in double quotes. *)
Definition phraseRequestOf (phrase : string) : Request :=
  mkRequest (Some ([quoteChar] ++ lit phrase ++ [quoteChar]))
            None None None None None.

(** A request restricted to the documents that [baseIndexes] names. *)
Definition restrictedRequestOf (keyword baseIndexes : string)
    (category : param) : Request :=
  mkRequest (Some (lit keyword)) None None None (Some (lit baseIndexes))
            category.

(** A document of the category [cat]. *)
Definition docIn (cat t c : string) : Doc :=
  mkDoc (lit c) (lit t) (lit "topics/" ++ lit cat ++ lit "/page.html")
        (asciiLower (lit t)) (asciiLower (lit c)) (lit cat).

(** Three documents in two categories. *)
Definition shelfServer : Server :=
  loadRecords [docIn "spells" "Fire Bolt" "a bolt of fire";
               docIn "items" "Fire Sword" "a sword of fire";
               docIn "spells" "Ice Bolt" "a bolt of ice"].




(** One document; the token [foo] is not in its index, [foobar] is. *)
Definition foobarServer : Server := loadRecords [docOf "foobar" ""].

(** Two documents: the first holds the word [foo], the second only
    contains it inside [foobar]. *)
Definition fooServer : Server :=
  loadRecords [docOf "foo" ""; docOf "foobar" ""].

(** Two documents for the group [foo|b]: the second matches the short
    alternative [b] only. *)
Definition mixedServer : Server :=
  loadRecords [docOf "foo" ""; docOf "b" ""].

Definition guideServer : Server :=
  loadRecords [docOf "Intro Guide" "guide guide tutorial"].

(* ================================================================== *)
(** ** Basic facts about strings, maps and sets *)

Lemma streq_refl (a : jsstring) : streq a a = true.
Proof.
  induction a as [|x a IH]; simpl; [reflexivity|].
  now rewrite Z.eqb_refl, IH.
Qed.

Lemma streq_eq (a b : jsstring) : streq a b = true <-> a = b.
Proof.
  split; [|intros ->; apply streq_refl].
  revert b; induction a as [|x a IH]; intros [|y b]; simpl; try discriminate; auto.
  rewrite andb_true_iff, Z.eqb_eq. intros [-> H]. f_equal. now apply IH.
Qed.

Lemma streq_neq (a b : jsstring) : streq a b = false <-> a <> b.
Proof.
  rewrite <- streq_eq. destruct (streq a b); split; congruence.
Qed.

Lemma isEmpty_true (s : jsstring) : isEmpty s = true <-> s = [].
Proof. destruct s; simpl; split; congruence. Qed.

Lemma isEmpty_false (s : jsstring) : isEmpty s = false <-> s <> [].
Proof. destruct s; simpl; split; congruence. Qed.

(* ================================================================== *)
(** ** Page size and pagination *)

Lemma sizeOf_range (p : param) : 1 <= sizeOf p <= 100.
Proof. unfold sizeOf, MAX_PAGE_SIZE. lia. Qed.

Lemma pageNumOf_pos (p : param) : 1 <= pageNumOf p.
Proof. unfold pageNumOf. lia. Qed.

(** Rounding the exact quotient up, in integer arithmetic. *)
Lemma Qceiling_div (a b : Z) :
  0 < b -> Qceiling (Qdiv (inject_Z a) (inject_Z b)) = - ((- a) / b).
Proof.
  intros Hb. destruct b as [|p|p]; try lia.
  unfold Qceiling, Qfloor, Qdiv, Qmult, Qinv, Qopp, inject_Z. simpl.
  now rewrite Z.mul_1_r.
Qed.

Lemma ceiling_bounds (a b : Z) :
  0 < b -> (- ((- a) / b) - 1) * b < a <= - ((- a) / b) * b.
Proof.
  intros Hb.
  pose proof (Z.div_mod (- a) b ltac:(lia)) as E.
  pose proof (Z.mod_pos_bound (- a) b Hb) as B.
  nia.
Qed.

Lemma slice_window {A} (arr : list A) (start size : Z) :
  0 <= start -> 0 <= size ->
  slice arr start (start + size)
  = firstn (Z.to_nat size) (skipn (Z.to_nat start) arr).
Proof.
  intros Hs Hz. unfold slice.
  set (n := Z.of_nat (List.length arr)).
  assert (Hn : 0 <= n) by (unfold n; lia).
  destruct (Z.ltb_spec start 0) as [?|_]; [lia|].
  destruct (Z.ltb_spec (start + size) 0) as [?|_]; [lia|].
  destruct (Z_lt_le_dec start n) as [Hlt|Hge].
  - rewrite (Z.min_l start n) by lia.
    destruct (Z_le_gt_dec (start + size) n) as [Hfit|Hover].
    + rewrite Z.min_l by lia. f_equal. lia.
    + rewrite Z.min_r by lia.
      rewrite Z.max_l by lia.
      rewrite !firstn_all2; try reflexivity; rewrite length_skipn; unfold n in *; lia.
  - rewrite (Z.min_r start n) by lia.
    rewrite (skipn_all2 arr (n := Z.to_nat n)) by (unfold n; lia).
    rewrite (skipn_all2 arr (n := Z.to_nat start)) by (unfold n in *; lia).
    now rewrite !firstn_nil.
Qed.

(* ================================================================== *)
(** ** The parsing loop ends *)

Lemma takeWhile_dropWhile_length (p : jschar -> bool) (s : jsstring) :
  (List.length (takeWhile p s) + List.length (dropWhile p s))%nat
  = List.length s.
Proof.
  induction s as [|c s IH]; simpl; [reflexivity|].
  destruct (p c); simpl; lia.
Qed.

Lemma matchHere_progress (s tok : jsstring) (n : nat) :
  matchHere s = Some (tok, n) -> (1 <= n <= List.length s)%nat.
Proof.
  unfold matchHere. destruct s as [|c rest]; [discriminate|].
  set (notQuote := fun x => negb (x =? quoteChar)).
  pose proof (takeWhile_dropWhile_length notQuote rest) as L.
  destruct ((c =? quoteChar) && negb (isEmpty (takeWhile notQuote rest))
            && negb (isEmpty (dropWhile notQuote rest))) eqn:E.
  - intros [= <- <-].
    apply andb_true_iff in E. destruct E as [_ E].
    destruct (dropWhile notQuote rest); [discriminate|].
    simpl in *. lia.
  - destruct (isWhiteSpace c) eqn:W; [discriminate|].
    intros [= <- <-]. cbn [takeWhile]. rewrite W. cbn [negb].
    pose proof (takeWhile_dropWhile_length
                  (fun x => negb (isWhiteSpace x)) rest).
    simpl. lia.
Qed.

Lemma execFrom_progress (s tok : jsstring) (pos n : nat) :
  execFrom s pos = Some (tok, n) -> (pos < n <= pos + List.length s)%nat.
Proof.
  revert pos; induction s as [|c s IH]; intros pos; cbn [execFrom].
  - simpl. discriminate.
  - destruct (matchHere (c :: s)) as [[tok' k]|] eqn:M.
    + intros [= <- <-]. apply matchHere_progress in M.
      cbn [List.length] in *. lia.
    + intros H. apply IH in H. cbn [List.length]. lia.
Qed.

Lemma parseLoop_total (fuel : nat) (rawKeyword : jsstring) (lastIndex : nat)
    (groups : list (list jsstring)) :
  (lastIndex <= List.length rawKeyword)%nat ->
  (List.length rawKeyword - lastIndex < fuel)%nat ->
  exists parsed, parseLoop fuel rawKeyword lastIndex groups = Some parsed.
Proof.
  revert lastIndex groups; induction fuel as [|fuel IH];
    intros lastIndex groups Hle Hf; [lia|].
  simpl.
  destruct (execFrom (skipn lastIndex rawKeyword) lastIndex)
    as [[m lastIndex']|] eqn:X; [|eauto].
  apply execFrom_progress in X. rewrite length_skipn in X.
  destruct (isEmpty (trim m)); [apply IH; lia|].
  destruct (0 <? Z.of_nat (List.length (orPartsOf (trim m)))); apply IH; lia.
Qed.

(** [parseSearchKeywords] returns what its loop computes: the fuel it
    passes is enough. *)
Lemma parseSearchKeywords_total (rawKeyword : jsstring) :
  rawKeyword <> [] ->
  exists parsed,
    parseLoop (S (List.length rawKeyword)) rawKeyword 0 [] = Some parsed
    /\ parseSearchKeywords rawKeyword = parsed.
Proof.
  intros H.
  destruct (parseLoop_total (S (List.length rawKeyword)) rawKeyword 0 [])
    as [parsed P]; [lia | lia |].
  exists parsed. split; [exact P|].
  unfold parseSearchKeywords. apply isEmpty_false in H. now rewrite H, P.
Qed.

(* ================================================================== *)
(** ** Properties of the query parser and of the page size *)

(** C8.  The keyword made of the quoted phrase hello world, a space and
    foo|bar parses to two groups in order: the group with the single
    alternative hello world, then the group with the alternatives foo and
    bar.  (Code unit 34 is the double quote.) *)
Theorem C8_parse_quoted_phrase_and_or_group :
  parseSearchKeywords ([34] ++ lit "hello world" ++ [34] ++ lit " foo|bar")
  = [[lit "hello world"]; [lit "foo"; lit "bar"]].
Proof. vm_compute. reflexivity. Qed.

(** C4, as stated, fails: a requested page size of 0 does not yield 1 but
    the default 20, because 0 is falsy in [parseInt(pageSize, 10) || 20]. *)
Lemma C4_page_size_zero_counterexample :
  parseInt (lit "0") = Some 0 /\ sizeOf (Some (lit "0")) = 20
  /\ sizeOf (Some (lit "0")) <> 1.
Proof. vm_compute. repeat split; congruence. Qed.

(** C4, amended.  The effective page size always lies in [1, 100].  When
    the parameter reads as the integer [n]: a negative [n] yields 1, an
    [n] above 100 yields 100, an [n] from 1 to 100 is kept, and 0 yields
    the default 20, as an absent or non-numeric parameter does. *)
Theorem C4_effective_page_size (s : jsstring) (n : Z) :
  parseInt s = Some n ->
  1 <= sizeOf (Some s) <= 100
  /\ (n < 0 -> sizeOf (Some s) = 1)
  /\ (n = 0 -> sizeOf (Some s) = 20)
  /\ (1 <= n <= 100 -> sizeOf (Some s) = n)
  /\ (100 < n -> sizeOf (Some s) = 100)
  /\ sizeOf None = 20
  /\ (forall s', parseInt s' = None -> sizeOf (Some s') = 20).
Proof.
  intros H. split; [apply sizeOf_range|].
  unfold sizeOf, parseIntOr, MAX_PAGE_SIZE. rewrite H.
  repeat split.
  - intros Hn. destruct (Z.eqb_spec n 0); lia.
  - intros ->. reflexivity.
  - intros Hn. destruct (Z.eqb_spec n 0); lia.
  - intros Hn. destruct (Z.eqb_spec n 0); lia.
  - intros s' ->. reflexivity.
Qed.

Lemma C4_effective_page_size_witness :
  sizeOf (Some (lit "250")) = 100.
Proof.
  apply (C4_effective_page_size (lit "250") 250); [reflexivity | lia].
Defined.

(** C6.  For a page number of at least 1 and a page size in [1, 100],
    [paginateResults] reports the length of the full list as [total] and
    the least integer not below [total / pageSize] as [totalPages]; the
    page is the window of [pageSize] results after the first
    [(page - 1) * pageSize]; a page past the end gets an empty slice, and
    [total] and [totalPages] are those of any other page. *)
Theorem C6_pagination (sortedResults : list Result) (pageNum size : Z) :
  1 <= pageNum -> 1 <= size <= MAX_PAGE_SIZE ->
  let r := paginateResults sortedResults pageNum size in
  total r = Z.of_nat (List.length sortedResults)
  /\ (totalPages r - 1) * size < total r <= totalPages r * size
  /\ resResults r
     = firstn (Z.to_nat size)
         (skipn (Z.to_nat ((pageNum - 1) * size)) sortedResults)
  /\ (totalPages r < pageNum -> resResults r = [])
  /\ (forall pageNum',
        total (paginateResults sortedResults pageNum' size) = total r
        /\ totalPages (paginateResults sortedResults pageNum' size)
           = totalPages r).
Proof.
  intros Hp Hs. unfold MAX_PAGE_SIZE in Hs. cbn zeta.
  unfold paginateResults; cbn [total totalPages resResults].
  rewrite Qceiling_div by lia.
  pose proof (ceiling_bounds (Z.of_nat (List.length sortedResults)) size ltac:(lia)) as B.
  rewrite slice_window by nia.
  repeat split; try lia.
  intros Hpast.
  rewrite skipn_all2; [apply firstn_nil | nia].
Qed.

Lemma C6_pagination_witness :
  resResults (paginateResults
                [mkResult 0 43 (docOf "a" ""); mkResult 1 41 (docOf "b" "");
                 mkResult 2 20 (docOf "c" "")] 2 1)
  = [mkResult 1 41 (docOf "b" "")].
Proof.
  destruct (C6_pagination
              [mkResult 0 43 (docOf "a" ""); mkResult 1 41 (docOf "b" "");
               mkResult 2 20 (docOf "c" "")] 2 1)
    as (_ & _ & H & _); [lia | unfold MAX_PAGE_SIZE; lia |].
  rewrite H. reflexivity.
Defined.

(* ================================================================== *)
(** ** The result cache *)

Lemma get_set_same {V} (m : JsMap.t V) k v :
  JsMap.get (JsMap.set m k v) k = Some v.
Proof.
  induction m as [|[k' v'] m IH]; simpl.
  - now rewrite streq_refl.
  - destruct (streq k' k) eqn:E; simpl; rewrite E; auto.
Qed.

Lemma get_in_keys {V} (m : JsMap.t V) k v :
  JsMap.get m k = Some v -> In k (JsMap.keys m).
Proof.
  induction m as [|[k' v'] m IH]; simpl; [discriminate|].
  destruct (streq k' k) eqn:E; [apply streq_eq in E; auto | auto].
Qed.

Lemma in_keys_get {V} (m : JsMap.t V) k :
  In k (JsMap.keys m) -> exists v, JsMap.get m k = Some v.
Proof.
  induction m as [|[k' v'] m IH]; simpl; [tauto|].
  destruct (streq k' k) eqn:E; [eauto|].
  apply streq_neq in E. intros [C|C]; [congruence | auto].
Qed.

Lemma set_present {V} (m : JsMap.t V) k v :
  In k (JsMap.keys m) ->
  JsMap.keys (JsMap.set m k v) = JsMap.keys m
  /\ List.length (JsMap.set m k v) = List.length m.
Proof.
  induction m as [|[k' v'] m IH]; simpl; [tauto|].
  intros H. destruct (streq k' k) eqn:E; simpl; [auto|].
  apply streq_neq in E.
  destruct H as [H|H]; [congruence|].
  destruct (IH H) as [-> ->]. auto.
Qed.

Lemma set_absent {V} (m : JsMap.t V) k v :
  ~ In k (JsMap.keys m) -> JsMap.set m k v = m ++ [(k, v)].
Proof.
  induction m as [|[k' v'] m IH]; simpl; [reflexivity|].
  intros H. destruct (streq k' k) eqn:E.
  - apply streq_eq in E. tauto.
  - rewrite IH; tauto.
Qed.

Lemma get_app_absent {V} (m : JsMap.t V) k v :
  ~ In k (JsMap.keys m) -> JsMap.get (m ++ [(k, v)]) k = Some v.
Proof.
  intros H. rewrite <- (set_absent m k v H). apply get_set_same.
Qed.

Lemma delete_keys_incl {V} (m : JsMap.t V) k x :
  In x (JsMap.keys (JsMap.delete m k)) -> In x (JsMap.keys m).
Proof.
  induction m as [|[k' v'] m IH]; simpl; [tauto|].
  destruct (streq k' k); simpl; tauto.
Qed.

Lemma delete_NoDup {V} (m : JsMap.t V) k :
  NoDup (JsMap.keys m) ->
  NoDup (JsMap.keys (JsMap.delete m k))
  /\ ~ In k (JsMap.keys (JsMap.delete m k)).
Proof.
  induction m as [|[k' v'] m IH]; simpl; intros H.
  - split; [constructor | tauto].
  - inversion H as [|? ? Hnot Hnd]; subst.
    destruct (streq k' k) eqn:E.
    + apply streq_eq in E; subst. auto.
    + apply streq_neq in E. destruct (IH Hnd) as [IH1 IH2]. simpl. split.
      * constructor; [|exact IH1]. intros C. apply Hnot.
        eapply delete_keys_incl; eauto.
      * intros [C|C]; [congruence | tauto].
Qed.

Lemma delete_length {V} (m : JsMap.t V) k :
  (List.length (JsMap.delete m k) <= List.length m)%nat
  /\ (In k (JsMap.keys m) ->
      S (List.length (JsMap.delete m k)) = List.length m).
Proof.
  induction m as [|[k' v'] m IH]; simpl; [split; [lia | tauto]|].
  destruct (streq k' k) eqn:E; simpl.
  - split; [lia | reflexivity].
  - apply streq_neq in E. destruct IH as [IH1 IH2]. split; [lia|].
    intros [C|C]; [congruence | now rewrite IH2].
Qed.

Lemma delete_keeps_nonempty {V} (m : JsMap.t V) k :
  Forall (fun x => x <> []) (JsMap.keys m) ->
  Forall (fun x => x <> []) (JsMap.keys (JsMap.delete m k)).
Proof.
  rewrite !Forall_forall. intros H x Hx. apply H.
  eapply delete_keys_incl; eauto.
Qed.

(** A live hit moves the entry to the end of the map. *)
Lemma refresh_moves_to_end (queryCache : Cache) cacheKey entry :
  NoDup (JsMap.keys queryCache) ->
  JsMap.set (JsMap.delete queryCache cacheKey) cacheKey entry
  = JsMap.delete queryCache cacheKey ++ [(cacheKey, entry)].
Proof.
  intros H. apply set_absent. now apply delete_NoDup.
Qed.

Lemma keys_snoc {V} (m : JsMap.t V) k v :
  JsMap.keys (m ++ [(k, v)]) = JsMap.keys m ++ [k].
Proof. unfold JsMap.keys. now rewrite map_app. Qed.

Lemma NoDup_snoc (l : list jsstring) k :
  NoDup l -> ~ In k l -> NoDup (l ++ [k]).
Proof.
  intros H1 H2.
  apply Permutation_NoDup with (l := k :: l).
  - apply Permutation_cons_append.
  - now constructor.
Qed.

Lemma size_snoc {V} (m : JsMap.t V) kv :
  JsMap.size (m ++ [kv]) = JsMap.size m + 1.
Proof. unfold JsMap.size. rewrite length_app. simpl. lia. Qed.

Lemma getCachedResults_ok (queryCache : Cache) cacheKey now :
  cacheOK queryCache -> cacheOK (snd (getCachedResults queryCache cacheKey now)).
Proof.
  intros (Hnd & Hne & Hsz). unfold getCachedResults.
  destruct (JsMap.get queryCache cacheKey) as [entry|] eqn:G; simpl;
    [|repeat split; assumption].
  pose proof (get_in_keys _ _ _ G) as Hin.
  destruct (delete_NoDup queryCache cacheKey Hnd) as [D1 D2].
  destruct (delete_length queryCache cacheKey) as [L1 L2].
  pose proof (delete_keeps_nonempty queryCache cacheKey Hne) as D3.
  destruct (now - timestamp entry >? CACHE_TTL); simpl; unfold cacheOK.
  - repeat split; auto. unfold JsMap.size in *. lia.
  - rewrite refresh_moves_to_end by assumption.
    rewrite keys_snoc, size_snoc.
    repeat split.
    + now apply NoDup_snoc.
    + apply Forall_app. split; [assumption|]. constructor; [|constructor].
      rewrite Forall_forall in Hne. apply Hne. exact Hin.
    + specialize (L2 Hin). unfold JsMap.size in *. lia.
Qed.

(** What [setCachedResults] does to a cache that satisfies [cacheOK]. *)
Lemma setCachedResults_spec (queryCache : Cache) cacheKey res now :
  cacheOK queryCache -> cacheKey <> [] ->
  let stored := JsMap.set queryCache cacheKey (mkEntry res now) in
  let after := setCachedResults queryCache cacheKey res now in
  JsMap.get after cacheKey = Some (mkEntry res now)
  /\ (JsMap.size stored <= CACHE_MAX_ENTRIES -> after = stored)
  /\ (CACHE_MAX_ENTRIES < JsMap.size stored ->
      exists oldest, stored = oldest :: after)
  /\ cacheOK after.
Proof.
  intros (Hnd & Hne & Hsz) Hkey. unfold setCachedResults, cacheOK. cbv zeta.
  destruct (in_dec (list_eq_dec Z.eq_dec) cacheKey (JsMap.keys queryCache))
    as [Hin|Hout].
  - destruct (set_present queryCache cacheKey (mkEntry res now) Hin) as [Ek El].
    assert (Hs : JsMap.size (JsMap.set queryCache cacheKey (mkEntry res now))
                 <= CACHE_MAX_ENTRIES)
      by (unfold JsMap.size in *; rewrite El; exact Hsz).
    match goal with
    | |- context [?a >? ?b] => destruct (Z.gtb_spec a b) as [?|_]; [lia|]
    end.
    rewrite Ek. repeat split; try assumption.
    + apply get_set_same.
    + intros ?. lia.
  - rewrite (set_absent queryCache cacheKey (mkEntry res now) Hout).
    match goal with
    | |- context [?a >? ?b] => destruct (Z.gtb_spec a b) as [Hbig|Hsmall]
    end.
    + destruct queryCache as [|[k0 v0] rest].
      * unfold JsMap.size, CACHE_MAX_ENTRIES in Hbig. simpl in Hbig. lia.
      * rewrite size_snoc in Hbig.
        simpl in Hnd, Hne, Hout. cbn [app JsMap.keys map fst hd].
        inversion Hnd as [|? ? Hk0 Hrest]; subst.
        inversion Hne as [|? ? Hk0ne Hrestne]; subst.
        apply isEmpty_false in Hk0ne. rewrite Hk0ne.
        cbn [JsMap.delete]. rewrite streq_refl.
        rewrite !map_app. cbn [map fst]. fold (JsMap.keys rest).
        unfold JsMap.size in *. cbn [List.length] in *.
        rewrite length_app in *. cbn [List.length] in *.
        repeat split.
        -- apply get_app_absent. tauto.
        -- intros ?. lia.
        -- intros _. eexists. reflexivity.
        -- apply NoDup_snoc; [assumption | tauto].
        -- apply Forall_app. split; auto.
        -- lia.
    + rewrite keys_snoc. repeat split.
      * apply get_app_absent. exact Hout.
      * intros ?. lia.
      * now apply NoDup_snoc.
      * apply Forall_app. split; auto.
      * exact Hsmall.
Qed.

Lemma buildCacheKey_nonempty parts isTitleOnly base cat :
  buildCacheKey parts isTitleOnly base cat <> [].
Proof. unfold buildCacheKey. destruct isTitleOnly; discriminate. Qed.

(* ================================================================== *)
(** ** Sorting *)

Section Sorting.

Context {A : Type} (cmp : A -> A -> Z).

Let nonPositive (a b : A) : Prop := cmp a b <= 0.

Hypothesis cmp_total : forall a b, 0 < cmp a b -> cmp b a <= 0.
Hypothesis cmp_trans : forall a b c, cmp a b <= 0 -> cmp b c <= 0 -> cmp a c <= 0.

Lemma insertBy_perm (x : A) (l : list A) : Permutation (insertBy cmp x l) (x :: l).
Proof.
  induction l as [|y l IH]; simpl; [reflexivity|].
  destruct (cmp x y <=? 0); [reflexivity|].
  rewrite IH. apply perm_swap.
Qed.

Lemma sortBy_perm (l : list A) : Permutation (sortBy cmp l) l.
Proof.
  induction l as [|x l IH]; simpl; [reflexivity|].
  rewrite insertBy_perm. now constructor.
Qed.

Lemma insertBy_sorted (x : A) (l : list A) :
  StronglySorted nonPositive l -> StronglySorted nonPositive (insertBy cmp x l).
Proof.
  induction l as [|y l IH]; simpl; intros H.
  - constructor; constructor.
  - inversion H as [|? ? Hl Hy]; subst.
    destruct (Z.leb_spec (cmp x y) 0) as [Hle|Hgt].
    + constructor; [exact H|]. constructor; [exact Hle|].
      rewrite Forall_forall in *. intros z Hz.
      unfold nonPositive. eapply cmp_trans; [exact Hle | now apply Hy].
    + constructor; [now apply IH|].
      apply (Permutation_Forall (Permutation_sym (insertBy_perm x l))).
      constructor; [now apply cmp_total | exact Hy].
Qed.

Lemma sortBy_sorted (l : list A) : StronglySorted nonPositive (sortBy cmp l).
Proof.
  induction l as [|x l IH]; simpl; [constructor | now apply insertBy_sorted].
Qed.

End Sorting.

Lemma StronglySorted_skipn {A} (R : A -> A -> Prop) (n : nat) (l : list A) :
  StronglySorted R l -> StronglySorted R (skipn n l).
Proof.
  revert l; induction n as [|n IH]; intros l H; [exact H|].
  destruct l as [|x l]; [constructor|]. simpl.
  inversion H; subst. now apply IH.
Qed.

Lemma StronglySorted_firstn {A} (R : A -> A -> Prop) (n : nat) (l : list A) :
  StronglySorted R l -> StronglySorted R (firstn n l).
Proof.
  revert l; induction n as [|n IH]; intros l H; [constructor|].
  destruct l as [|x l]; [constructor|]. simpl.
  inversion H as [|? ? Hl Hx]; subst. constructor; [now apply IH|].
  rewrite Forall_forall in *. intros y Hy. apply Hx.
  rewrite <- (firstn_skipn n l). apply in_or_app. now left.
Qed.

Lemma slice_sorted {A} (R : A -> A -> Prop) (l : list A) (a b : Z) :
  StronglySorted R l -> StronglySorted R (slice l a b).
Proof.
  intros H. unfold slice. now apply StronglySorted_firstn, StronglySorted_skipn.
Qed.

Lemma StronglySorted_nth {A} (R : A -> A -> Prop) (l : list A) :
  StronglySorted R l ->
  forall i j a b, (i < j)%nat ->
    nth_error l i = Some a -> nth_error l j = Some b -> R a b.
Proof.
  induction 1 as [|x l Hl IH Hx]; intros i j a b Hij Ha Hb.
  - destruct i; discriminate.
  - destruct j as [|j]; [lia|]. simpl in Hb.
    destruct i as [|i]; simpl in Ha.
    + injection Ha as <-. rewrite Forall_forall in Hx. apply Hx.
      eapply nth_error_In; eauto.
    + apply (IH i j); auto. lia.
Qed.

Lemma compareResults_total (a b : Result) :
  0 < compareResults a b -> compareResults b a <= 0.
Proof.
  unfold compareResults.
  destruct (Z.eqb_spec (rank b) (rank a)), (Z.eqb_spec (rank a) (rank b));
    simpl; lia.
Qed.

Lemma compareResults_trans (a b c : Result) :
  compareResults a b <= 0 -> compareResults b c <= 0 -> compareResults a c <= 0.
Proof.
  unfold compareResults.
  destruct (Z.eqb_spec (rank b) (rank a)), (Z.eqb_spec (rank c) (rank b)),
    (Z.eqb_spec (rank c) (rank a)); simpl; lia.
Qed.

Lemma compareResults_precedes (a b : Result) :
  compareResults a b <= 0 -> index a <> index b -> precedes a b.
Proof.
  unfold compareResults, precedes.
  destruct (Z.eqb_spec (rank b) (rank a)); simpl; lia.
Qed.

(** A list sorted by the comparator whose identifiers are pairwise
    distinct is in the order [precedes]. *)
Lemma sorted_distinct_precedes (l : list Result) :
  StronglySorted (fun a b => compareResults a b <= 0) l ->
  NoDup (map index l) ->
  StronglySorted precedes l.
Proof.
  induction 1 as [|x l Hl IH Hx]; intros Hnd; [constructor|].
  simpl in Hnd. inversion Hnd as [|? ? Hnot Hnd']; subst.
  constructor; [now apply IH|].
  rewrite Forall_forall in *. intros y Hy.
  apply compareResults_precedes; [now apply Hx|].
  intros E. apply Hnot. rewrite E. now apply in_map.
Qed.

Lemma sortBy_results_precedes (l : list Result) :
  NoDup (map index l) -> StronglySorted precedes (sortBy compareResults l).
Proof.
  intros H. apply sorted_distinct_precedes.
  - apply sortBy_sorted; [apply compareResults_total | apply compareResults_trans].
  - apply Permutation_NoDup with (l := map index l); [|exact H].
    apply Permutation_map. symmetry. apply sortBy_perm.
Qed.

(* ================================================================== *)
(** ** Sets, the token index and the candidate selection *)

Lemma has_In (s : JsSet.t) (x : Z) : JsSet.has s x = true <-> In x s.
Proof.
  unfold JsSet.has. rewrite existsb_exists. split.
  - intros (y & Hy & E). apply Z.eqb_eq in E. now subst.
  - intros H. exists x. split; [exact H | apply Z.eqb_refl].
Qed.

Lemma add_In (s : JsSet.t) (x y : Z) : In y (JsSet.add s x) <-> In y s \/ y = x.
Proof.
  unfold JsSet.add. destruct (JsSet.has s x) eqn:E.
  - apply has_In in E. split; [tauto | intros [H| ->]; assumption].
  - rewrite in_app_iff. simpl. intuition.
Qed.

Lemma add_NoDup (s : JsSet.t) (x : Z) : NoDup s -> NoDup (JsSet.add s x).
Proof.
  intros H. unfold JsSet.add. destruct (JsSet.has s x) eqn:E; [exact H|].
  apply Permutation_NoDup with (l := x :: s).
  - apply Permutation_cons_append.
  - constructor; [|exact H]. intros C. apply has_In in C. congruence.
Qed.

Lemma fold_add_spec (l : list Z) (acc : JsSet.t) :
  NoDup acc ->
  NoDup (fold_left JsSet.add l acc)
  /\ forall y, In y (fold_left JsSet.add l acc) <-> In y acc \/ In y l.
Proof.
  revert acc; induction l as [|x l IH]; intros acc H; simpl.
  - split; [exact H | tauto].
  - destruct (IH (JsSet.add acc x) (add_NoDup acc x H)) as [N I].
    split; [exact N|]. intros y. rewrite I, add_In. intuition.
Qed.

Lemma ofList_NoDup (l : list Z) : NoDup (JsSet.ofList l).
Proof. apply fold_add_spec. constructor. Qed.

Lemma ofList_In (l : list Z) (y : Z) : In y (JsSet.ofList l) <-> In y l.
Proof.
  unfold JsSet.ofList.
  destruct (fold_add_spec l [] (NoDup_nil Z)) as [_ I]. rewrite I. simpl. tauto.
Qed.

Lemma get_set_other {V} (m : JsMap.t V) k k' v :
  k <> k' -> JsMap.get (JsMap.set m k v) k' = JsMap.get m k'.
Proof.
  intros Hne. induction m as [|[k0 v0] m IH]; simpl.
  - apply streq_neq in Hne. now rewrite Hne.
  - destruct (streq k0 k) eqn:E; simpl.
    + apply streq_eq in E; subst. apply streq_neq in Hne. now rewrite Hne.
    + destruct (streq k0 k'); auto.
Qed.

Lemma indexDocumentTokens_ok index docIndex tl cl :
  indexOK index -> indexOK (indexDocumentTokens index docIndex tl cl).
Proof.
  unfold indexDocumentTokens.
  generalize (extractTokens (tl ++ spaceStr ++ cl)) as tokens.
  intros tokens; revert index.
  induction tokens as [|token tokens IH]; intros index H; simpl; [exact H|].
  apply IH. intros k b.
  destruct (list_eq_dec Z.eq_dec token k) as [->|Hne].
  - rewrite get_set_same. intros [= <-]. apply add_NoDup.
    match goal with
    | |- NoDup (match ?g with Some _ => _ | None => _ end) =>
        destruct g as [b0|] eqn:G; [eapply H; eauto | constructor]
    end.
  - rewrite get_set_other by exact Hne. apply H.
Qed.

Lemma fold_ingest_ok (records : list Doc) (srv : Server) :
  indexOK (tokenIndex srv) -> indexOK (tokenIndex (fold_left ingest records srv)).
Proof.
  revert srv; induction records as [|d records IH]; intros srv H; simpl; [exact H|].
  apply IH. simpl. now apply indexDocumentTokens_ok.
Qed.

Lemma loadRecords_ok (records : list Doc) : indexOK (tokenIndex (loadRecords records)).
Proof. apply fold_ingest_ok. intros k b. discriminate. Qed.

(** The loop keeps the candidate set duplicate-free and inside the
    restriction. *)
Lemma collectLoop_spec (index : JsMap.t JsSet.t) (base : option JsSet.t)
    (groups : list (list jsstring)) (cand : option JsSet.t) (used : bool) :
  indexOK index ->
  (forall c, cand = Some c ->
     NoDup c /\ forall b, base = Some b -> incl c b) ->
  forall c, fst (collectLoop index base groups cand used) = Some c ->
    NoDup c /\ forall b, base = Some b -> incl c b.
Proof.
  intros Hidx. revert cand used.
  induction groups as [|group rest IH]; intros cand used Hc c; simpl.
  - apply Hc.
  - destruct (Z.of_nat (List.length group) =? 0); [now apply IH|].
    destruct (asciiCandidatesOf group) as [|keyword [|? ?]]; try now apply IH.
    destruct (JsMap.get index keyword) as [bucket|] eqn:G; [|now apply IH].
    destruct (JsSet.size bucket =? 0); [now apply IH|].
    assert (HB : NoDup bucket) by (eapply Hidx; eauto).
    match goal with
    | |- fst (if JsSet.size ?cs =? 0 then _ else _) = _ -> _ =>
        assert (HC : NoDup cs /\ forall b, base = Some b -> incl cs b)
    end.
    { split.
      - destruct cand, base; repeat apply NoDup_filter; exact HB.
      - intros b Hb x Hx. subst base.
        assert (Hx' : In x (filter (JsSet.has b) bucket))
          by (destruct cand; [apply filter_In in Hx; tauto | exact Hx]).
        apply filter_In in Hx'. now apply has_In. }
    match goal with
    | |- fst (if ?t then _ else _) = _ -> _ => destruct t
    end.
    + simpl. intros [= <-]. exact HC.
    + apply IH. intros c' [= <-]. exact HC.
Qed.

Lemma collectCandidateIndexes_spec (index : JsMap.t JsSet.t)
    (groups : list (list jsstring)) (base : option JsSet.t) (c : JsSet.t) :
  indexOK index ->
  (forall b, base = Some b -> NoDup b) ->
  collectCandidateIndexes index groups base = Some c ->
  NoDup c /\ forall b, base = Some b -> incl c b.
Proof.
  intros Hidx Hbase. unfold collectCandidateIndexes.
  pose proof (collectLoop_spec index base groups None false Hidx) as L.
  destruct (collectLoop index base groups None false) as [cand used] eqn:E.
  destruct used; simpl.
  - destruct cand as [cd|].
    + intros [= <-]. apply L; [discriminate | reflexivity].
    + intros [= <-]. split; [constructor | intros b _ x []].
  - intros ->. split; [now apply Hbase|].
    intros b [= <-]. apply incl_refl.
Qed.

(* ================================================================== *)
(** ** Occurrence counting: the loop ends, and what a positive count means *)

Lemma isPrefix_iff (keyword s : jsstring) :
  isPrefix keyword s = true <-> exists post, s = keyword ++ post.
Proof.
  revert s; induction keyword as [|a keyword IH]; intros s; simpl.
  - split; [eauto | reflexivity].
  - destruct s as [|b s].
    + split; [discriminate | intros [post H]; discriminate].
    + rewrite andb_true_iff, Z.eqb_eq, IH. split.
      * intros [-> [post ->]]. eauto.
      * intros [post [= -> ->]]. eauto.
Qed.

Lemma indexOfFrom_bounds (keyword s : jsstring) (pos : Z) :
  indexOfFrom keyword s pos = -1
  \/ (pos <= indexOfFrom keyword s pos
      /\ indexOfFrom keyword s pos + len keyword <= pos + len s).
Proof.
  revert pos; induction s as [|c s IH]; intros pos; simpl.
  - destruct (isPrefix keyword []) eqn:E; [|now left].
    apply isPrefix_iff in E. destruct E as [post E].
    destruct keyword; [|discriminate]. right. unfold len. simpl. lia.
  - destruct (isPrefix keyword (c :: s)) eqn:E.
    + right. apply isPrefix_iff in E. destruct E as [post E].
      apply (f_equal (@List.length jschar)) in E. rewrite length_app in E.
      unfold len. lia.
    + destruct (IH (pos + 1)) as [H|H]; [now left|].
      right. unfold len in *. simpl List.length. lia.
Qed.

Lemma indexOfFrom_occurs (keyword s : jsstring) (pos : Z) :
  0 <= pos ->
  (indexOfFrom keyword s pos <> -1
   <-> exists pre post, s = pre ++ keyword ++ post).
Proof.
  revert pos; induction s as [|c s IH]; intros pos Hpos; simpl.
  - destruct (isPrefix keyword []) eqn:E.
    + apply isPrefix_iff in E. destruct E as [post E].
      split; [intros _; exists [], post; exact E | lia].
    + split; [congruence|]. intros (pre & post & H).
      destruct pre; [|discriminate]. simpl in H.
      assert (isPrefix keyword [] = true) by (apply isPrefix_iff; eauto).
      congruence.
  - destruct (isPrefix keyword (c :: s)) eqn:E.
    + apply isPrefix_iff in E. destruct E as [post E].
      split; [intros _; exists [], post; exact E | lia].
    + rewrite (IH (pos + 1)) by lia. split.
      * intros (pre & post & ->). exists (c :: pre), post. reflexivity.
      * intros (pre & post & H). destruct pre as [|x pre].
        -- simpl in H.
           assert (isPrefix keyword (c :: s) = true)
             by (apply isPrefix_iff; eauto).
           congruence.
        -- injection H as _ ->. eauto.
Qed.

Lemma indexOf_bounds (source keyword : jsstring) (start : Z) :
  0 <= start ->
  indexOf source keyword start = -1
  \/ (Z.min start (len source) <= indexOf source keyword start
      /\ indexOf source keyword start + len keyword <= len source).
Proof.
  intros Hs. unfold indexOf.
  assert (Hl : 0 <= len source) by (unfold len; lia).
  rewrite Z.max_r by lia.
  set (k := Z.min start (len source)).
  destruct (indexOfFrom_bounds keyword (skipn (Z.to_nat k) source) k) as [H|H];
    [now left|].
  right. unfold len in *. rewrite length_skipn in H. lia.
Qed.

(** The loop of [countOccurrences] ends within the fuel it is given. *)
Lemma countLoop_total (fuel : nat) (source keyword : jsstring) (count start : Z) :
  keyword <> [] -> 0 <= start ->
  Z.max 0 (len source - start) < Z.of_nat fuel ->
  exists c, countLoop fuel source keyword count start = Some c /\ count <= c.
Proof.
  intros Hk. assert (Hlen : 1 <= len keyword)
    by (destruct keyword; [congruence | unfold len; simpl; lia]).
  revert count start; induction fuel as [|fuel IH]; intros count start Hs Hf;
    [lia|].
  simpl. destruct (Z.eqb_spec (indexOf source keyword start) (-1)) as [E|E].
  - exists count. split; [reflexivity | lia].
  - destruct (indexOf_bounds source keyword start Hs) as [B|[B1 B2]];
      [congruence|].
    destruct (IH (count + 1) (indexOf source keyword start + len keyword))
      as (c & Hc & Hle); [lia | lia |].
    exists c. split; [exact Hc | lia].
Qed.

Lemma countOccurrences_total (source keyword : jsstring) :
  keyword <> [] ->
  exists c, countLoop (S (List.length source)) source keyword 0 0 = Some c
            /\ countOccurrences source keyword
               = if isEmpty source then 0 else c.
Proof.
  intros Hk.
  destruct (countLoop_total (S (List.length source)) source keyword 0 0 Hk)
    as (c & Hc & _); [lia | unfold len; lia |].
  exists c. split; [exact Hc|]. unfold countOccurrences. rewrite Hc.
  apply isEmpty_false in Hk. rewrite Hk. now destruct (isEmpty source).
Qed.

(** The count is positive exactly when the keyword occurs in the source
    as a substring. *)
Lemma countOccurrences_positive (source keyword : jsstring) :
  0 < countOccurrences source keyword
  <-> keyword <> [] /\ exists pre post, source = pre ++ keyword ++ post.
Proof.
  unfold countOccurrences. destruct keyword as [|a keyword].
  - rewrite orb_true_r. split; [lia | intros [H _]; congruence].
  - destruct source as [|b source].
    + simpl. split; [lia|]. intros [_ (pre & post & H)].
      destruct pre; discriminate.
    + cbn [isEmpty orb countLoop].
      assert (E0 : indexOf (b :: source) (a :: keyword) 0
                   = indexOfFrom (a :: keyword) (b :: source) 0)
        by (unfold indexOf, len; simpl List.length;
            rewrite Z.min_l, Z.max_l by lia; reflexivity).
      pose proof (indexOfFrom_occurs (a :: keyword) (b :: source) 0 ltac:(lia))
        as Occ.
      rewrite <- E0 in Occ.
      destruct (Z.eqb_spec (indexOf (b :: source) (a :: keyword) 0) (-1)) as [E|E].
      * split; [lia|]. intros [_ H]. apply Occ in H. congruence.
      * destruct (indexOf_bounds (b :: source) (a :: keyword) 0 ltac:(lia))
          as [B|[B1 B2]]; [congruence|].
        destruct (countLoop_total (List.length (b :: source)) (b :: source)
                    (a :: keyword) (0 + 1)
                    (indexOf (b :: source) (a :: keyword) 0 + len (a :: keyword)))
          as (c & Hc & Hle); [discriminate | | |].
        -- unfold len in *. simpl List.length in *. lia.
        -- unfold len in *. simpl List.length in *. lia.
        -- rewrite Hc. split; [|lia]. intros _. split; [discriminate|].
           now apply Occ.
Qed.

(* ================================================================== *)
(** ** The ranking loop *)

Lemma countOccurrences_empty_keyword (source : jsstring) :
  countOccurrences source [] = 0.
Proof. unfold countOccurrences. simpl. now rewrite orb_true_r. Qed.

Lemma countLoop_nonneg fuel source keyword count start c :
  0 <= count -> countLoop fuel source keyword count start = Some c -> 0 <= c.
Proof.
  revert count start; induction fuel as [|fuel IH]; intros count start Hc; simpl;
    [discriminate|].
  destruct (indexOf source keyword start =? -1).
  - intros [= <-]. exact Hc.
  - apply IH. lia.
Qed.

Lemma countOccurrences_nonneg (source keyword : jsstring) :
  0 <= countOccurrences source keyword.
Proof.
  unfold countOccurrences.
  destruct (isEmpty source || isEmpty keyword); [lia|].
  destruct (countLoop _ source keyword 0 0) as [c|] eqn:E; [|lia].
  eapply countLoop_nonneg; [|exact E]. lia.
Qed.

Lemma bestCount_nonneg (text : jsstring) (group : list jsstring) :
  0 <= bestCount text group.
Proof. unfold bestCount. induction group; simpl; lia. Qed.

(** A best count is positive exactly when some alternative of the group
    occurs in the text. *)
Lemma bestCount_positive (text : jsstring) (group : list jsstring) :
  0 < bestCount text group
  <-> exists alt, In alt group /\ alt <> []
                  /\ exists pre post, text = pre ++ alt ++ post.
Proof.
  unfold bestCount. induction group as [|kw group IH]; simpl.
  - split; [lia | intros (alt & [] & _)].
  - pose proof (countOccurrences_positive text kw) as P. split.
    + intros H. destruct (Z.max_spec (countOccurrences text kw)
                            (fold_right Z.max 0 (map (countOccurrences text) group)))
        as [[_ E]|[_ E]]; rewrite E in H.
      * apply IH in H. destruct H as (alt & Hin & Halt). exists alt. auto.
      * apply P in H. exists kw. tauto.
    + intros (alt & [<-|Hin] & Hne & Hocc).
      * assert (0 < countOccurrences text kw) by (apply P; auto). lia.
      * assert (0 < fold_right Z.max 0 (map (countOccurrences text) group))
          by (apply IH; eauto).
        lia.
Qed.

(** The inner loop computes the two best counts of the vocabulary. *)
Lemma bestOccurrences_fold (isTitleOnly : bool) (it : Doc)
    (group : list jsstring) (bt bc : Z) :
  0 <= bt -> 0 <= bc ->
  fold_left
    (fun best kwLower =>
       if isEmpty kwLower then best
       else
         let titleOccurrences := countOccurrences (titleLower it) kwLower in
         let bestTitle :=
           if titleOccurrences >? fst best then titleOccurrences else fst best in
         if isTitleOnly then (bestTitle, snd best)
         else
           let contentOccurrences := countOccurrences (contentLower it) kwLower in
           (bestTitle,
            if contentOccurrences >? snd best then contentOccurrences
            else snd best))
    group (bt, bc)
  = (Z.max bt (bestCount (titleLower it) group),
     if isTitleOnly then bc else Z.max bc (bestCount (contentLower it) group)).
Proof.
  revert bt bc; induction group as [|kw group IH]; intros bt bc Hbt Hbc.
  - simpl. unfold bestCount. simpl. rewrite !Z.max_l by lia.
    now destruct isTitleOnly.
  - cbn [fold_left].
    pose proof (countOccurrences_nonneg (titleLower it) kw) as Ht.
    pose proof (countOccurrences_nonneg (contentLower it) kw) as Hc.
    pose proof (bestCount_nonneg (titleLower it) group) as Bt.
    pose proof (bestCount_nonneg (contentLower it) group) as Bc.
    assert (Et : bestCount (titleLower it) (kw :: group)
                 = Z.max (countOccurrences (titleLower it) kw)
                     (bestCount (titleLower it) group)) by reflexivity.
    assert (Ec : bestCount (contentLower it) (kw :: group)
                 = Z.max (countOccurrences (contentLower it) kw)
                     (bestCount (contentLower it) group)) by reflexivity.
    rewrite Et, Ec.
    destruct (isEmpty kw) eqn:Ek.
    + apply isEmpty_true in Ek; subst kw.
      rewrite !countOccurrences_empty_keyword in *.
      rewrite IH by assumption.
      destruct isTitleOnly; f_equal; lia.
    + cbn zeta. cbn [fst snd].
      destruct isTitleOnly.
      * destruct (Z.gtb_spec (countOccurrences (titleLower it) kw) bt);
          rewrite IH by lia; f_equal; lia.
      * destruct (Z.gtb_spec (countOccurrences (titleLower it) kw) bt),
          (Z.gtb_spec (countOccurrences (contentLower it) kw) bc);
          rewrite IH by lia; f_equal; lia.
Qed.

Lemma bestOccurrences_spec (isTitleOnly : bool) (it : Doc) (group : list jsstring) :
  bestOccurrences isTitleOnly it group
  = (bestCount (titleLower it) group,
     if isTitleOnly then 0 else bestCount (contentLower it) group).
Proof.
  unfold bestOccurrences. rewrite bestOccurrences_fold by lia.
  pose proof (bestCount_nonneg (titleLower it) group).
  pose proof (bestCount_nonneg (contentLower it) group).
  destruct isTitleOnly; f_equal; lia.
Qed.

Lemma keywordMatched_iff (isTitleOnly : bool) (it : Doc) (group : list jsstring) :
  keywordMatched isTitleOnly (bestOccurrences isTitleOnly it group) = true
  <-> groupSatisfied isTitleOnly it group.
Proof.
  rewrite bestOccurrences_spec. unfold keywordMatched, groupSatisfied.
  destruct isTitleOnly; cbn [fst snd].
  - apply Z.ltb_lt.
  - rewrite orb_true_iff, !Z.ltb_lt. tauto.
Qed.

Lemma rankGroups_iff (isTitleOnly : bool) (it : Doc)
    (groups : list (list jsstring)) (titleRank contentRank : Z) :
  (exists ranks, rankGroups isTitleOnly it groups titleRank contentRank = Some ranks)
  <-> Forall (groupSatisfied isTitleOnly it) groups.
Proof.
  revert titleRank contentRank.
  induction groups as [|group rest IH]; intros titleRank contentRank; simpl.
  - split; [constructor | eauto].
  - destruct (keywordMatched isTitleOnly (bestOccurrences isTitleOnly it group))
      eqn:E; simpl.
    + apply keywordMatched_iff in E. rewrite IH. split.
      * now constructor.
      * intros H. now inversion H.
    + split; [intros [? ?]; discriminate|].
      intros H. inversion H as [|? ? Hs _]; subst.
      apply keywordMatched_iff in Hs. congruence.
Qed.

Lemma docAt_Some (srv : Server) (i : Z) (D : Doc) :
  docAt srv i = Some D -> 0 <= i < Z.of_nat (List.length (searchData srv)).
Proof.
  unfold docAt. destruct (Z.ltb_spec i 0) as [?|Hi]; [discriminate|]. intros HD.
  assert (Z.to_nat i < List.length (searchData srv))%nat
    by (apply nth_error_Some; congruence).
  lia.
Qed.

Section RankingProperties.

Variable powRound : Z -> Z -> Z -> Z.

Lemma rankItem_sound srv groups isTitleOnly idx r :
  rankItem powRound srv groups isTitleOnly idx = Some r ->
  index r = idx /\ docAt srv idx = Some (item r)
  /\ Forall (groupSatisfied isTitleOnly (item r)) groups.
Proof.
  unfold rankItem. destruct (docAt srv idx) as [it|]; [|discriminate].
  destruct (rankGroups isTitleOnly it groups 1 1) as [[tr cr]|] eqn:E;
    [|discriminate].
  intros [= <-]. simpl. repeat split.
  apply (rankGroups_iff isTitleOnly it groups 1 1). eauto.
Qed.

Lemma rankItem_complete srv groups isTitleOnly idx D :
  docAt srv idx = Some D ->
  Forall (groupSatisfied isTitleOnly D) groups ->
  exists r, rankItem powRound srv groups isTitleOnly idx = Some r.
Proof.
  intros HD HF. unfold rankItem. rewrite HD.
  apply (rankGroups_iff isTitleOnly D groups 1 1) in HF.
  destruct HF as [[tr cr] ->]. eauto.
Qed.

Lemma rankAll_In srv groups isTitleOnly space r :
  In r (rankAll powRound srv groups isTitleOnly space)
  <-> exists idx, In idx space
                  /\ rankItem powRound srv groups isTitleOnly idx = Some r.
Proof.
  unfold rankAll. rewrite in_flat_map. split.
  - intros (idx & Hi & Hr). exists idx. split; [exact Hi|].
    destruct (rankItem powRound srv groups isTitleOnly idx); simpl in Hr;
      [destruct Hr as [->|[]]; reflexivity | destruct Hr].
  - intros (idx & Hi & Hr). exists idx. split; [exact Hi|]. rewrite Hr. now left.
Qed.

Lemma rankAll_indexes srv groups isTitleOnly space :
  NoDup space ->
  NoDup (map index (rankAll powRound srv groups isTitleOnly space)).
Proof.
  induction space as [|idx space IH]; intros H; simpl; [constructor|].
  inversion H as [|? ? Hnot Hnd]; subst.
  rewrite map_app. destruct (rankItem powRound srv groups isTitleOnly idx) as [r|] eqn:E.
  - simpl. apply rankItem_sound in E. destruct E as [E _].
    constructor; [|now apply IH].
    rewrite in_map_iff. intros (r' & Hr' & Hin).
    apply rankAll_In in Hin. destruct Hin as (idx' & Hidx' & Hrank).
    apply rankItem_sound in Hrank. destruct Hrank as [Hrank _].
    apply Hnot. congruence.
  - simpl. now apply IH.
Qed.

(** The search space of a cache miss, when the selection did not come
    back empty: the candidate set, else the restriction, else the whole
    store, narrowed by the category filter. *)
Lemma computeResults_In srv groups isTitleOnly base cat r :
  In r (computeResults powRound srv groups isTitleOnly base cat) ->
  rankItem powRound srv groups isTitleOnly (index r) = Some r
  /\ (forall b, base = Some b -> indexOK (tokenIndex srv) -> NoDup b ->
        In (index r) b).
Proof.
  unfold computeResults.
  destruct (collectCandidateIndexes (tokenIndex srv) groups base) as [cand|] eqn:C.
  - destruct (JsSet.size cand =? 0); [intros []|].
    match goal with
    | |- In r (if ?t then _ else _) -> _ => destruct t; [intros []|]
    end.
    intros H. apply (Permutation_in _ (sortBy_perm compareResults _)) in H.
    apply rankAll_In in H. destruct H as (idx & Hidx & Hr).
    pose proof (rankItem_sound _ _ _ _ _ Hr) as (E & _). subst idx.
    split; [exact Hr|].
    intros b Hb Hok Hnd.
    assert (Hbase : forall b', base = Some b' -> NoDup b')
      by (intros b' Hb'; congruence).
    destruct (collectCandidateIndexes_spec _ _ _ _ Hok Hbase C) as [_ Hincl].
    apply (Hincl b Hb).
    destruct (isEmpty cat); [exact Hidx | apply filter_In in Hidx; tauto].
  - match goal with
    | |- In r (if ?t then _ else _) -> _ => destruct t; [intros []|]
    end.
    intros H. apply (Permutation_in _ (sortBy_perm compareResults _)) in H.
    apply rankAll_In in H. destruct H as (idx & Hidx & Hr).
    pose proof (rankItem_sound _ _ _ _ _ Hr) as (E & _). subst idx.
    split; [exact Hr|].
    intros b Hb _ _. subst base.
    destruct (isEmpty cat); [exact Hidx | apply filter_In in Hidx; tauto].
Qed.

Lemma computeResults_sorted srv groups isTitleOnly base cat :
  indexOK (tokenIndex srv) ->
  (forall b, base = Some b -> NoDup b) ->
  StronglySorted precedes
    (computeResults powRound srv groups isTitleOnly base cat).
Proof.
  intros Hok Hbase. unfold computeResults.
  assert (Hspace : NoDup
            match collectCandidateIndexes (tokenIndex srv) groups base with
            | Some cand => cand
            | None =>
                match base with
                | Some b => b
                | None => map Z.of_nat (seq 0 (List.length (searchData srv)))
                end
            end).
  { destruct (collectCandidateIndexes (tokenIndex srv) groups base) as [cand|] eqn:C.
    - now apply (collectCandidateIndexes_spec _ _ _ _ Hok Hbase C).
    - destruct base as [b|]; [now apply Hbase|].
      apply NoDup_map_NoDup_ForallPairs; [|apply seq_NoDup].
      intros x y _ _. apply Nat2Z.inj. }
  match goal with
  | |- StronglySorted _ (if ?t then _ else _) => destruct t; [constructor|]
  end.
  match goal with
  | |- StronglySorted _ (if ?t then _ else _) => destruct t; [constructor|]
  end.
  apply sortBy_results_precedes, rankAll_indexes.
  destruct (isEmpty cat); [exact Hspace | now apply NoDup_filter].
Qed.

End RankingProperties.

(* ================================================================== *)
(** ** Properties of the candidate selection *)

Lemma collectLoop_skips_group (index : JsMap.t JsSet.t) (base : option JsSet.t)
    (group : list jsstring) (token : jsstring) (after : list (list jsstring))
    (cand : option JsSet.t) (used : bool) :
  eligibleToken group = Some token -> noBucket index token ->
  collectLoop index base (group :: after) cand used
  = collectLoop index base after cand used.
Proof.
  unfold eligibleToken, noBucket. intros He Hb. simpl.
  destruct (Z.of_nat (List.length group) =? 0); [reflexivity|].
  destruct (asciiCandidatesOf group) as [|keyword [|? ?]]; try discriminate.
  injection He as ->.
  destruct Hb as [-> | ->]; reflexivity.
Qed.

Lemma collectLoop_skips (index : JsMap.t JsSet.t) (base : option JsSet.t)
    (before : list (list jsstring)) (group : list jsstring) (token : jsstring)
    (after : list (list jsstring)) (cand : option JsSet.t) (used : bool) :
  eligibleToken group = Some token -> noBucket index token ->
  collectLoop index base (before ++ group :: after) cand used
  = collectLoop index base (before ++ after) cand used.
Proof.
  intros He Hb. revert cand used.
  induction before as [|g before IH]; intros cand used.
  - now apply collectLoop_skips_group with (token := token).
  - cbn [app collectLoop].
    destruct (Z.of_nat (List.length g) =? 0); [apply IH|].
    destruct (asciiCandidatesOf g) as [|keyword [|? ?]]; try apply IH.
    destruct (JsMap.get index keyword) as [bucket|]; [|apply IH].
    destruct (JsSet.size bucket =? 0); [apply IH|].
    match goal with
    | |- (if ?t then _ else _) = _ => destruct t; [reflexivity | apply IH]
    end.
Qed.

(** C3, as stated, fails: the group [foo] is eligible and its token has
    no bucket in the index of the one-document store, yet the candidate
    selection does not come back with zero candidates (it is
    unconstrained) and the search finds the document, whose title
    [foobar] contains [foo]. *)
Lemma C3_absent_bucket_counterexample :
  eligibleToken [lit "foo"] = Some (lit "foo")
  /\ JsMap.get (tokenIndex foobarServer) (lit "foo") = None
  /\ collectCandidateIndexes (tokenIndex foobarServer) [[lit "foo"]] None
     <> Some []
  /\ map index
       (computeResults exactPowRound foobarServer [[lit "foo"]] false None [])
     = [0].
Proof. vm_compute. repeat split; congruence. Qed.

(** C3, amended.  An eligible group whose token has an absent or empty
    bucket is skipped by the candidate selection: the selection returns
    what it returns for the query without that group.  In particular a
    query made of that group alone leaves the search with the base-index
    set, or unconstrained when there is none. *)
Theorem C3_absent_bucket_is_skipped (index : JsMap.t JsSet.t)
    (base : option JsSet.t) (before : list (list jsstring))
    (group : list jsstring) (token : jsstring) (after : list (list jsstring)) :
  eligibleToken group = Some token -> noBucket index token ->
  collectCandidateIndexes index (before ++ group :: after) base
  = collectCandidateIndexes index (before ++ after) base
  /\ collectCandidateIndexes index [group] base = base.
Proof.
  intros He Hb. unfold collectCandidateIndexes. split.
  - now rewrite (collectLoop_skips index base before group token after).
  - now rewrite (collectLoop_skips_group index base group token []).
Qed.

Lemma C3_absent_bucket_is_skipped_witness :
  collectCandidateIndexes (tokenIndex foobarServer)
    ([[lit "bar"; lit "baz"]] ++ [lit "foo"] :: [[lit "foobar"]]) None
  = collectCandidateIndexes (tokenIndex foobarServer)
      ([[lit "bar"; lit "baz"]] ++ [[lit "foobar"]]) None
  /\ collectCandidateIndexes (tokenIndex foobarServer) [[lit "foo"]] None = None.
Proof.
  apply (C3_absent_bucket_is_skipped (tokenIndex foobarServer) None
           [[lit "bar"; lit "baz"]] [lit "foo"] (lit "foo") [[lit "foobar"]]).
  - reflexivity.
  - left. reflexivity.
Defined.

(** C2: the code at two inputs on which the candidate set is not null
    and leaves out a document that matches the query under the
    substring counts of the ranking loop.
    - Query [foo] over the titles [foo] and [foobar]: the bucket of the
      token [foo] holds document 0 only, document 1 contains [foo] as a
      substring.
    - Query [foo|b] over the titles [foo] and [b]: the group has two
      alternatives, only [foo] passes the filter, and its bucket is used
      although document 1 matches the alternative [b]. *)
Theorem C2_pruning_drops_true_match :
  (collectCandidateIndexes (tokenIndex fooServer) [[lit "foo"]] None = Some [0]
   /\ docAt fooServer 1 = Some (docOf "foobar" "")
   /\ Forall (groupSatisfied false (docOf "foobar" "")) [[lit "foo"]]
   /\ map index (computeResults exactPowRound fooServer [[lit "foo"]] false None [])
      = [0])
  /\ (collectCandidateIndexes (tokenIndex mixedServer) [[lit "foo"; lit "b"]] None
      = Some [0]
      /\ docAt mixedServer 1 = Some (docOf "b" "")
      /\ Forall (groupSatisfied false (docOf "b" "")) [[lit "foo"; lit "b"]]
      /\ map index
           (computeResults exactPowRound mixedServer [[lit "foo"; lit "b"]]
              false None [])
         = [0]).
Proof.
  split; (split; [vm_compute; reflexivity|]);
    (split; [vm_compute; reflexivity|]);
    (split; [|vm_compute; reflexivity]);
    (constructor; [|constructor]); left; vm_compute; reflexivity.
Qed.

(* ================================================================== *)
(** ** Which documents a search returns *)

Lemma paginateResults_nil (pageNum size : Z) :
  paginateResults [] pageNum size = emptyResponse pageNum size.
Proof.
  unfold paginateResults, emptyResponse, slice.
  rewrite skipn_nil, firstn_nil. f_equal.
Qed.

Section SearchProperties.

Variable toLowerCase : jsstring -> jsstring.
Variable powRound : Z -> Z -> Z -> Z.

(** On a cache without entries, a request without restriction and
    without category receives a page of [unrestrictedResults]. *)
Lemma apiSearch_unrestricted (srv : Server) (now : Z) (req : Request)
    (keyword : jsstring) :
  qKeyword req = Some keyword -> keyword <> [] ->
  qBaseIndexes req = None -> qCategory req = None ->
  fst (apiSearch toLowerCase powRound srv [] now req)
  = paginateResults
      (unrestrictedResults toLowerCase powRound srv
         (parseSearchKeywords keyword) (isTitleOnlyOf (qTitleOnly req)))
      (pageNumOf (qPage req)) (sizeOf (qPageSize req)).
Proof.
  intros Hk Hne Hb Hc. unfold apiSearch, searchKeyword, unrestrictedResults.
  rewrite Hk, Hb, Hc. apply isEmpty_false in Hne. rewrite Hne. simpl.
  destruct (Z.of_nat (List.length (parseSearchKeywords keyword)) =? 0).
  - simpl. now rewrite paginateResults_nil.
  - reflexivity.
Qed.

(** For a parsed query with at least one group, without category filter
    and base-index restriction: a document that appears in the list
    computed on a cache miss satisfies every group (positive best count
    in its title or, unless only titles are searched, in its content);
    and when the candidate selection leaves the search unconstrained,
    every document that satisfies every group appears. *)
Lemma unrestrictedResults_match_groups (srv : Server) (Q : list (list jsstring))
    (isTitleOnly : bool) :
  Q <> [] ->
  let groups := map (map toLowerCase) Q in
  let found := unrestrictedResults toLowerCase powRound srv Q isTitleOnly in
  (forall i, appearsIn i found ->
     exists D, docAt srv i = Some D
               /\ Forall (groupSatisfied isTitleOnly D) groups)
  /\ (collectCandidateIndexes (tokenIndex srv) groups None = None ->
      forall i D, docAt srv i = Some D ->
        Forall (groupSatisfied isTitleOnly D) groups ->
        appearsIn i found).
Proof.
  intros HQ. cbn zeta. unfold unrestrictedResults.
  destruct Q as [|g Q]; [congruence|].
  cbn [List.length]. rewrite Nat2Z.inj_succ.
  destruct (Z.eqb_spec (Z.succ (Z.of_nat (List.length Q))) 0) as [?|_]; [lia|].
  split.
  - intros i (r & Hin & <-).
    apply computeResults_In in Hin. destruct Hin as [Hr _].
    apply rankItem_sound in Hr. destruct Hr as (_ & HD & HF).
    exists (item r). split; assumption.
  - intros Hnull i D HD HF.
    destruct (rankItem_complete powRound srv _ isTitleOnly i D HD HF) as [r Hr].
    exists r. split; [|now apply rankItem_sound in Hr].
    unfold computeResults. rewrite Hnull. cbn [isEmpty negb andb].
    apply (Permutation_in _ (Permutation_sym (sortBy_perm compareResults _))).
    apply rankAll_In. exists i. split; [|exact Hr].
    apply docAt_Some in HD.
    apply in_map_iff. exists (Z.to_nat i). split; [lia|].
    apply in_seq. lia.
Qed.

(** The result list in full: a document appears exactly when it
    satisfies every group and the candidate selection kept it. *)
Lemma unrestrictedResults_appears (srv : Server) (Q : list (list jsstring))
    (isTitleOnly : bool) (i : Z) :
  Q <> [] ->
  appearsIn i (unrestrictedResults toLowerCase powRound srv Q isTitleOnly)
  <-> (exists D, docAt srv i = Some D
                 /\ Forall (groupSatisfied isTitleOnly D)
                      (map (map toLowerCase) Q))
      /\ match collectCandidateIndexes (tokenIndex srv)
                 (map (map toLowerCase) Q) None with
         | Some cand => In i cand
         | None => True
         end.
Proof.
  intros HQ. unfold unrestrictedResults, appearsIn.
  destruct Q as [|g Q]; [congruence|].
  cbn [List.length]. rewrite Nat2Z.inj_succ.
  destruct (Z.eqb_spec (Z.succ (Z.of_nat (List.length Q))) 0) as [?|_]; [lia|].
  set (groups := map (map toLowerCase) (g :: Q)).
  unfold computeResults. cbn [isEmpty negb andb].
  destruct (collectCandidateIndexes (tokenIndex srv) groups None) as [cand|].
  - destruct (Z.eqb_spec (JsSet.size cand) 0) as [E|E].
    + destruct cand; [|unfold JsSet.size in E; simpl in E; lia].
      split; [intros (r & [] & _) | intros [_ []]].
    + split.
      * intros (r & Hin & <-).
        apply (Permutation_in _ (sortBy_perm compareResults _)) in Hin.
        apply rankAll_In in Hin. destruct Hin as (idx & Hidx & Hr).
        pose proof (rankItem_sound _ _ _ _ _ _ Hr) as (<- & HD & HF). eauto.
      * intros [(D & HD & HF) Hin].
        destruct (rankItem_complete powRound srv groups isTitleOnly i D HD HF)
          as [r Hr].
        exists r. split; [|now apply rankItem_sound in Hr].
        apply (Permutation_in _ (Permutation_sym (sortBy_perm compareResults _))).
        apply rankAll_In. eauto.
  - split.
    + intros (r & Hin & <-).
      apply (Permutation_in _ (sortBy_perm compareResults _)) in Hin.
      apply rankAll_In in Hin. destruct Hin as (idx & Hidx & Hr).
      pose proof (rankItem_sound _ _ _ _ _ _ Hr) as (<- & HD & HF). eauto.
    + intros [(D & HD & HF) _].
      destruct (rankItem_complete powRound srv groups isTitleOnly i D HD HF)
        as [r Hr].
      exists r. split; [|now apply rankItem_sound in Hr].
      apply (Permutation_in _ (Permutation_sym (sortBy_perm compareResults _))).
      apply rankAll_In. exists i. split; [|exact Hr].
      apply docAt_Some in HD.
      apply in_map_iff. exists (Z.to_nat i). split; [lia|].
      apply in_seq. lia.
Qed.

End SearchProperties.

(** The keyword [|] parses to the query without groups: every group of
    it is (vacuously) satisfied by the document of the store, and the
    result list is empty. *)
Example unrestrictedResults_no_groups_example :
  parseSearchKeywords (lit "|") = []
  /\ docAt guideServer 0 = Some (docOf "Intro Guide" "guide guide tutorial")
  /\ ~ (appearsIn 0
          (unrestrictedResults asciiLower exactPowRound guideServer
             (parseSearchKeywords (lit "|")) false)
        <-> Forall (groupSatisfied false
                      (docOf "Intro Guide" "guide guide tutorial"))
              (map (map asciiLower) (parseSearchKeywords (lit "|")))).
Proof.
  split; [vm_compute; reflexivity|]. split; [vm_compute; reflexivity|].
  replace (parseSearchKeywords (lit "|")) with (@nil (list jsstring))
    by (vm_compute; reflexivity).
  intros [_ H]. destruct (H (Forall_nil _)) as (r & Hin & _). exact Hin.
Qed.

(** C1.  The handler does not list every document that satisfies every
    group, and can list one that satisfies none.  On the store of the
    two documents titled foo and foobar the request for the keyword foo
    (no restriction, no category, empty cache) is answered with
    document 0 alone and a total of 1, although the title of document 1
    contains foo: the candidate selection keeps the bucket of the token
    foo only.  And on the store of the one document titled Intro Guide,
    once the request for the two words guide and intro has been served,
    the request for the phrase guide intro, which shares its cache key,
    is answered with that document, whose title and content do not
    contain the phrase. *)
Theorem C1_search_misses_true_match :
  parseSearchKeywords (lit "foo") = [[lit "foo"]]
  /\ docAt fooServer 1 = Some (docOf "foobar" "")
  /\ Forall (groupSatisfied false (docOf "foobar" ""))
       (map (map asciiLower) (parseSearchKeywords (lit "foo")))
  /\ map index
       (resResults
          (fst (apiSearch asciiLower exactPowRound fooServer [] 0
                  (requestOf "foo"))))
     = [0]
  /\ total (fst (apiSearch asciiLower exactPowRound fooServer [] 0
                   (requestOf "foo")))
     = 1
  /\ parseSearchKeywords ([quoteChar] ++ lit "guide intro" ++ [quoteChar])
     = [[lit "guide intro"]]
  /\ docAt guideServer 0 = Some (docOf "Intro Guide" "guide guide tutorial")
  /\ ~ Forall (groupSatisfied false
                 (docOf "Intro Guide" "guide guide tutorial"))
         [[lit "guide intro"]]
  /\ map index
       (resResults
          (fst (apiSearch asciiLower exactPowRound guideServer
                  (snd (apiSearch asciiLower exactPowRound guideServer [] 0
                          (requestOf "guide intro")))
                  1000 (phraseRequestOf "guide intro"))))
     = [0].
Proof.
  split; [vm_compute; reflexivity|]. split; [vm_compute; reflexivity|].
  split.
  { replace (map (map asciiLower) (parseSearchKeywords (lit "foo")))
      with [[lit "foo"]] by (vm_compute; reflexivity).
    constructor; [|constructor]. left. vm_compute. reflexivity. }
  split; [vm_compute; reflexivity|]. split; [vm_compute; reflexivity|].
  split; [vm_compute; reflexivity|]. split; [vm_compute; reflexivity|].
  split; [|vm_compute; reflexivity].
  intros H. inversion H as [|g l [C | C] _]; vm_compute in C; discriminate C.
Qed.

(** With at least one group the converse can fail, through the candidate
    selection: document 1 satisfies the only group of the query [foo]
    and does not appear. *)
Example unrestrictedResults_pruned_example :
  Forall (groupSatisfied false (docOf "foobar" "")) [[lit "foo"]]
  /\ docAt fooServer 1 = Some (docOf "foobar" "")
  /\ map index (unrestrictedResults asciiLower exactPowRound fooServer
                  [[lit "foo"]] false)
     = [0].
Proof.
  split; [|split; vm_compute; reflexivity].
  constructor; [|constructor]. left. vm_compute. reflexivity.
Qed.

Example unrestrictedResults_match_groups_example :
  appearsIn 0
    (unrestrictedResults asciiLower exactPowRound foobarServer
       [[lit "Foo"]; [lit "zzz"; lit "BAR"]] false).
Proof.
  apply (unrestrictedResults_match_groups asciiLower exactPowRound foobarServer
           [[lit "Foo"]; [lit "zzz"; lit "BAR"]] false)
    with (D := docOf "foobar" "").
  - discriminate.
  - vm_compute. reflexivity.
  - vm_compute. reflexivity.
  - repeat constructor; left; vm_compute; reflexivity.
Qed.

(* ================================================================== *)
(** ** Invariants of the request handler *)

Lemma cacheOK_nil : cacheOK [].
Proof.
  unfold cacheOK, JsMap.size, CACHE_MAX_ENTRIES. simpl.
  repeat split; [constructor | constructor | lia].
Qed.

Lemma cacheSorted_delete (queryCache : Cache) (k : jsstring) :
  cacheSorted queryCache -> cacheSorted (JsMap.delete queryCache k).
Proof.
  unfold cacheSorted. induction queryCache as [|[k' e'] c IH]; simpl; intros H.
  - constructor.
  - inversion H; subst. destruct (streq k' k); [assumption|].
    constructor; auto.
Qed.

Lemma cacheSorted_set (queryCache : Cache) (k : jsstring) (e : CacheEntry) :
  cacheSorted queryCache -> StronglySorted precedes (results e) ->
  cacheSorted (JsMap.set queryCache k e).
Proof.
  unfold cacheSorted. intros H He.
  induction queryCache as [|[k' e'] c IH]; simpl.
  - constructor; [exact He | constructor].
  - inversion H; subst. destruct (streq k' k); constructor; auto.
Qed.

Lemma cacheSorted_get (queryCache : Cache) (k : jsstring) (e : CacheEntry) :
  cacheSorted queryCache -> JsMap.get queryCache k = Some e ->
  StronglySorted precedes (results e).
Proof.
  unfold cacheSorted. induction queryCache as [|[k' e'] c IH]; simpl; intros H;
    [discriminate|].
  inversion H; subst. destruct (streq k' k); [intros [= <-]; assumption | auto].
Qed.

Lemma getCachedResults_sorted (queryCache : Cache) (k : jsstring) (now : Z) :
  cacheSorted queryCache ->
  cacheSorted (snd (getCachedResults queryCache k now))
  /\ forall l, fst (getCachedResults queryCache k now) = Some l ->
       StronglySorted precedes l.
Proof.
  intros H. unfold getCachedResults.
  destruct (JsMap.get queryCache k) as [e|] eqn:G; simpl;
    [|split; [exact H | discriminate]].
  pose proof (cacheSorted_get _ _ _ H G) as He.
  destruct (now - timestamp e >? CACHE_TTL); simpl.
  - split; [now apply cacheSorted_delete | discriminate].
  - split; [|intros l [= <-]; exact He].
    apply cacheSorted_set; [now apply cacheSorted_delete | exact He].
Qed.

Lemma setCachedResults_sorted (queryCache : Cache) (k : jsstring)
    (res : list Result) (now : Z) :
  cacheSorted queryCache -> StronglySorted precedes res ->
  cacheSorted (setCachedResults queryCache k res now).
Proof.
  intros H Hr. unfold setCachedResults.
  assert (S : cacheSorted (JsMap.set queryCache k (mkEntry res now)))
    by (now apply cacheSorted_set).
  cbv zeta.
  destruct (JsMap.size _ >? CACHE_MAX_ENTRIES); [|exact S].
  destruct (JsMap.keys _) as [|oldest ?]; [exact S|].
  destruct (isEmpty oldest); [exact S | now apply cacheSorted_delete].
Qed.

Lemma paginateResults_sorted (l : list Result) (pageNum size : Z) :
  StronglySorted precedes l ->
  StronglySorted precedes (resResults (paginateResults l pageNum size)).
Proof. intros H. unfold paginateResults. simpl. now apply slice_sorted. Qed.

Lemma parseBaseIndexes_NoDup (srv : Server) (p : param) (b : JsSet.t) :
  parseBaseIndexes srv p = Some b -> NoDup b.
Proof.
  unfold parseBaseIndexes. destruct p as [s|]; [|discriminate].
  destruct (0 <? len (trim s)); [|discriminate].
  intros [= <-]. apply ofList_NoDup.
Qed.

Lemma delete_absent {V} (m : JsMap.t V) k :
  ~ In k (JsMap.keys m) -> JsMap.delete m k = m.
Proof.
  induction m as [|[k' v'] m IH]; simpl; [reflexivity|].
  intros H. destruct (streq k' k) eqn:E.
  - apply streq_eq in E. tauto.
  - rewrite IH; tauto.
Qed.

Lemma delete_sorted {V} (R : jsstring -> jsstring -> Prop) (m : JsMap.t V) k :
  StronglySorted R (JsMap.keys m) ->
  StronglySorted R (JsMap.keys (JsMap.delete m k)).
Proof.
  induction m as [|[k' v'] m IH]; simpl; intros H; [constructor|].
  inversion H as [|? ? Hm Hk]; subst.
  destruct (streq k' k); [exact Hm|]. simpl.
  constructor; [now apply IH|].
  rewrite Forall_forall in *. intros x Hx. apply Hk.
  eapply delete_keys_incl; eauto.
Qed.

Lemma StronglySorted_snoc {A} (R : A -> A -> Prop) (l : list A) (x : A) :
  StronglySorted R l -> Forall (fun y => R y x) l ->
  StronglySorted R (l ++ [x]).
Proof.
  induction 1 as [|y l Hl IH Hy]; intros Hx; simpl.
  - constructor; constructor.
  - inversion Hx; subst. constructor; [now apply IH|].
    apply Forall_app. split; [exact Hy | now constructor].
Qed.

Lemma StronglySorted_within {A} (R R' : A -> A -> Prop) (l : list A) :
  (forall a b, In a l -> In b l -> R a b -> R' a b) ->
  StronglySorted R l -> StronglySorted R' l.
Proof.
  intros H S. induction S as [|x l Hl IH Hx]; [constructor|].
  constructor.
  - apply IH. intros a b Ha Hb. apply H; now right.
  - rewrite Forall_forall in *. intros y Hy.
    apply H; [now left | now right | now apply Hx].
Qed.

(** Storing under a key that is not cached appends the entry, and then
    drops the first entry when the capacity is exceeded. *)
Lemma setCachedResults_absent (queryCache : Cache) cacheKey res now :
  cacheOK queryCache -> cacheKey <> [] ->
  ~ In cacheKey (JsMap.keys queryCache) ->
  setCachedResults queryCache cacheKey res now
  = queryCache ++ [(cacheKey, mkEntry res now)]
  \/ setCachedResults queryCache cacheKey res now
     = tl (queryCache ++ [(cacheKey, mkEntry res now)]).
Proof.
  intros Hok Hkey Hout.
  destruct (setCachedResults_spec queryCache cacheKey res now Hok Hkey)
    as (_ & S2 & S3 & _).
  rewrite (set_absent queryCache cacheKey (mkEntry res now) Hout) in S2, S3.
  destruct (Z_le_gt_dec
              (JsMap.size (queryCache ++ [(cacheKey, mkEntry res now)]))
              CACHE_MAX_ENTRIES) as [Hle|Hgt].
  - left. now apply S2.
  - right. destruct (S3 (Z.gt_lt _ _ Hgt)) as [oldest E].
    apply (f_equal (@tl _)) in E. symmetry. exact E.
Qed.

(** After a request has consulted the cache under a key, the map is the
    former map without that key, followed by the entry of the key, less
    its first entry if the capacity was exceeded. *)
Lemma touch_shape (queryCache : Cache) cacheKey now res :
  cacheOK queryCache -> cacheKey <> [] ->
  exists e,
    touch queryCache cacheKey now res
    = JsMap.delete queryCache cacheKey ++ [(cacheKey, e)]
    \/ touch queryCache cacheKey now res
       = tl (JsMap.delete queryCache cacheKey ++ [(cacheKey, e)]).
Proof.
  intros Hok Hkey.
  pose proof (getCachedResults_ok queryCache cacheKey now Hok) as G.
  unfold touch. unfold getCachedResults in *.
  destruct (JsMap.get queryCache cacheKey) as [entry|] eqn:E.
  - destruct (now - timestamp entry >? CACHE_TTL); simpl in G |- *.
    + exists (mkEntry res now). apply setCachedResults_absent; auto.
      apply delete_NoDup, Hok.
    + exists entry. left. apply refresh_moves_to_end, Hok.
  - simpl in G |- *. exists (mkEntry res now).
    assert (Hout : ~ In cacheKey (JsMap.keys queryCache)).
    { intros Hin. apply in_keys_get in Hin. destruct Hin as [v Hv]. congruence. }
    rewrite (delete_absent queryCache cacheKey Hout).
    now apply setCachedResults_absent.
Qed.

Lemma touch_recency (queryCache : Cache) (lastUse : jsstring -> Z) (clock : Z)
    cacheKey now res :
  cacheOK queryCache -> cacheKey <> [] ->
  recencyOrdered lastUse queryCache ->
  Forall (fun k => lastUse k <= clock) (JsMap.keys queryCache) ->
  recencyOrdered (useAt lastUse (Some cacheKey) (clock + 1))
    (touch queryCache cacheKey now res)
  /\ Forall (fun k => useAt lastUse (Some cacheKey) (clock + 1) k <= clock + 1)
       (JsMap.keys (touch queryCache cacheKey now res)).
Proof.
  intros Hok Hkey Hrec Hle. unfold recencyOrdered in *.
  destruct (delete_NoDup queryCache cacheKey (proj1 Hok)) as [_ Hnot].
  assert (Hold : forall x, In x (JsMap.keys (JsMap.delete queryCache cacheKey)) ->
                   useAt lastUse (Some cacheKey) (clock + 1) x = lastUse x
                   /\ lastUse x <= clock).
  { intros x Hx. unfold useAt.
    destruct (streq cacheKey x) eqn:E;
      [apply streq_eq in E; subst; contradiction|].
    split; [reflexivity|]. rewrite Forall_forall in Hle. apply Hle.
    eapply delete_keys_incl; eauto. }
  assert (Hnew : useAt lastUse (Some cacheKey) (clock + 1) cacheKey = clock + 1)
    by (unfold useAt; now rewrite streq_refl).
  assert (Hall : forall e,
            StronglySorted
              (fun a b => useAt lastUse (Some cacheKey) (clock + 1) a
                          < useAt lastUse (Some cacheKey) (clock + 1) b)
              (JsMap.keys (JsMap.delete queryCache cacheKey ++ [(cacheKey, e)]))
            /\ Forall
                 (fun k => useAt lastUse (Some cacheKey) (clock + 1) k <= clock + 1)
                 (JsMap.keys (JsMap.delete queryCache cacheKey ++ [(cacheKey, e)]))).
  { intros e. rewrite keys_snoc. split.
    - apply StronglySorted_snoc.
      + apply StronglySorted_within
          with (R := fun a b => lastUse a < lastUse b);
          [|now apply delete_sorted].
        intros a b Ha Hb Hab.
        destruct (Hold a Ha) as [-> _], (Hold b Hb) as [-> _]. exact Hab.
      + rewrite Forall_forall. intros x Hx. rewrite Hnew.
        destruct (Hold x Hx) as [-> ?]. lia.
    - apply Forall_app. split.
      + rewrite Forall_forall. intros x Hx. destruct (Hold x Hx) as [-> ?]. lia.
      + constructor; [lia | constructor]. }
  destruct (touch_shape queryCache cacheKey now res Hok Hkey) as [e [-> | ->]].
  - apply Hall.
  - destruct (Hall e) as [A1 A2].
    destruct (JsMap.delete queryCache cacheKey ++ [(cacheKey, e)]) as [|kv rest];
      [split; constructor|].
    simpl in *. inversion A1; inversion A2; subst. split; assumption.
Qed.

Section HandlerProperties.

Variable toLowerCase : jsstring -> jsstring.
Variable powRound : Z -> Z -> Z -> Z.

Lemma searchKeyword_cacheOK srv queryCache now req pageNum size keyword base :
  cacheOK queryCache ->
  cacheOK (snd (searchKeyword toLowerCase powRound srv queryCache now req
                  pageNum size keyword base)).
Proof.
  intros H. unfold searchKeyword.
  destruct (Z.of_nat (List.length (parseSearchKeywords keyword)) =? 0);
    [exact H|].
  cbv zeta.
  match goal with
  | |- context [getCachedResults queryCache ?k now] =>
      pose proof (getCachedResults_ok queryCache k now H) as G;
      destruct (getCachedResults queryCache k now) as [[cached|] cache']
  end; simpl in *; [exact G|].
  apply setCachedResults_spec; [exact G | apply buildCacheKey_nonempty].
Qed.

Lemma apiSearch_cacheOK srv queryCache now req :
  cacheOK queryCache ->
  cacheOK (snd (apiSearch toLowerCase powRound srv queryCache now req)).
Proof.
  intros H. unfold apiSearch.
  destruct (qKeyword req) as [keyword|]; [|exact H].
  destruct (isEmpty keyword); [exact H|].
  match goal with
  | |- context [if ?t then _ else _] => destruct t; [exact H|]
  end.
  now apply searchKeyword_cacheOK.
Qed.

Lemma reachable_cacheOK srv queryCache :
  reachable toLowerCase powRound srv queryCache -> cacheOK queryCache.
Proof.
  induction 1; [apply cacheOK_nil | now apply apiSearch_cacheOK].
Qed.

Lemma searchKeyword_sorted srv queryCache now req pageNum size keyword base :
  indexOK (tokenIndex srv) -> (forall b, base = Some b -> NoDup b) ->
  cacheSorted queryCache ->
  StronglySorted precedes
    (resResults (fst (searchKeyword toLowerCase powRound srv queryCache now req
                        pageNum size keyword base)))
  /\ cacheSorted (snd (searchKeyword toLowerCase powRound srv queryCache now req
                         pageNum size keyword base)).
Proof.
  intros Hidx Hbase H. unfold searchKeyword.
  destruct (Z.of_nat (List.length (parseSearchKeywords keyword)) =? 0);
    [split; [constructor | exact H]|].
  cbv zeta.
  match goal with
  | |- context [getCachedResults queryCache ?k now] =>
      pose proof (getCachedResults_sorted queryCache k now H) as [G1 G2];
      destruct (getCachedResults queryCache k now) as [[cached|] cache']
  end; simpl in *.
  - split; [|exact G1]. apply paginateResults_sorted. now apply G2.
  - pose proof (computeResults_sorted powRound srv
                  (map (map toLowerCase) (parseSearchKeywords keyword))
                  (isTitleOnlyOf (qTitleOnly req)) base
                  (categoryFilterOf toLowerCase (qCategory req)) Hidx Hbase) as S.
    split; [now apply slice_sorted | now apply setCachedResults_sorted].
Qed.

Lemma apiSearch_sorted srv queryCache now req :
  indexOK (tokenIndex srv) -> cacheSorted queryCache ->
  StronglySorted precedes
    (resResults (fst (apiSearch toLowerCase powRound srv queryCache now req)))
  /\ cacheSorted (snd (apiSearch toLowerCase powRound srv queryCache now req)).
Proof.
  intros Hidx H. unfold apiSearch.
  destruct (qKeyword req) as [keyword|]; [|split; [constructor | exact H]].
  destruct (isEmpty keyword); [split; [constructor | exact H]|].
  match goal with
  | |- context [if ?t then _ else _] =>
      destruct t; [split; [constructor | exact H]|]
  end.
  apply searchKeyword_sorted; auto.
  intros b. apply parseBaseIndexes_NoDup.
Qed.

Lemma reachable_cacheSorted srv queryCache :
  indexOK (tokenIndex srv) ->
  reachable toLowerCase powRound srv queryCache -> cacheSorted queryCache.
Proof.
  intros Hidx. induction 1; [constructor | now apply apiSearch_sorted].
Qed.

(** C5.  In the response to any request that a loaded server answers, a
    result that comes before another one has a higher rank when their
    ranks differ, and a lower document identifier when their ranks are
    equal. *)
Theorem C5_response_order (records : list Doc) (queryCache : Cache) (now : Z)
    (req : Request) :
  reachable toLowerCase powRound (loadRecords records) queryCache ->
  forall (i j : nat) (a b : Result),
    (i < j)%nat ->
    nth_error (resResults (fst (apiSearch toLowerCase powRound
                                  (loadRecords records) queryCache now req))) i
    = Some a ->
    nth_error (resResults (fst (apiSearch toLowerCase powRound
                                  (loadRecords records) queryCache now req))) j
    = Some b ->
    (rank a <> rank b -> rank b < rank a)
    /\ (rank a = rank b -> index a < index b).
Proof.
  intros Hreach i j a b Hij Ha Hb.
  pose proof (loadRecords_ok records) as Hidx.
  pose proof (reachable_cacheSorted _ _ Hidx Hreach) as Hs.
  destruct (apiSearch_sorted (loadRecords records) queryCache now req Hidx Hs)
    as [S _].
  pose proof (StronglySorted_nth precedes _ S i j a b Hij Ha Hb) as P.
  unfold precedes in P. lia.
Qed.

(** A request either leaves the cache alone or consults it under its
    cache key. *)
Lemma apiSearch_cache_effect srv queryCache now req :
  match cacheKeyOf toLowerCase srv req with
  | None => snd (apiSearch toLowerCase powRound srv queryCache now req)
            = queryCache
  | Some cacheKey =>
      cacheKey <> []
      /\ exists res,
           snd (apiSearch toLowerCase powRound srv queryCache now req)
           = touch queryCache cacheKey now res
  end.
Proof.
  unfold cacheKeyOf, apiSearch.
  destruct (qKeyword req) as [keyword|]; [|reflexivity].
  destruct (isEmpty keyword); [reflexivity|].
  match goal with
  | |- context [if ?t then None else _] => destruct t; [reflexivity|]
  end.
  unfold searchKeyword.
  destruct (Z.of_nat (List.length (parseSearchKeywords keyword)) =? 0);
    [reflexivity|].
  cbv zeta. split; [apply buildCacheKey_nonempty|].
  unfold touch.
  match goal with
  | |- context [getCachedResults queryCache ?k now] =>
      destruct (getCachedResults queryCache k now) as [[cached|] cache']
  end; simpl.
  - exists []. reflexivity.
  - eexists. reflexivity.
Qed.

Lemma served_invariant srv queryCache lastUse clock :
  served toLowerCase powRound srv queryCache lastUse clock ->
  cacheOK queryCache
  /\ recencyOrdered lastUse queryCache
  /\ Forall (fun k => lastUse k <= clock) (JsMap.keys queryCache).
Proof.
  induction 1 as [|queryCache lastUse clock now req H (Hok & Hrec & Hle)].
  - split; [apply cacheOK_nil|]. split; constructor.
  - split; [now apply apiSearch_cacheOK|].
    pose proof (apiSearch_cache_effect srv queryCache now req) as Eff.
    destruct (cacheKeyOf toLowerCase srv req) as [cacheKey|].
    + destruct Eff as (Hkey & res & ->).
      now apply touch_recency.
    + rewrite Eff. split; [exact Hrec|].
      apply (Forall_impl _ (P := fun k => lastUse k <= clock)); [|exact Hle].
      intros k Hk. simpl. lia.
Qed.

Lemma served_reachable srv queryCache lastUse clock :
  served toLowerCase powRound srv queryCache lastUse clock ->
  reachable toLowerCase powRound srv queryCache.
Proof. induction 1; [constructor | now constructor]. Qed.

Lemma reachable_served srv queryCache :
  reachable toLowerCase powRound srv queryCache ->
  exists lastUse clock,
    served toLowerCase powRound srv queryCache lastUse clock.
Proof.
  induction 1 as [|queryCache now req H (lastUse & clock & IH)].
  - do 2 eexists. constructor.
  - do 2 eexists. constructor. exact IH.
Qed.

(** C7.  A cache that a server holds after serving requests has at most
    120 entries, and its map lists the entries from the least to the
    most recently used (a use being a request that consulted the cache
    under the key of the entry, whether it hit the entry or stored it).
    On such a cache:
    - a put leaves the entry of its key holding the new list, a key
      that was not cached being appended at the end of the map; when the
      map then has at most 120 entries nothing else changes, and when it
      has more exactly its first entry, the least recently used one, is
      removed, which brings it back to at most 120;
    - a get leaves at most 120 entries, and a live hit returns the cached
      list and moves the entry to the end of the map, the most recently
      used position. *)
Theorem C7_cache_bounded_lru (srv : Server) (queryCache : Cache)
    (lastUse : jsstring -> Z) (clock : Z) :
  served toLowerCase powRound srv queryCache lastUse clock ->
  JsMap.size queryCache <= CACHE_MAX_ENTRIES
  /\ recencyOrdered lastUse queryCache
  /\ (forall cacheKey res now, cacheKey <> [] ->
        let stored := JsMap.set queryCache cacheKey (mkEntry res now) in
        let after := setCachedResults queryCache cacheKey res now in
        JsMap.get after cacheKey = Some (mkEntry res now)
        /\ (JsMap.get queryCache cacheKey = None ->
            stored = queryCache ++ [(cacheKey, mkEntry res now)])
        /\ (JsMap.size stored <= CACHE_MAX_ENTRIES -> after = stored)
        /\ (CACHE_MAX_ENTRIES < JsMap.size stored ->
            exists oldest, stored = oldest :: after)
        /\ JsMap.size after <= CACHE_MAX_ENTRIES)
  /\ (forall cacheKey now,
        JsMap.size (snd (getCachedResults queryCache cacheKey now))
        <= CACHE_MAX_ENTRIES
        /\ forall entry,
             JsMap.get queryCache cacheKey = Some entry ->
             now - timestamp entry <= CACHE_TTL ->
             getCachedResults queryCache cacheKey now
             = (Some (results entry),
                JsMap.delete queryCache cacheKey ++ [(cacheKey, entry)])).
Proof.
  intros Hserved.
  destruct (served_invariant _ _ _ _ Hserved) as (Hok & Hrec & _).
  split; [apply Hok|]. split; [exact Hrec|]. split.
  - intros cacheKey res now Hkey.
    destruct (setCachedResults_spec queryCache cacheKey res now Hok Hkey)
      as (S1 & S2 & S3 & S4).
    repeat split; try assumption; [|apply S4].
    intros Hnone. apply set_absent. intros Hin.
    apply in_keys_get in Hin. destruct Hin as [e He]. congruence.
  - intros cacheKey now. split.
    + apply (getCachedResults_ok queryCache cacheKey now Hok).
    + intros entry G Hlive. unfold getCachedResults. rewrite G.
      destruct (Z.gtb_spec (now - timestamp entry) CACHE_TTL); [lia|].
      rewrite refresh_moves_to_end by apply Hok. reflexivity.
Qed.

End HandlerProperties.

(* ================================================================== *)
(** ** Input validation of the request handler *)

Lemma dropWhile_nil (p : jschar -> bool) (s : jsstring) :
  dropWhile p s = [] -> forall c, In c s -> p c = true.
Proof.
  induction s as [|x s IH]; simpl; [intros _ c []|].
  destruct (p x) eqn:E; [|discriminate].
  intros H c [<-|Hc]; auto.
Qed.

Lemma dropWhile_head (p : jschar -> bool) (s : jsstring) c r :
  dropWhile p s = c :: r -> p c = false /\ In c s.
Proof.
  induction s as [|x s IH]; simpl; [discriminate|].
  destruct (p x) eqn:E.
  - intros H. destruct (IH H). auto.
  - intros [= <- <-]. auto.
Qed.

Lemma trim_nil (s : jsstring) :
  trim s = [] -> dropWhile isWhiteSpace s = [].
Proof.
  unfold trim. intros H.
  apply (f_equal (@rev jschar)) in H. rewrite rev_involutive in H. simpl in H.
  destruct (dropWhile isWhiteSpace s) as [|c r] eqn:D; [reflexivity|].
  apply dropWhile_head in D. destruct D as [Hc _].
  pose proof (dropWhile_nil _ _ H c) as W.
  rewrite W in Hc; [discriminate|]. apply in_rev. rewrite rev_involutive. now left.
Qed.

Lemma split_no_separator (sep : jschar) (s : jsstring) :
  (forall c, In c s -> c <> sep) -> split sep s = [s].
Proof.
  induction s as [|x s IH]; intros H; simpl; [reflexivity|].
  destruct (Z.eqb_spec x sep) as [E|_]; [exfalso; apply (H x); simpl; auto|].
  rewrite IH; [reflexivity|]. intros c Hc. apply H. now right.
Qed.

Lemma validIndexes_In (srv : Server) (s : jsstring) (i : Z) :
  In i (validIndexes srv s)
  <-> exists entry, In entry (split commaChar s) /\ namesValidDoc srv entry i.
Proof.
  unfold validIndexes, namesValidDoc. rewrite in_flat_map. split.
  - intros (o & Ho & Hi). apply filter_In in Ho. destruct Ho as [Ho Hv].
    apply in_map_iff in Ho. destruct Ho as (entry & <- & He).
    destruct (parseInt entry) as [n|] eqn:P; [|destruct Hi].
    destruct Hi as [<-|[]]. exists entry. split; [exact He|].
    split; [exact P|]. unfold isValidIndex in Hv. lia.
  - intros (entry & He & P & Hr). exists (Some i). split; [|now left].
    apply filter_In. split.
    + apply in_map_iff. exists entry. auto.
    + unfold isValidIndex. lia.
Qed.

(** A restriction that is blank names no document. *)
Lemma blank_names_no_document (srv : Server) (s : jsstring) :
  trim s = [] -> validIndexes srv s = [].
Proof.
  intros H. apply trim_nil in H.
  pose proof (dropWhile_nil _ _ H) as W.
  unfold validIndexes. rewrite split_no_separator.
  - simpl. unfold parseInt. rewrite H. reflexivity.
  - intros c Hc E. subst c. specialize (W _ Hc). discriminate.
Qed.

Lemma ofList_nil_iff (l : list Z) : JsSet.ofList l = [] <-> l = [].
Proof.
  split; [|intros ->; reflexivity].
  intros H. destruct l as [|x l]; [reflexivity|].
  assert (In x (JsSet.ofList (x :: l))) by (apply ofList_In; now left).
  rewrite H in *. contradiction.
Qed.

Section ValidationProperties.

Variable toLowerCase : jsstring -> jsstring.
Variable powRound : Z -> Z -> Z -> Z.

(** C9.  A request whose keyword is absent or empty, or parses to no
    group, or whose base-index restriction is not blank and has no entry
    that names a document of the store, is answered with the empty
    result set: no results, [total] 0 and [totalPages] 0, and the cache
    is left as it was. *)
Theorem C9_empty_result_set (srv : Server) (queryCache : Cache) (now : Z)
    (req : Request) :
  (qKeyword req = None \/ qKeyword req = Some []
   \/ (exists keyword, qKeyword req = Some keyword
                       /\ parseSearchKeywords keyword = [])
   \/ (exists s, qBaseIndexes req = Some s /\ trim s <> []
                 /\ forall entry i, In entry (split commaChar s) ->
                      ~ namesValidDoc srv entry i)) ->
  apiSearch toLowerCase powRound srv queryCache now req
  = (mkResponse [] 0 (pageNumOf (qPage req)) 0 (sizeOf (qPageSize req)),
     queryCache).
Proof.
  intros H. unfold apiSearch, emptyResponse.
  destruct (qKeyword req) as [keyword|] eqn:K; [|reflexivity].
  destruct (isEmpty keyword) eqn:E; [reflexivity|].
  apply isEmpty_false in E.
  destruct H as [H|[H|[(kw & H & P)|(s & B & T & V)]]]; try congruence.
  - injection H as <-.
    match goal with
    | |- (if ?t then _ else _) = _ => destruct t; [reflexivity|]
    end.
    unfold searchKeyword. rewrite P. reflexivity.
  - rewrite B. unfold parseBaseIndexes.
    assert (L : (0 <? len (trim s)) = true)
      by (apply Z.ltb_lt; unfold len; destruct (trim s); simpl; [congruence | lia]).
    rewrite L.
    assert (Vs : validIndexes srv s = []).
    { destruct (validIndexes srv s) as [|i l] eqn:Vi; [reflexivity|].
      assert (Hi : In i (validIndexes srv s)) by (rewrite Vi; now left).
      apply validIndexes_In in Hi. destruct Hi as (entry & He & Hn).
      exfalso. exact (V entry i He Hn). }
    rewrite Vs. reflexivity.
Qed.

End ValidationProperties.

(* ================================================================== *)
(** ** The properties at concrete requests *)

Lemma C5_response_order_witness :
  index (mkResult 0 41 (docOf "foo" "")) < index (mkResult 1 41 (docOf "foobar" "")).
Proof.
  refine (proj2 (C5_response_order asciiLower exactPowRound
                   [docOf "foo" ""; docOf "foobar" ""]
                   (snd (apiSearch asciiLower exactPowRound fooServer [] 0
                           (requestOf "foo")))
                   1000 (requestOf "oo") _ 0%nat 1%nat
                   (mkResult 0 41 (docOf "foo" ""))
                   (mkResult 1 41 (docOf "foobar" "")) _ _ _) _).
  - apply reachable_request. apply reachable_load.
  - lia.
  - vm_compute. reflexivity.
  - vm_compute. reflexivity.
  - reflexivity.
Defined.

Lemma C7_cache_bounded_lru_witness :
  JsMap.size (snd (apiSearch asciiLower exactPowRound guideServer
                     (snd (apiSearch asciiLower exactPowRound guideServer [] 0
                             (requestOf "guide")))
                     1000 (requestOf "intro")))
  <= CACHE_MAX_ENTRIES.
Proof.
  refine (proj1 (C7_cache_bounded_lru asciiLower exactPowRound guideServer
                   _ _ _ (served_request _ _ _ _ _ _ 1000 (requestOf "intro")
                            (served_request _ _ _ _ _ _ 0 (requestOf "guide")
                               (served_load _ _ _))))).
Defined.

(** Two requests, then a third that repeats the first: its entry moves
    behind the entry of the second. *)
Example recency_example :
  JsMap.keys
    (snd (apiSearch asciiLower exactPowRound guideServer
            (snd (apiSearch asciiLower exactPowRound guideServer
                    (snd (apiSearch asciiLower exactPowRound guideServer [] 0
                            (requestOf "guide")))
                    1000 (requestOf "intro")))
            2000 (requestOf "guide")))
  = [lit "0|intro||"; lit "0|guide||"].
Proof. vm_compute. reflexivity. Qed.

Lemma C9_empty_result_set_witness :
  apiSearch asciiLower exactPowRound guideServer [] 0
    (mkRequest (Some (lit "guide")) None None None (Some (lit "x,7,-1")) None)
  = (mkResponse [] 0 1 0 20, []).
Proof.
  apply (C9_empty_result_set asciiLower exactPowRound guideServer [] 0
           (mkRequest (Some (lit "guide")) None None None
              (Some (lit "x,7,-1")) None)).
  right. right. right. exists (lit "x,7,-1").
  split; [reflexivity|]. split; [vm_compute; discriminate|].
  intros entry i Hin [P R]. vm_compute in Hin.
  destruct Hin as [<-|[<-|[<-|[]]]]; vm_compute in P;
    try discriminate; injection P as <-; vm_compute in R;
    destruct R as [R1 R2]; try (now apply R1); discriminate.
Defined.

(** C10.  A request restricted to a valid identifier can be answered with
    a document outside the restriction.  On the store of three
    documents, the request for the keyword [a|1] restricted to
    document 2 and the request for the keyword [a] restricted to
    document 1 with the category [2|] are given the same cache key,
    [0|a|1|2|]: the parts of the key are joined by the bar that a
    keyword and a category may contain.  Served within the lifetime of
    the cache entry of the first, the second is answered with
    document 2, which is neither document 1 nor of the category asked
    for; on an empty cache it is answered with no document. *)
Theorem C10_restriction_lost_through_cache_key :
  cacheKeyOf asciiLower shelfServer (restrictedRequestOf "a|1" "2" None)
  = Some (lit "0|a|1|2|")
  /\ cacheKeyOf asciiLower shelfServer
       (restrictedRequestOf "a" "1" (Some (lit "2|")))
     = Some (lit "0|a|1|2|")
  /\ parseBaseIndexes shelfServer
       (qBaseIndexes (restrictedRequestOf "a" "1" (Some (lit "2|"))))
     = Some [1]
  /\ map index
       (resResults
          (fst (apiSearch asciiLower exactPowRound shelfServer
                  (snd (apiSearch asciiLower exactPowRound shelfServer [] 0
                          (restrictedRequestOf "a|1" "2" None)))
                  1000 (restrictedRequestOf "a" "1" (Some (lit "2|"))))))
     = [2]
  /\ map index
       (resResults
          (fst (apiSearch asciiLower exactPowRound shelfServer [] 1000
                  (restrictedRequestOf "a" "1" (Some (lit "2|"))))))
     = [].
Proof. repeat split; vm_compute; reflexivity. Qed.

(** A [baseIndexes] parameter of white space only is no restriction:
    the handler tests [baseIndexes.trim().length > 0]. *)
Example blank_restriction_example :
  parseBaseIndexes guideServer (Some (lit "  ")) = None
  /\ map index
       (resResults
          (fst (apiSearch asciiLower exactPowRound guideServer [] 0
                  (mkRequest (Some (lit "guide")) None None None
                     (Some (lit "  ")) None))))
     = [0].
Proof. split; vm_compute; reflexivity. Qed.

Example base_indexes_example :
  parseBaseIndexes fooServer (Some (lit "1,x,1,9, 0")) = Some [1; 0].
Proof. vm_compute. reflexivity. Qed.

(** The end-to-end example of the specification: one document titled
    Intro Guide with content [guide guide tutorial], keyword [guide],
    score 43. *)
Example guide_example :
  map (fun r => (index r, rank r))
      (resResults (fst (apiSearch asciiLower exactPowRound guideServer [] 0
                          (requestOf "guide"))))
  = [(0, 43)].
Proof. vm_compute. reflexivity. Qed.

(* ================================================================== *)
(** ** Trimming and splitting *)

Lemma dropWhile_suffix (p : jschar -> bool) (s : jsstring) :
  exists pre, s = pre ++ dropWhile p s /\ forall c, In c pre -> p c = true.
Proof.
  induction s as [|x s (pre & E & H)]; simpl.
  - exists []. split; [reflexivity | intros c []].
  - destruct (p x) eqn:Px.
    + exists (x :: pre). split; [simpl; now rewrite <- E|].
      intros c [<-|Hc]; auto.
    + exists []. split; [reflexivity | intros c []].
Qed.

Lemma dropWhile_keeps (p : jschar -> bool) (s : jsstring) :
  match s with
  | [] => True
  | c :: _ => p c = false
  end ->
  dropWhile p s = s.
Proof. destruct s as [|c s]; simpl; [reflexivity|]. now intros ->. Qed.

Lemma dropWhile_app_stop (p : jschar -> bool) (l1 l2 : jsstring) (x : jschar) :
  p x = false ->
  dropWhile p (l1 ++ x :: l2) = dropWhile p l1 ++ x :: l2.
Proof.
  intros Hx. induction l1 as [|c l1 IH]; simpl.
  - now rewrite Hx.
  - destruct (p c); [exact IH | reflexivity].
Qed.

Lemma trim_In (s : jsstring) (c : jschar) : In c (trim s) -> In c s.
Proof.
  unfold trim. intros H. apply in_rev in H.
  destruct (dropWhile_suffix isWhiteSpace (rev (dropWhile isWhiteSpace s)))
    as (pre & E & _).
  assert (H1 : In c (rev (dropWhile isWhiteSpace s)))
    by (rewrite E; apply in_or_app; now right).
  apply in_rev in H1.
  destruct (dropWhile_suffix isWhiteSpace s) as (pre' & E' & _).
  rewrite E'. apply in_or_app. now right.
Qed.

(** A string that is empty, or begins and ends with code units that are
    not white space, is left as it is by [trim]. *)
Lemma trim_fixed (s : jsstring) :
  match s with
  | [] => True
  | c :: _ => isWhiteSpace c = false
  end ->
  match rev s with
  | [] => True
  | c :: _ => isWhiteSpace c = false
  end ->
  trim s = s.
Proof.
  intros H1 H2. unfold trim.
  rewrite (dropWhile_keeps _ s H1), (dropWhile_keeps _ (rev s) H2).
  apply rev_involutive.
Qed.

Lemma trim_ends (s : jsstring) :
  match trim s with
  | [] => True
  | c :: _ => isWhiteSpace c = false
  end
  /\ match rev (trim s) with
     | [] => True
     | c :: _ => isWhiteSpace c = false
     end.
Proof.
  unfold trim. rewrite rev_involutive.
  set (d := dropWhile isWhiteSpace s).
  assert (Hd : match d with [] => True | c :: _ => isWhiteSpace c = false end).
  { unfold d. destruct (dropWhile isWhiteSpace s) as [|c r] eqn:E; [exact I|].
    now apply dropWhile_head in E. }
  set (e := dropWhile isWhiteSpace (rev d)).
  assert (He : match e with [] => True | c :: _ => isWhiteSpace c = false end).
  { unfold e. destruct (dropWhile isWhiteSpace (rev d)) as [|c r] eqn:E; [exact I|].
    now apply dropWhile_head in E. }
  split; [|exact He].
  destruct (dropWhile_suffix isWhiteSpace (rev d)) as (pre & E & Hpre).
  fold e in E.
  destruct d as [|c d']; [simpl in *; subst e; simpl; exact I|].
  assert (Hrev : c :: d' = rev e ++ rev pre)
    by (rewrite <- rev_app_distr, <- E; symmetry; apply rev_involutive).
  destruct (rev e) as [|c' r'] eqn:Re.
  - (* everything was dropped: impossible, [c] is not white space *)
    simpl in Hrev.
    assert (In c (rev pre)) by (rewrite <- Hrev; now left).
    apply in_rev in H. rewrite (Hpre c H) in Hd. discriminate.
  - simpl in Hrev. injection Hrev as <- _. exact Hd.
Qed.

Lemma trim_idempotent (s : jsstring) : trim (trim s) = trim s.
Proof. destruct (trim_ends s). now apply trim_fixed. Qed.

Lemma trim_nonempty_head (s : jsstring) :
  trim s <> [] -> exists c r, trim s = c :: r /\ isWhiteSpace c = false.
Proof.
  intros H. destruct (trim_ends s) as [H1 _].
  destruct (trim s) as [|c r]; [congruence|]. eauto.
Qed.

Lemma split_nonempty (sep : jschar) (s : jsstring) : split sep s <> [].
Proof.
  destruct s as [|c s]; simpl; [discriminate|].
  destruct (c =? sep); [discriminate|].
  destruct (split sep s); discriminate.
Qed.

Lemma split_pieces (sep : jschar) (s : jsstring) (piece : jsstring) :
  In piece (split sep s) ->
  ~ In sep piece /\ forall c, In c piece -> In c s.
Proof.
  revert piece; induction s as [|x s IH]; intros piece; simpl.
  - intros [<-|[]]. split; [intros [] | intros c []].
  - destruct (Z.eqb_spec x sep) as [E|E].
    + intros [<-|H]; [split; [intros [] | intros c []]|].
      destruct (IH piece H) as [H1 H2]. split; [exact H1 | auto].
    + pose proof (split_nonempty sep s) as Hne.
      destruct (split sep s) as [|p ps]; [congruence|].
      intros [<-|H].
      * destruct (IH p (or_introl eq_refl)) as [H1 H2]. split.
        -- intros [C|C]; [congruence | contradiction].
        -- intros c [<-|Hc]; auto.
      * destruct (IH piece (or_intror H)) as [H1 H2]. split; [exact H1 | auto].
Qed.

Lemma split_first (sep : jschar) (first rest : jsstring) :
  ~ In sep first ->
  split sep (first ++ sep :: rest) = first :: split sep rest.
Proof.
  induction first as [|x first IH]; intros H; simpl.
  - now rewrite Z.eqb_refl.
  - destruct (Z.eqb_spec x sep) as [E|E]; [exfalso; apply H; now left|].
    rewrite IH; [reflexivity|]. intros C. apply H. now right.
Qed.

Lemma split_head_prefix (sep : jschar) (c : jschar) (s : jsstring) :
  c <> sep -> exists r ps, split sep (c :: s) = (c :: r) :: ps.
Proof.
  intros H. simpl. destruct (Z.eqb_spec c sep); [congruence|].
  pose proof (split_nonempty sep s).
  destruct (split sep s) as [|p ps]; [congruence|]. eauto.
Qed.

(* ================================================================== *)
(** ** Line endings, categories and display titles *)

Lemma replacePair_without_first (a b : jschar) (by_ s : jsstring) :
  ~ In a s -> replacePair a b by_ s = s.
Proof.
  induction s as [|x s IH]; intros H; [reflexivity|].
  destruct s as [|y rest]; [reflexivity|].
  cbn [replacePair].
  destruct (Z.eqb_spec x a) as [E|_]; [exfalso; apply H; now left|].
  cbn [andb]. f_equal. apply IH. intros C. apply H. now right.
Qed.

Lemma replacePair_without_second (a b : jschar) (by_ s : jsstring) :
  ~ In b s -> replacePair a b by_ s = s.
Proof.
  induction s as [|x s IH]; intros H; [reflexivity|].
  destruct s as [|y rest]; [reflexivity|].
  cbn [replacePair].
  destruct (Z.eqb_spec y b) as [E|_]; [exfalso; apply H; right; now left|].
  rewrite andb_false_r. f_equal. apply IH. intros C. apply H. now right.
Qed.

Lemma replaceChar_removes (a by_ : jschar) (s : jsstring) :
  a <> by_ -> ~ In a (replaceChar a by_ s).
Proof.
  intros Hne H. unfold replaceChar in H. apply in_map_iff in H.
  destruct H as (c & E & _). destruct (Z.eqb_spec c a); congruence.
Qed.

Lemma replaceChar_without (a by_ : jschar) (s : jsstring) :
  ~ In a s -> replaceChar a by_ s = s.
Proof.
  induction s as [|x s IH]; intros H; simpl; [reflexivity|].
  destruct (Z.eqb_spec x a) as [E|_]; [exfalso; apply H; now left|].
  f_equal. apply IH. intros C. apply H. now right.
Qed.

Lemma normalizeLineEndings_without (text : jsstring) :
  ~ In crChar text -> normalizeLineEndings text = text.
Proof.
  intros H. unfold normalizeLineEndings.
  rewrite (replacePair_without_first crChar lfChar [lfChar] text H).
  rewrite (replacePair_without_second lfChar crChar [lfChar] text H).
  now apply replaceChar_without.
Qed.

Lemma normalizeLineEndings_no_cr (text : jsstring) :
  ~ In crChar (normalizeLineEndings text).
Proof. apply replaceChar_removes; discriminate. Qed.

(** X1.  The normalized text holds no carriage return; a text without one is
    left as it is, so that normalizing twice changes nothing more. *)
Theorem normalizeLineEndings_removes_cr (text : jsstring) :
  ~ In crChar (normalizeLineEndings text)
  /\ (~ In crChar text -> normalizeLineEndings text = text)
  /\ normalizeLineEndings (normalizeLineEndings text)
     = normalizeLineEndings text.
Proof.
  pose proof (normalizeLineEndings_no_cr text) as H.
  split; [exact H|]. split; [apply normalizeLineEndings_without|].
  now apply normalizeLineEndings_without.
Qed.

Lemma trimmed_head (c : jsstring) :
  c <> [] -> trim c = c ->
  exists x r, c = x :: r /\ isWhiteSpace x = false.
Proof.
  intros Hne Ht. destruct (trim_nonempty_head c) as (x & r & E & Hx);
    [congruence|].
  rewrite Ht in E. eauto.
Qed.

(** Trimming a string whose first part is trimmed and followed by a
    separator that is not white space only touches what follows. *)
Lemma trim_after_separator (c rest : jsstring) (sep : jschar) :
  c <> [] -> trim c = c -> isWhiteSpace sep = false ->
  exists rest', trim (c ++ sep :: rest) = c ++ sep :: rest'.
Proof.
  intros Hne Ht Hsep.
  destruct (trimmed_head c Hne Ht) as (x & r & -> & Hx).
  unfold trim. cbn [app dropWhile]. rewrite Hx.
  change (x :: r ++ sep :: rest) with ((x :: r) ++ sep :: rest).
  rewrite rev_app_distr. cbn [rev]. rewrite <- app_assoc. cbn [app].
  rewrite (dropWhile_app_stop isWhiteSpace (rev rest) (rev r ++ [x]) sep Hsep).
  rewrite rev_app_distr. cbn [rev]. rewrite rev_app_distr, rev_involutive.
  cbn [rev app]. rewrite <- app_assoc. cbn [app].
  eexists. reflexivity.
Qed.

(** X2.  The category is never empty, holds no slash and is trimmed; and a
    path that, once the topics prefix is stripped, starts with a trimmed
    segment followed by a slash has that segment as its category. *)
Theorem extractCategory_first_segment (sanitizedPath : jsstring) :
  extractCategory sanitizedPath <> []
  /\ ~ In slashChar (extractCategory sanitizedPath)
  /\ trim (extractCategory sanitizedPath) = extractCategory sanitizedPath
  /\ forall c rest,
       c <> [] -> trim c = c -> ~ In slashChar c ->
       stripTopicsPrefix sanitizedPath = c ++ slashChar :: rest ->
       extractCategory sanitizedPath = c.
Proof.
  assert (D : DEFAULT_CATEGORY <> [] /\ ~ In slashChar DEFAULT_CATEGORY
              /\ trim DEFAULT_CATEGORY = DEFAULT_CATEGORY).
  { split; [discriminate|]. split; [|vm_compute; reflexivity].
    vm_compute. intuition discriminate. }
  unfold extractCategory.
  destruct (isEmpty sanitizedPath) eqn:Ep.
  { repeat split; try apply D.
    intros c rest Hc _ _ E. apply isEmpty_true in Ep. subst.
    simpl in E. destruct c; discriminate. }
  destruct (isEmpty (trim (stripTopicsPrefix sanitizedPath))) eqn:En.
  { repeat split; try apply D.
    intros c rest Hc Ht Hs E. rewrite E in En.
    destruct (trim_after_separator c rest slashChar Hc Ht eq_refl) as [r' T].
    rewrite T in En. destruct c; discriminate. }
  cbv zeta.
  pose proof (split_nonempty slashChar (trim (stripTopicsPrefix sanitizedPath)))
    as Hsplit.
  destruct (split slashChar (trim (stripTopicsPrefix sanitizedPath)))
    as [|first others] eqn:Es; [congruence|].
  assert (Hfirst : ~ In slashChar first)
    by (apply (split_pieces slashChar
                 (trim (stripTopicsPrefix sanitizedPath)) first);
        rewrite Es; now left).
  assert (G : forall c rest,
            c <> [] -> trim c = c -> ~ In slashChar c ->
            stripTopicsPrefix sanitizedPath = c ++ slashChar :: rest ->
            first = c).
  { intros c rest Hc Ht Hs E. rewrite E in Es.
    destruct (trim_after_separator c rest slashChar Hc Ht eq_refl) as [r' T].
    rewrite T, (split_first slashChar c r' Hs) in Es. congruence. }
  destruct (isEmpty first) eqn:Ef.
  { simpl. repeat split; try apply D.
    intros c rest Hc Ht Hs E. rewrite <- (G c rest Hc Ht Hs E) in Hc.
    apply isEmpty_true in Ef. congruence. }
  destruct (isEmpty (trim first)) eqn:Et.
  { repeat split; try apply D.
    intros c rest Hc Ht Hs E. rewrite (G c rest Hc Ht Hs E), Ht in Et.
    apply isEmpty_true in Et. congruence. }
  repeat split.
  - now apply isEmpty_false.
  - intros C. apply Hfirst. now apply trim_In.
  - apply trim_idempotent.
  - intros c rest Hc Ht Hs E. now rewrite (G c rest Hc Ht Hs E).
Qed.

Lemma trim_head_kept (c : jschar) (r : jsstring) :
  isWhiteSpace c = false -> trim (c :: r) <> [].
Proof.
  intros Hc. unfold trim. cbn [dropWhile]. rewrite Hc. cbn [rev].
  rewrite (dropWhile_app_stop isWhiteSpace (rev r) [] c Hc).
  rewrite rev_app_distr. discriminate.
Qed.

(** X3.  The display title is never empty.  When the title holds a code unit
    that is not white space, the display title is the trimmed first line
    of the trimmed, normalized title, without any line break; the path is
    only consulted for a blank title. *)
Theorem buildDisplayTitle_from_title (rawTitle sourcePath : jsstring) :
  buildDisplayTitle rawTitle sourcePath <> []
  /\ (trim (normalizeLineEndings rawTitle) <> [] ->
      buildDisplayTitle rawTitle sourcePath
      = trim (hd [] (split lfChar (trim (normalizeLineEndings rawTitle))))
      /\ ~ In lfChar (buildDisplayTitle rawTitle sourcePath)
      /\ ~ In crChar (buildDisplayTitle rawTitle sourcePath))
  /\ (trim (normalizeLineEndings rawTitle) = [] ->
      buildDisplayTitle rawTitle sourcePath
      = buildDisplayTitle [] sourcePath).
Proof.
  assert (P : buildDisplayTitle [] sourcePath <> []).
  { unfold buildDisplayTitle. cbn [isEmpty].
    destruct (isEmpty sourcePath); [discriminate|].
    destruct (isEmpty (stripHtmlExtension _)) eqn:E; [discriminate|].
    now apply isEmpty_false. }
  destruct (trim (normalizeLineEndings rawTitle)) as [|c r] eqn:N.
  - assert (E : buildDisplayTitle rawTitle sourcePath
                = buildDisplayTitle [] sourcePath).
    { unfold buildDisplayTitle. rewrite N. cbn [isEmpty].
      now destruct (isEmpty rawTitle). }
    rewrite E. split; [exact P|]. split; [congruence | reflexivity].
  - assert (Hc : isWhiteSpace c = false).
    { destruct (trim_nonempty_head (normalizeLineEndings rawTitle))
        as (c' & r' & E & H); [congruence|]. congruence. }
    assert (Hlf : c <> lfChar) by (intros ->; discriminate).
    destruct (split_head_prefix lfChar c r Hlf) as (line & others & Es).
    assert (Hraw : isEmpty rawTitle = false).
    { destruct rawTitle; [discriminate N | reflexivity]. }
    assert (E : buildDisplayTitle rawTitle sourcePath = trim (c :: line)).
    { unfold buildDisplayTitle. rewrite Hraw, N, Es. cbn [isEmpty hd].
      pose proof (trim_head_kept c line Hc) as T.
      apply isEmpty_false in T. now rewrite T. }
    rewrite E, Es. cbn [hd].
    split; [now apply trim_head_kept|]. split; [|discriminate].
    intros _. split; [reflexivity|].
    assert (Hpiece : In (c :: line) (split lfChar (c :: r)))
      by (rewrite Es; now left).
    destruct (split_pieces lfChar (c :: r) (c :: line) Hpiece) as [S1 S2].
    split.
    + intros C. apply S1. now apply trim_In.
    + intros C. apply trim_In, S2 in C. rewrite <- N in C.
      apply trim_In in C.
      now apply (normalizeLineEndings_no_cr rawTitle).
Qed.

(* ================================================================== *)
(** ** Loading *)

Lemma fold_ingest_searchData (records : list Doc) (srv : Server) :
  searchData (fold_left ingest records srv) = searchData srv ++ records.
Proof.
  revert srv; induction records as [|d records IH]; intros srv; simpl.
  - now rewrite app_nil_r.
  - rewrite IH. simpl. now rewrite <- app_assoc.
Qed.

Lemma loadRecords_searchData (records : list Doc) :
  searchData (loadRecords records) = records.
Proof. unfold loadRecords. now rewrite fold_ingest_searchData. Qed.

Lemma docAt_loadRecords (records : list Doc) (i : nat) :
  docAt (loadRecords records) (Z.of_nat i) = nth_error records i.
Proof.
  unfold docAt. rewrite loadRecords_searchData, Nat2Z.id.
  destruct (Z.ltb_spec (Z.of_nat i) 0); [lia | reflexivity].
Qed.

Lemma triples_ind (P : list jsstring -> Prop) :
  P [] -> (forall a, P [a]) -> (forall a b, P [a; b]) ->
  (forall a b c rest, P rest -> P (a :: b :: c :: rest)) ->
  forall l, P l.
Proof.
  intros H0 H1 H2 H3. fix IH 1.
  intros [|a [|b [|c rest]]];
    [exact H0 | apply H1 | apply H2 | apply H3; apply IH].
Qed.

Lemma collapseBackslashes_none (s : jsstring) (inRun : bool) :
  ~ In backslashChar (collapseBackslashes s inRun).
Proof.
  revert inRun; induction s as [|c s IH]; intros inRun; simpl; [tauto|].
  destruct (Z.eqb_spec c backslashChar) as [E|E].
  - destruct inRun; [apply IH|]. intros [C|C]; [discriminate | now apply IH in C].
  - intros [C|C]; [congruence | now apply IH in C].
Qed.

Section LoadingProperties.

Variable toLowerCase : jsstring -> jsstring.

Lemma recordOf_normalized (c t p : jsstring) :
  recordNormalized toLowerCase (recordOf toLowerCase c t p).
Proof.
  unfold recordNormalized, recordOf. cbn [titleLower contentLower content title
                                           path category].
  repeat split.
  - apply normalizeLineEndings_no_cr.
  - intros C. apply trim_In in C.
    now apply (normalizeLineEndings_no_cr t).
  - apply trim_idempotent.
  - apply collapseBackslashes_none.
Qed.

(** X4.  Loading keeps one document per complete triple of the data array,
    in order, entries after the last complete triple being dropped: the
    store holds [length / 3] documents, document [i] is built from the
    entries [3i], [3i + 1] and [3i + 2], and every document is
    normalized (lower-case projections of its own title and content, no
    carriage return, a trimmed title, no backslash in the path, the
    category of its path). *)
Theorem loadSearchData_documents (rawContents : list jsstring) :
  List.length (searchData (loadSearchData toLowerCase rawContents))
  = (List.length rawContents / 3)%nat
  /\ (forall (i : nat) (d : Doc),
        docAt (loadSearchData toLowerCase rawContents) (Z.of_nat i) = Some d ->
        exists c t p,
          nth_error rawContents (3 * i) = Some c
          /\ nth_error rawContents (3 * i + 1) = Some t
          /\ nth_error rawContents (3 * i + 2) = Some p
          /\ d = recordOf toLowerCase c t p)
  /\ Forall (recordNormalized toLowerCase)
       (searchData (loadSearchData toLowerCase rawContents)).
Proof.
  unfold loadSearchData. rewrite loadRecords_searchData.
  split; [|split].
  - induction rawContents as [| | |a b c rest IH] using triples_ind;
      try reflexivity.
    cbn [recordsOf List.length]. rewrite IH.
    change (S (S (S (List.length rest)))) with (1 * 3 + List.length rest)%nat.
    now rewrite Nat.div_add_l by discriminate.
  - intros i d. rewrite docAt_loadRecords. revert i.
    induction rawContents as [| | |a b c rest IH] using triples_ind;
      intros i; try (destruct i; discriminate).
    cbn [recordsOf]. destruct i as [|i].
    + intros [= <-]. exists a, b, c. repeat split.
    + cbn [nth_error]. intros H. destruct (IH i H) as (c' & t' & p' & N1 & N2 & N3 & E).
      exists c', t', p'.
      replace (3 * S i)%nat with (S (S (S (3 * i)))) by lia.
      replace (S (S (S (3 * i))) + 1)%nat with (S (S (S (3 * i + 1)))) by lia.
      replace (S (S (S (3 * i))) + 2)%nat with (S (S (S (3 * i + 2)))) by lia.
      cbn [nth_error]. auto.
  - induction rawContents as [| | |a b c rest IH] using triples_ind;
      try constructor; [apply recordOf_normalized | exact IH].
Qed.

End LoadingProperties.

(* ================================================================== *)
(** ** The tokenizer *)

Lemma isTokenChar_not_space (c : jschar) :
  isTokenChar c = true -> isWhiteSpace c = false.
Proof.
  unfold isTokenChar, isWhiteSpace, isDigit. intros H.
  repeat rewrite ?orb_true_iff, ?andb_true_iff, ?Z.leb_le in H.
  repeat rewrite ?orb_false_iff, ?andb_false_iff, ?Z.leb_gt, ?Z.eqb_neq.
  lia.
Qed.

Lemma splitOnSeparators_nonempty (text : jsstring) (inSeparator : bool) :
  splitOnSeparators text inSeparator <> [].
Proof.
  revert inSeparator; induction text as [|c text IH]; intros b; simpl;
    [discriminate|].
  destruct (isTokenChar c).
  - destruct (splitOnSeparators text false); discriminate.
  - destruct b; [apply IH | discriminate].
Qed.

(** Every piece is a run of token characters that occurs in the text,
    and outside a separator run the first piece is a prefix of it. *)
Lemma splitOnSeparators_pieces (text : jsstring) (inSeparator : bool) :
  (forall piece, In piece (splitOnSeparators text inSeparator) ->
     Forall (fun c => isTokenChar c = true) piece /\ occursIn piece text)
  /\ (inSeparator = false ->
      exists post, text = hd [] (splitOnSeparators text inSeparator) ++ post).
Proof.
  revert inSeparator; induction text as [|c text IH]; intros b.
  - simpl. split.
    + intros piece [<-|[]]. split; [constructor | exists [], []; reflexivity].
    + intros _. exists []. reflexivity.
  - cbn [splitOnSeparators]. destruct (isTokenChar c) eqn:Tc.
    + destruct (IH false) as [IH1 IH2].
      pose proof (splitOnSeparators_nonempty text false) as Hne.
      destruct (splitOnSeparators text false) as [|p ps]; [congruence|].
      destruct (IH2 eq_refl) as [post Epost]. cbn [hd] in Epost.
      split.
      * intros piece [<-|Hin].
        -- split.
           ++ constructor; [exact Tc | now apply (IH1 p); left].
           ++ exists [], post. cbn [app]. now rewrite Epost at 1.
        -- destruct (IH1 piece (or_intror Hin)) as [F (pre & post' & E)].
           split; [exact F|]. exists (c :: pre), post'. cbn [app]. now rewrite E at 1.
      * intros _. exists post. cbn [hd app]. now rewrite Epost at 1.
    + destruct (IH true) as [IH1 _]. destruct b.
      * split; [|discriminate].
        intros piece Hin. destruct (IH1 piece Hin) as [F (pre & post' & E)].
        split; [exact F|]. exists (c :: pre), post'. cbn [app]. now rewrite E at 1.
      * split.
        -- intros piece [<-|Hin].
           ++ split; [constructor | exists [], (c :: text); reflexivity].
           ++ destruct (IH1 piece Hin) as [F (pre & post' & E)].
              split; [exact F|]. exists (c :: pre), post'. cbn [app].
              now rewrite E at 1.
        -- intros _. exists (c :: text). reflexivity.
Qed.

Lemma dedupe_spec (seen pieces : list jsstring) :
  NoDup (dedupe seen pieces)
  /\ forall t, In t (dedupe seen pieces) <-> In t pieces /\ ~ In t seen.
Proof.
  revert seen; induction pieces as [|p pieces IH]; intros seen; simpl.
  - split; [constructor | tauto].
  - destruct (existsb (streq p) seen) eqn:E.
    + destruct (IH seen) as [N I]. split; [exact N|].
      apply existsb_exists in E. destruct E as (q & Hq & Eq).
      apply streq_eq in Eq. subst q.
      intros t. rewrite I. split; [tauto|].
      intros [[<-|H] Hn]; [contradiction | tauto].
    + assert (Hp : ~ In p seen).
      { intros C. assert (existsb (streq p) seen = true); [|congruence].
        apply existsb_exists. exists p. split; [exact C | apply streq_refl]. }
      destruct (IH (p :: seen)) as [N I]. split.
      * constructor; [|exact N]. rewrite I. simpl. tauto.
      * intros t. simpl. rewrite I. simpl.
        destruct (list_eq_dec Z.eq_dec p t) as [->|Hne]; tauto.
Qed.

Lemma token_chars_trimmed (piece : jsstring) :
  Forall (fun c => isTokenChar c = true) piece -> trim piece = piece.
Proof.
  intros F. apply trim_fixed.
  - destruct piece as [|c r]; [exact I|]. inversion F; subst.
    now apply isTokenChar_not_space.
  - destruct (rev piece) as [|c r] eqn:E; [exact I|].
    apply isTokenChar_not_space. rewrite Forall_forall in F. apply F.
    apply in_rev. rewrite E. now left.
Qed.

Lemma extractTokens_NoDup (text : jsstring) : NoDup (extractTokens text).
Proof.
  unfold extractTokens. destruct (isEmpty text); [constructor|].
  apply dedupe_spec.
Qed.

Lemma extractTokens_In (text token : jsstring) :
  In token (extractTokens text) ->
  MIN_TOKEN_LENGTH <= len token
  /\ Forall (fun c => isTokenChar c = true) token
  /\ occursIn token text.
Proof.
  unfold extractTokens. destruct (isEmpty text); [intros []|].
  intros H. apply dedupe_spec in H. destruct H as [H _].
  apply filter_In in H. destruct H as [H L]. apply Z.leb_le in L.
  apply in_map_iff in H. destruct H as (piece & E & Hp).
  destruct (proj1 (splitOnSeparators_pieces text false) piece Hp) as [F O].
  rewrite (token_chars_trimmed piece F) in E. subst piece. auto.
Qed.

(** X5.  The tokens of a text are distinct runs of at least two token
    characters (letters, digits, CJK range) that occur in the text. *)
Theorem extractTokens_tokens (text : jsstring) :
  NoDup (extractTokens text)
  /\ forall token, In token (extractTokens text) ->
       MIN_TOKEN_LENGTH <= len token
       /\ Forall (fun c => isTokenChar c = true) token
       /\ occursIn token text.
Proof.
  split; [apply extractTokens_NoDup | intros token; apply extractTokens_In].
Qed.

(* ================================================================== *)
(** ** The token index *)

Lemma add_nonempty (s : JsSet.t) (x : Z) : JsSet.add s x <> [].
Proof.
  unfold JsSet.add. destruct (JsSet.has s x) eqn:E.
  - destruct s; [discriminate E | discriminate].
  - destruct s; discriminate.
Qed.

Lemma inBucket_step (index : JsMap.t JsSet.t) (docIndex : Z)
    (token t : jsstring) (i : Z) :
  inBucket
    (JsMap.set index token
       (JsSet.add match JsMap.get index token with
                  | Some b => b
                  | None => []
                  end docIndex)) t i
  <-> inBucket index t i \/ (i = docIndex /\ t = token).
Proof.
  unfold inBucket. destruct (list_eq_dec Z.eq_dec token t) as [->|Hne].
  - rewrite get_set_same. split.
    + intros (b & [= <-] & Hi). apply add_In in Hi.
      destruct (JsMap.get index t) as [b0|]; [|simpl in Hi; tauto].
      destruct Hi as [Hi|Hi]; [left; eauto | tauto].
    + intros H. eexists. split; [reflexivity|]. apply add_In.
      destruct H as [(b & G & Hi)|[-> _]]; [|tauto].
      rewrite G. tauto.
  - rewrite get_set_other by exact Hne. split; [tauto|].
    intros [H|[_ E]]; [exact H | congruence].
Qed.

Lemma indexDocumentTokens_buckets (index : JsMap.t JsSet.t) (docIndex : Z)
    (tl cl t : jsstring) (i : Z) :
  inBucket (indexDocumentTokens index docIndex tl cl) t i
  <-> inBucket index t i
      \/ (i = docIndex /\ In t (extractTokens (tl ++ spaceStr ++ cl))).
Proof.
  unfold indexDocumentTokens.
  generalize (extractTokens (tl ++ spaceStr ++ cl)) as tokens.
  intros tokens; revert index.
  induction tokens as [|token tokens IH]; intros index; cbn [fold_left].
  - simpl. tauto.
  - rewrite IH, inBucket_step. simpl. intuition (subst; auto).
Qed.

Lemma indexDocumentTokens_nonempty (index : JsMap.t JsSet.t) (docIndex : Z)
    (tl cl : jsstring) :
  (forall t b, JsMap.get index t = Some b -> b <> []) ->
  forall t b, JsMap.get (indexDocumentTokens index docIndex tl cl) t = Some b ->
    b <> [].
Proof.
  unfold indexDocumentTokens.
  generalize (extractTokens (tl ++ spaceStr ++ cl)) as tokens.
  intros tokens; revert index.
  induction tokens as [|token tokens IH]; intros index H; cbn [fold_left];
    [exact H|].
  apply IH. intros t b.
  destruct (list_eq_dec Z.eq_dec token t) as [->|Hne].
  - rewrite get_set_same. intros [= <-]. apply add_nonempty.
  - rewrite get_set_other by exact Hne. apply H.
Qed.

Lemma fold_ingest_index (records : list Doc) (srv : Server) :
  (forall t b, JsMap.get (tokenIndex srv) t = Some b -> b <> []) ->
  (forall t i, inBucket (tokenIndex srv) t i
               <-> exists d, docAt srv i = Some d /\ In t (tokensOfDoc d)) ->
  (forall t b, JsMap.get (tokenIndex (fold_left ingest records srv)) t = Some b ->
               b <> [])
  /\ (forall t i, inBucket (tokenIndex (fold_left ingest records srv)) t i
                  <-> exists d, docAt (fold_left ingest records srv) i = Some d
                                /\ In t (tokensOfDoc d)).
Proof.
  revert srv; induction records as [|r records IH]; intros srv Hne Hin;
    [split; assumption|].
  cbn [fold_left]. apply IH.
  - cbn [ingest tokenIndex]. now apply indexDocumentTokens_nonempty.
  - intros t i. cbn [ingest tokenIndex].
    rewrite indexDocumentTokens_buckets, Hin.
    set (n := List.length (searchData srv)).
    assert (Hdoc : forall d, docAt (mkServer (searchData srv ++ [r])
                                      (indexDocumentTokens (tokenIndex srv)
                                         (Z.of_nat n) (titleLower r)
                                         (contentLower r))) i = Some d
                     <-> docAt srv i = Some d \/ (i = Z.of_nat n /\ d = r)).
    { intros d. unfold docAt. cbn [searchData].
      destruct (Z.ltb_spec i 0) as [Hneg|Hpos].
      - split; [discriminate | intros [C|[C _]]; [discriminate | lia]].
      - destruct (Nat.lt_ge_cases (Z.to_nat i) n) as [Hlt|Hge].
        + rewrite nth_error_app1 by exact Hlt. split; [tauto|].
          intros [H|[C _]]; [exact H | lia].
        + rewrite nth_error_app2 by exact Hge.
          assert (Hnone : nth_error (searchData srv) (Z.to_nat i) = None)
            by (apply nth_error_None; exact Hge).
          rewrite Hnone. fold n.
          destruct (Z.to_nat i - n)%nat as [|k] eqn:K; simpl.
          * split.
            -- intros [= E]. right. split; [lia | congruence].
            -- intros [C|[_ ->]]; [discriminate | reflexivity].
          * split; [destruct k; discriminate|].
            intros [C|[C _]]; [discriminate | lia]. }
    split.
    + intros [(d & Hd & Ht)|[-> Ht]].
      * exists d. split; [apply Hdoc; now left | exact Ht].
      * exists r. split; [apply Hdoc; right; split; reflexivity | exact Ht].
    + intros (d & Hd & Ht). apply Hdoc in Hd.
      destruct Hd as [Hd|[-> ->]]; [left; eauto | right; split; [reflexivity | exact Ht]].
Qed.

Lemma loadRecords_index (records : list Doc) :
  (forall t b, JsMap.get (tokenIndex (loadRecords records)) t = Some b -> b <> [])
  /\ (forall t i, inBucket (tokenIndex (loadRecords records)) t i
                  <-> exists d, docAt (loadRecords records) i = Some d
                                /\ In t (tokensOfDoc d)).
Proof.
  apply (fold_ingest_index records emptyServer).
  - intros t b. discriminate.
  - intros t i. split.
    + intros (b & G & _). discriminate.
    + intros (d & Hd & _). unfold docAt in Hd. simpl in Hd.
      destruct (i <? 0); [discriminate|]. destruct (Z.to_nat i); discriminate.
Qed.

(** X6.  After loading, looking a token up in the index returns a bucket
    exactly when some document has the token; the bucket is then a
    non-empty, duplicate-free list that holds the identifier of a
    document exactly when the token is one of the tokens of its title
    and content. *)
Theorem tokenIndex_lookup (records : list Doc) (token : jsstring) :
  (forall bucket,
     JsMap.get (tokenIndex (loadRecords records)) token = Some bucket ->
     bucket <> [] /\ NoDup bucket
     /\ forall i, In i bucket
                  <-> exists d, docAt (loadRecords records) i = Some d
                                /\ In token (tokensOfDoc d))
  /\ (JsMap.get (tokenIndex (loadRecords records)) token = None
      <-> forall d, In d records -> ~ In token (tokensOfDoc d)).
Proof.
  destruct (loadRecords_index records) as [Hne Hin].
  split.
  - intros bucket G. split; [eapply Hne; eauto|].
    split; [eapply loadRecords_ok; eauto|].
    intros i. rewrite <- Hin. unfold inBucket. rewrite G. split.
    + intros H. eauto.
    + intros (b & [= <-] & H). exact H.
  - split.
    + intros G d Hd Ht. apply In_nth_error in Hd. destruct Hd as [n Hn].
      assert (inBucket (tokenIndex (loadRecords records)) token (Z.of_nat n)).
      { apply Hin. exists d. split; [|exact Ht]. now rewrite docAt_loadRecords. }
      destruct H as (b & Gb & _). congruence.
    + intros H.
      destruct (JsMap.get (tokenIndex (loadRecords records)) token)
        as [b|] eqn:G; [|reflexivity].
      exfalso. pose proof (Hne _ _ G) as Hb.
      destruct b as [|i b]; [congruence|].
      assert (Hi : inBucket (tokenIndex (loadRecords records)) token i)
        by (exists (i :: b); split; [exact G | now left]).
      apply Hin in Hi. destruct Hi as (d & Hd & Ht).
      apply (H d); [|exact Ht].
      unfold docAt in Hd. rewrite loadRecords_searchData in Hd.
      destruct (i <? 0); [discriminate|]. eapply nth_error_In; eauto.
Qed.

(* ================================================================== *)
(** ** What the index tells about occurrences *)

Lemma occursIn_across_separator (T C keyword : jsstring) (x : jschar) :
  keyword <> [] -> ~ In x keyword ->
  occursIn keyword (T ++ x :: C) ->
  occursIn keyword T \/ occursIn keyword C.
Proof.
  intros Hne Hx (pre & post & E). symmetry in E.
  apply app_eq_app in E. destruct E as [l [[E1 E2]|[E1 E2]]].
  - (* the occurrence starts after [T] *)
    destruct l as [|y l].
    + simpl in E2. destruct keyword as [|k keyword]; [congruence|].
      injection E2 as <- _. exfalso. apply Hx. now left.
    + injection E2 as _ E2. right. exists l, post. exact E2.
  - (* the occurrence starts in [T] *)
    apply app_eq_app in E2. destruct E2 as [l2 [[E3 E4]|[E3 E4]]].
    + destruct l2 as [|y l2].
      * left. exists pre, []. rewrite app_nil_r in E3. rewrite app_nil_r.
        now rewrite E1, E3.
      * injection E4 as <- _. exfalso. apply Hx. rewrite E3.
        apply in_or_app. right. now left.
    + left. exists pre, l2. now rewrite E1, E3.
Qed.

(** X7.  After loading, every document listed in the bucket of a token
    contains the token in its lower-case title or content: its
    occurrence count there is positive. *)
Theorem bucket_documents_contain_token (records : list Doc)
    (token : jsstring) (bucket : JsSet.t) (i : Z) (d : Doc) :
  JsMap.get (tokenIndex (loadRecords records)) token = Some bucket ->
  In i bucket ->
  docAt (loadRecords records) i = Some d ->
  0 < countOccurrences (titleLower d) token
  \/ 0 < countOccurrences (contentLower d) token.
Proof.
  intros G Hi Hd.
  assert (B : inBucket (tokenIndex (loadRecords records)) token i)
    by (exists bucket; split; [exact G | exact Hi]).
  apply (proj2 (loadRecords_index records)) in B.
  destruct B as (d' & Hd' & Ht).
  assert (d' = d) by congruence. subst d'.
  destruct (extractTokens_In _ token Ht) as (L & F & O).
  assert (Hne : token <> [])
    by (intros ->; unfold MIN_TOKEN_LENGTH, len in L; simpl in L; lia).
  assert (Hsp : ~ In 32 token).
  { intros C. rewrite Forall_forall in F. specialize (F _ C). discriminate. }
  destruct (occursIn_across_separator _ _ _ _ Hne Hsp O) as [H|H].
  - left. apply countOccurrences_positive. split; [exact Hne | exact H].
  - right. apply countOccurrences_positive. split; [exact Hne | exact H].
Qed.

(* ================================================================== *)
(** ** The candidate set as an intersection *)

Lemma asciiCandidatesOf_empty (group : list jsstring) :
  (Z.of_nat (List.length group) =? 0) = true -> asciiCandidatesOf group = [].
Proof. destruct group; [reflexivity | discriminate]. Qed.

Lemma usedBuckets_cons (index : JsMap.t JsSet.t) (group : list jsstring)
    (rest : list (list jsstring)) :
  usedBuckets index (group :: rest)
  = match usedBucket index group with
    | Some bucket => [bucket]
    | None => []
    end ++ usedBuckets index rest.
Proof. reflexivity. Qed.

Lemma collectLoop_intersection (index : JsMap.t JsSet.t)
    (base : option JsSet.t) (groups : list (list jsstring))
    (cand : option JsSet.t) (used : bool) (Q : Z -> Prop) :
  match cand with
  | None => used = false /\ forall i, Q i
  | Some c => used = true /\ forall i, In i c <-> Q i
  end ->
  match usedBuckets index groups with
  | [] => collectLoop index base groups cand used = (cand, used)
  | _ :: _ =>
      exists c',
        collectLoop index base groups cand used = (Some c', true)
        /\ forall i, In i c'
                     <-> Q i /\ Forall (fun b => In i b) (usedBuckets index groups)
                         /\ withinBase base i
  end.
Proof.
  revert cand used Q. induction groups as [|group rest IH]; intros cand used Q HQ.
  - reflexivity.
  - cbn [collectLoop]. rewrite usedBuckets_cons.
    set (ubr := usedBuckets index rest) in *. unfold usedBucket.
    destruct (Z.of_nat (List.length group) =? 0) eqn:El.
    { rewrite (asciiCandidatesOf_empty group El). cbn [app].
      exact (IH cand used Q HQ). }
    destruct (asciiCandidatesOf group) as [|keyword [|? ?]];
      try exact (IH cand used Q HQ).
    destruct (JsMap.get index keyword) as [bucket|];
      [|exact (IH cand used Q HQ)].
    destruct (JsSet.size bucket =? 0); [exact (IH cand used Q HQ)|].
    cbn [app].
    match goal with
    | |- context [if JsSet.size ?cs =? 0 then _ else _] =>
        assert (M : forall i, In i cs <-> Q i /\ In i bucket /\ withinBase base i)
    end.
    { intros i. unfold withinBase.
      destruct cand as [c|], base as [ids|]; destruct HQ as [_ HQ];
        rewrite ?filter_In, ?has_In, ?HQ; split.
      - intros [[H1 H2] H3]. split; [exact H3|]. split; [exact H1|].
        intros ? [= <-]. exact H2.
      - intros (H1 & H2 & H3). specialize (H3 _ eq_refl). tauto.
      - intros [H1 H2]. split; [exact H2|]. split; [exact H1 | discriminate].
      - tauto.
      - intros [H1 H2]. split; [apply HQ|]. split; [exact H1|].
        intros ? [= <-]. exact H2.
      - intros (_ & H2 & H3). specialize (H3 _ eq_refl). tauto.
      - intros H. split; [apply HQ|]. split; [exact H | discriminate].
      - tauto. }
    match goal with
    | |- context [if JsSet.size ?cs =? 0 then _ else _] =>
        destruct (Z.eqb_spec (JsSet.size cs) 0) as [Ez|Ez];
        [ assert (Hnil : cs = [])
            by (destruct cs; [reflexivity | unfold JsSet.size in Ez; simpl in Ez; lia])
        | specialize (IH (Some cs) true
                         (fun i => Q i /\ In i bucket /\ withinBase base i)
                         (conj eq_refl M)) ]
    end.
    + eexists. split; [reflexivity|]. intros i. rewrite M. split.
      * intros H. exfalso. rewrite <- M, Hnil in H. exact H.
      * intros (H1 & H2 & H3). inversion H2; subst. tauto.
    + destruct ubr as [|b bs].
      * eexists. split; [exact IH|]. intros i. rewrite M. split.
        -- intros (H1 & H2 & H3).
           split; [exact H1 | split; [constructor; [exact H2 | constructor] | exact H3]].
        -- intros (H1 & H2 & H3). inversion H2; subst. tauto.
      * destruct IH as (c' & E & Hc'). exists c'. split; [exact E|].
        intros i. rewrite Hc'. split.
        -- intros ((H1 & H2 & H3) & H4 & _).
           split; [exact H1 | split; [constructor; [exact H2 | exact H4] | exact H3]].
        -- intros (H1 & H2 & H3). inversion H2; subst. tauto.
Qed.

(** X8.  The candidate selection returns the restriction itself (or null)
    when no group has a usable bucket, and otherwise a set that holds an
    identifier exactly when every used bucket holds it and it lies
    within the restriction. *)
Theorem collectCandidateIndexes_intersection (index : JsMap.t JsSet.t)
    (groups : list (list jsstring)) (base : option JsSet.t) :
  match usedBuckets index groups with
  | [] => collectCandidateIndexes index groups base = base
  | _ :: _ =>
      exists cand,
        collectCandidateIndexes index groups base = Some cand
        /\ forall i, In i cand
                     <-> Forall (fun b => In i b) (usedBuckets index groups)
                         /\ withinBase base i
  end.
Proof.
  unfold collectCandidateIndexes.
  pose proof (collectLoop_intersection index base groups None false
                (fun _ => True) (conj eq_refl (fun _ => I))) as L.
  destruct (usedBuckets index groups) as [|b bs].
  - now rewrite L.
  - destruct L as (c' & -> & Hc'). exists c'. split; [reflexivity|].
    intros i. rewrite Hc'. tauto.
Qed.

(* ================================================================== *)
(** ** How many occurrences are counted *)

Lemma countLoop_bound (fuel : nat) (source keyword : jsstring)
    (count start c : Z) :
  0 <= start ->
  countLoop fuel source keyword count start = Some c ->
  count <= c
  /\ (c - count) * len keyword <= len source - Z.min start (len source).
Proof.
  revert count start; induction fuel as [|fuel IH]; intros count start Hs;
    [discriminate|].
  cbn [countLoop].
  pose proof (indexOf_bounds source keyword start Hs) as B.
  destruct (indexOf source keyword start =? -1) eqn:E.
  - intros [= <-]. unfold len. lia.
  - apply Z.eqb_neq in E. destruct B as [B|[B1 B2]]; [congruence|].
    intros H. apply IH in H; [|unfold len in *; lia].
    unfold len in *. lia.
Qed.

Lemma countOccurrences_le (source keyword : jsstring) :
  countOccurrences source keyword * len keyword <= len source.
Proof.
  unfold countOccurrences.
  destruct (isEmpty source || isEmpty keyword); [unfold len; lia|].
  destruct (countLoop (S (List.length source)) source keyword 0 0) as [c|] eqn:L;
    [|unfold len; lia].
  apply countLoop_bound in L; [|lia]. unfold len in *. lia.
Qed.

Lemma isPrefix_app (keyword post : jsstring) :
  isPrefix keyword (keyword ++ post) = true.
Proof. apply isPrefix_iff. now exists post. Qed.

Lemma skipn_len_app (pre post : jsstring) :
  skipn (Z.to_nat (len pre)) (pre ++ post) = post.
Proof.
  unfold len. rewrite Nat2Z.id, skipn_app, skipn_all, Nat.sub_diag.
  reflexivity.
Qed.

Lemma indexOf_at_copy (pre keyword post : jsstring) :
  indexOf (pre ++ keyword ++ post) keyword (len pre) = len pre.
Proof.
  unfold indexOf.
  replace (Z.max 0 (Z.min (len pre) (len (pre ++ keyword ++ post))))
    with (len pre) by (unfold len; rewrite length_app; lia).
  rewrite skipn_len_app.
  destruct (keyword ++ post) eqn:E; cbn [indexOfFrom];
    rewrite <- E, isPrefix_app; reflexivity.
Qed.

Lemma indexOf_at_end (source keyword : jsstring) :
  keyword <> [] -> indexOf source keyword (len source) = -1.
Proof.
  intros Hk. unfold indexOf.
  replace (Z.max 0 (Z.min (len source) (len source))) with (len source)
    by (unfold len; lia).
  rewrite <- (app_nil_r source) at 2. rewrite skipn_len_app.
  destruct keyword; [congruence | reflexivity].
Qed.

Lemma countLoop_copies (n : nat) (fuel : nat) (pre keyword : jsstring)
    (count : Z) :
  keyword <> [] -> (n < fuel)%nat ->
  countLoop fuel (pre ++ List.concat (repeat keyword n)) keyword count (len pre)
  = Some (count + Z.of_nat n).
Proof.
  intros Hk. revert fuel pre count.
  induction n as [|n IH]; intros fuel pre count Hf;
    (destruct fuel as [|fuel]; [lia|]); cbn [countLoop repeat List.concat].
  - rewrite app_nil_r, (indexOf_at_end pre keyword Hk). cbn. f_equal. lia.
  - rewrite indexOf_at_copy.
    replace (len pre =? -1) with false
      by (symmetry; apply Z.eqb_neq; unfold len; lia).
    replace (len pre + len keyword) with (len (pre ++ keyword))
      by (unfold len; rewrite length_app; lia).
    rewrite app_assoc. rewrite IH by lia. f_equal. lia.
Qed.

(** X9.  An occurrence count is never negative, it is positive exactly when
    the keyword is not empty and occurs in the source, and the counted
    occurrences do not overlap: together they are no longer than the
    source. *)
Theorem countOccurrences_bound (source keyword : jsstring) :
  0 <= countOccurrences source keyword
  /\ countOccurrences source keyword * len keyword <= len source
  /\ (0 < countOccurrences source keyword
      <-> keyword <> [] /\ occursIn keyword source).
Proof.
  split; [apply countOccurrences_nonneg|].
  split; [apply countOccurrences_le|].
  apply countOccurrences_positive.
Qed.

(** X10.  A source made of [n] copies of a keyword, one after the other, has
    [n] occurrences of it. *)
Theorem countOccurrences_copies (keyword : jsstring) (n : nat) :
  keyword <> [] ->
  countOccurrences (List.concat (repeat keyword n)) keyword = Z.of_nat n.
Proof.
  intros Hk. unfold countOccurrences.
  destruct n as [|n]; [reflexivity|].
  assert (L : (S n <= List.length (List.concat (repeat keyword (S n))))%nat).
  { generalize (S n). intros m. induction m as [|m IH]; [apply Nat.le_0_l|].
    cbn [repeat List.concat]. rewrite length_app.
    destruct keyword; [congruence|]. cbn [List.length]. lia. }
  replace (isEmpty (List.concat (repeat keyword (S n)))) with false
    by (destruct (List.concat (repeat keyword (S n))); [simpl in L; lia | reflexivity]).
  replace (isEmpty keyword) with false
    by (destruct keyword; [congruence | reflexivity]).
  cbn [orb].
  pose proof (countLoop_copies (S n)
                (S (List.length (List.concat (repeat keyword (S n)))))
                [] keyword 0 Hk ltac:(lia)) as C.
  cbn [app] in C. change (len []) with 0 in C. rewrite C. lia.
Qed.

(* ================================================================== *)
(** ** The rank as a product over the groups *)

Lemma rankGroups_product (isTitleOnly : bool) (it : Doc)
    (groups : list (list jsstring)) (titleRank contentRank a b : Z) :
  rankGroups isTitleOnly it groups titleRank contentRank = Some (a, b) ->
  a = titleRank * rankProduct (titleLower it) groups
  /\ b = if isTitleOnly then contentRank
         else contentRank * rankProduct (contentLower it) groups.
Proof.
  revert titleRank contentRank.
  induction groups as [|group rest IH]; intros titleRank contentRank;
    cbn [rankGroups].
  - intros [= <- <-]. unfold rankProduct. cbn [map fold_right].
    destruct isTitleOnly; lia.
  - rewrite bestOccurrences_spec.
    destruct (negb (keywordMatched isTitleOnly _)); [discriminate|].
    cbn [fst snd]. intros H. apply IH in H. destruct H as [-> ->].
    unfold rankProduct. cbn [map fold_right].
    fold (rankProduct (titleLower it) rest).
    fold (rankProduct (contentLower it) rest).
    pose proof (bestCount_nonneg (titleLower it) group) as T.
    pose proof (bestCount_nonneg (contentLower it) group) as C.
    split.
    + destruct (Z.ltb_spec 0 (bestCount (titleLower it) group)); [ring|].
      replace (bestCount (titleLower it) group) with 0 by lia. ring.
    + destruct isTitleOnly; cbn [negb andb]; [reflexivity|].
      destruct (Z.ltb_spec 0 (bestCount (contentLower it) group)); [ring|].
      replace (bestCount (contentLower it) group) with 0 by lia. ring.
Qed.

Lemma rankProduct_pos (text : jsstring) (groups : list (list jsstring)) :
  1 <= rankProduct text groups.
Proof.
  unfold rankProduct. induction groups as [|group rest IH];
    cbn [map fold_right]; [lia|].
  pose proof (bestCount_nonneg text group). nia.
Qed.

Section RankProperties.

Variable powRound : Z -> Z -> Z -> Z.

(** X11.  The rank of a result is computed from two products over the groups
    of the query, each at least 1: the product of the best title counts
    plus one, and, unless only titles are searched, the product of the
    best content counts plus one.  The result carries the identifier it
    was ranked under and the document stored there. *)
Theorem rankItem_rank (srv : Server) (groups : list (list jsstring))
    (isTitleOnly : bool) (idx : Z) (r : Result) :
  rankItem powRound srv groups isTitleOnly idx = Some r ->
  let groupCount :=
    if Z.of_nat (List.length groups) =? 0 then 1
    else Z.of_nat (List.length groups) in
  index r = idx
  /\ docAt srv idx = Some (item r)
  /\ 1 <= rankProduct (titleLower (item r)) groups
  /\ 1 <= rankProduct (contentLower (item r)) groups
  /\ rank r
     = powRound (rankProduct (titleLower (item r)) groups) groupCount 20
       + (if isTitleOnly then 0
          else powRound (rankProduct (contentLower (item r)) groups)
                 groupCount 1).
Proof.
  unfold rankItem. destruct (docAt srv idx) as [it|]; [|discriminate].
  destruct (rankGroups isTitleOnly it groups 1 1) as [[a b]|] eqn:R;
    [|discriminate].
  intros [= <-]. cbn [index item rank].
  apply rankGroups_product in R. destruct R as [-> ->].
  split; [reflexivity|]. split; [reflexivity|].
  split; [apply rankProduct_pos|]. split; [apply rankProduct_pos|].
  rewrite !Z.mul_1_l. destruct isTitleOnly; reflexivity.
Qed.

End RankProperties.

(* ================================================================== *)
(** ** The shape of a parsed query *)

Lemma occursIn_refl (s : jsstring) : occursIn s s.
Proof. exists [], []. now rewrite app_nil_r. Qed.

Lemma occursIn_trans (a b c : jsstring) :
  occursIn a b -> occursIn b c -> occursIn a c.
Proof.
  intros (p1 & q1 & ->) (p2 & q2 & ->).
  exists (p2 ++ p1), (q1 ++ q2). now rewrite <- !app_assoc.
Qed.

Lemma occursIn_cons (a s : jsstring) (c : jschar) :
  occursIn a s -> occursIn a (c :: s).
Proof. intros (p & q & ->). now exists (c :: p), q. Qed.

Lemma takeWhile_dropWhile (p : jschar -> bool) (s : jsstring) :
  s = takeWhile p s ++ dropWhile p s.
Proof.
  induction s as [|c s IH]; simpl; [reflexivity|].
  destruct (p c); simpl; [now rewrite <- IH | reflexivity].
Qed.

Lemma occursIn_takeWhile (p : jschar -> bool) (s : jsstring) :
  occursIn (takeWhile p s) s.
Proof. exists [], (dropWhile p s). apply takeWhile_dropWhile. Qed.

Lemma occursIn_dropWhile (p : jschar -> bool) (s : jsstring) :
  occursIn (dropWhile p s) s.
Proof.
  destruct (dropWhile_suffix p s) as (pre & E & _).
  exists pre, []. now rewrite app_nil_r.
Qed.

Lemma occursIn_rev (a s : jsstring) : occursIn a s -> occursIn (rev a) (rev s).
Proof.
  intros (p & q & ->). exists (rev q), (rev p).
  now rewrite !rev_app_distr, <- app_assoc.
Qed.

Lemma occursIn_trim (s : jsstring) : occursIn (trim s) s.
Proof.
  unfold trim.
  apply occursIn_trans with (dropWhile isWhiteSpace s);
    [|apply occursIn_dropWhile].
  rewrite <- (rev_involutive (dropWhile isWhiteSpace s)) at 2.
  apply occursIn_rev, occursIn_dropWhile.
Qed.

Lemma occursIn_split (sep : jschar) (s piece : jsstring) :
  In piece (split sep s) -> occursIn piece s.
Proof.
  revert piece; induction s as [|c s IH]; intros piece; simpl.
  - intros [<-|[]]. apply occursIn_refl.
  - destruct (c =? sep).
    + intros [<-|H]; [exists [], (c :: s); reflexivity|].
      apply occursIn_cons. now apply IH.
    + pose proof (split_nonempty sep s) as N.
      assert (Hhd : exists post, s = hd [] (split sep s) ++ post).
      { clear IH piece N. induction s as [|x s (post & E)]; simpl.
        - now exists [].
        - destruct (x =? sep); [now exists (x :: s)|].
          pose proof (split_nonempty sep s) as N.
          destruct (split sep s) as [|q qs]; [congruence|].
          simpl in *. exists post. now rewrite <- E. }
      destruct (split sep s) as [|q qs]; [congruence|].
      intros [<-|H].
      * destruct Hhd as (post & E). simpl in E.
        exists [], post. simpl. now rewrite <- E.
      * apply occursIn_cons. apply IH. now right.
Qed.

Lemma occursIn_skipn (a s : jsstring) (n : nat) :
  occursIn a (skipn n s) -> occursIn a s.
Proof.
  intros H. apply occursIn_trans with (skipn n s); [exact H|].
  exists (firstn n s), []. now rewrite app_nil_r, firstn_skipn.
Qed.

Lemma matchHere_occurs (s tok : jsstring) (n : nat) :
  matchHere s = Some (tok, n) -> occursIn tok s.
Proof.
  unfold matchHere. destruct s as [|c rest]; [discriminate|].
  destruct ((c =? quoteChar) && _ && _).
  - intros [= <- _]. apply occursIn_cons, occursIn_takeWhile.
  - destruct (isWhiteSpace c); [discriminate|].
    intros [= <- _].
    apply (occursIn_takeWhile (fun x => negb (isWhiteSpace x)) (c :: rest)).
Qed.

Lemma execFrom_occurs (s tok : jsstring) (pos n : nat) :
  execFrom s pos = Some (tok, n) -> occursIn tok s.
Proof.
  revert pos; induction s as [|c s IH]; intros pos; cbn [execFrom].
  - simpl. discriminate.
  - destruct (matchHere (c :: s)) as [[tok' k]|] eqn:M.
    + intros [= <- _]. now apply matchHere_occurs in M.
    + intros H. apply occursIn_cons. now apply IH in H.
Qed.

Lemma orPartsOf_spec (token : jsstring) :
  Forall (fun alt => alt <> [] /\ ~ In barChar alt /\ trim alt = alt
                     /\ occursIn alt token)
         (orPartsOf token).
Proof.
  unfold orPartsOf. apply Forall_forall. intros alt H.
  apply filter_In in H. destruct H as [H L].
  apply in_map_iff in H. destruct H as (piece & <- & Hp).
  split; [|split; [|split]].
  - intros E. rewrite E in L. discriminate.
  - intros C. apply trim_In in C. now apply (split_pieces _ _ _ Hp).
  - apply trim_idempotent.
  - apply occursIn_trans with piece; [apply occursIn_trim|].
    now apply occursIn_split with barChar.
Qed.

Lemma parseLoop_parsedFrom (fuel : nat) (rawKeyword : jsstring)
    (lastIndex : nat) (groups parsed : list (list jsstring)) :
  parsedFrom rawKeyword groups ->
  parseLoop fuel rawKeyword lastIndex groups = Some parsed ->
  parsedFrom rawKeyword parsed.
Proof.
  revert lastIndex groups; induction fuel as [|fuel IH];
    intros lastIndex groups W; [discriminate|].
  cbn [parseLoop].
  destruct (execFrom (skipn lastIndex rawKeyword) lastIndex)
    as [[m lastIndex']|] eqn:X; [|now intros [= <-]].
  destruct (isEmpty (trim m)); [now apply IH|].
  destruct (0 <? Z.of_nat (List.length (orPartsOf (trim m)))) eqn:L;
    [|now apply IH].
  apply IH. destruct W as [W1 W2].
  pose proof (orPartsOf_spec (trim m)) as S.
  assert (O : occursIn (trim m) rawKeyword).
  { apply occursIn_trans with m; [apply occursIn_trim|].
    apply execFrom_occurs in X. now apply occursIn_skipn in X. }
  split.
  - apply Forall_app. split; [exact W1|]. constructor; [|constructor].
    split.
    + intros E. rewrite E in L. discriminate.
    + apply (Forall_impl _ (P := fun alt => alt <> [] /\ ~ In barChar alt
                                            /\ trim alt = alt
                                            /\ occursIn alt (trim m)));
        [|exact S].
      intros alt (H1 & H2 & H3 & _). auto.
  - apply Forall_app. split; [exact W2|]. constructor; [|constructor].
    apply (Forall_impl _ (P := fun alt => alt <> [] /\ ~ In barChar alt
                                          /\ trim alt = alt
                                          /\ occursIn alt (trim m)));
      [|exact S].
    intros alt (_ & _ & _ & H). now apply occursIn_trans with (trim m).
Qed.

(** X12.  The parsed query is well formed: it has no empty group, and every
    alternative is a non-empty, trimmed piece of the raw keyword without
    the bar character. *)
Theorem parseSearchKeywords_wellFormed (rawKeyword : jsstring) :
  wellFormedQuery (parseSearchKeywords rawKeyword)
  /\ Forall (Forall (fun alt => occursIn alt rawKeyword))
       (parseSearchKeywords rawKeyword).
Proof.
  assert (N : parsedFrom rawKeyword []) by (split; constructor).
  unfold parseSearchKeywords. destruct (isEmpty rawKeyword); [exact N|].
  destruct (parseLoop (S (List.length rawKeyword)) rawKeyword 0 [])
    as [parsed|] eqn:P; [|exact N].
  exact (parseLoop_parsedFrom _ _ _ _ _ N P).
Qed.

(* ================================================================== *)
(** ** Pages tile the result list *)

Lemma firstn_add_skipn {A} (a b : nat) (l : list A) :
  firstn (a + b) l = firstn a l ++ firstn b (skipn a l).
Proof.
  revert l; induction a as [|a IH]; intros [|x l]; simpl; try reflexivity.
  - now rewrite firstn_nil.
  - f_equal. apply IH.
Qed.

Lemma paginateResults_page (l : list Result) (pageNum size : Z) :
  1 <= pageNum -> 1 <= size ->
  resResults (paginateResults l pageNum size)
  = firstn (Z.to_nat size) (skipn (Z.to_nat ((pageNum - 1) * size)) l).
Proof.
  intros Hp Hs. unfold paginateResults. cbn [resResults].
  apply slice_window; nia.
Qed.

Lemma pages_concat (l : list Result) (size : Z) (n : nat) :
  1 <= size ->
  List.concat
    (map (fun p => resResults (paginateResults l (Z.of_nat p) size)) (seq 1 n))
  = firstn (n * Z.to_nat size) l.
Proof.
  intros Hs. induction n as [|n IH]; [reflexivity|].
  rewrite seq_S, map_app, concat_app, IH. cbn [map List.concat].
  rewrite app_nil_r, paginateResults_page by lia.
  replace (Z.to_nat ((Z.of_nat (1 + n) - 1) * size))
    with (n * Z.to_nat size)%nat by nia.
  rewrite <- firstn_add_skipn. f_equal. lia.
Qed.

(** X13.  The pages of a result list tile it: the pages 1 to [totalPages],
    one after the other, are the list; every page before the last is
    full, and the last page holds between 1 and [pageSize] results. *)
Theorem paginateResults_tiles (l : list Result) (size : Z) :
  1 <= size ->
  let pages := totalPages (paginateResults l 1 size) in
  List.concat
    (map (fun p => resResults (paginateResults l (Z.of_nat p) size))
       (seq 1 (Z.to_nat pages)))
  = l
  /\ (forall p, 1 <= p < pages ->
        Z.of_nat (List.length (resResults (paginateResults l p size))) = size)
  /\ (1 <= pages ->
      1 <= Z.of_nat (List.length (resResults (paginateResults l pages size)))
        <= size).
Proof.
  intros Hs pages.
  assert (B : (pages - 1) * size < Z.of_nat (List.length l) <= pages * size).
  { unfold pages, paginateResults. cbn [totalPages].
    rewrite Qceiling_div by lia. apply ceiling_bounds. lia. }
  split; [|split].
  - rewrite pages_concat by exact Hs. apply firstn_all2. nia.
  - intros p Hp. rewrite paginateResults_page by lia.
    rewrite length_firstn, length_skipn. nia.
  - intros Hp. rewrite paginateResults_page by lia.
    rewrite length_firstn, length_skipn. nia.
Qed.

(* ================================================================== *)
(** ** What every response lists *)

Section CacheInvariant.

Variable P : list Result -> Prop.

Lemma cacheAll_delete (queryCache : Cache) (k : jsstring) :
  cacheAll P queryCache -> cacheAll P (JsMap.delete queryCache k).
Proof.
  unfold cacheAll. induction queryCache as [|[k' e'] c IH]; simpl; intros H.
  - constructor.
  - inversion H; subst. destruct (streq k' k); [assumption|].
    constructor; auto.
Qed.

Lemma cacheAll_set (queryCache : Cache) (k : jsstring) (e : CacheEntry) :
  cacheAll P queryCache -> P (results e) ->
  cacheAll P (JsMap.set queryCache k e).
Proof.
  unfold cacheAll. intros H He.
  induction queryCache as [|[k' e'] c IH]; simpl.
  - constructor; [exact He | constructor].
  - inversion H; subst. destruct (streq k' k); constructor; auto.
Qed.

Lemma cacheAll_get (queryCache : Cache) (k : jsstring) (e : CacheEntry) :
  cacheAll P queryCache -> JsMap.get queryCache k = Some e -> P (results e).
Proof.
  unfold cacheAll. induction queryCache as [|[k' e'] c IH]; simpl; intros H;
    [discriminate|].
  inversion H; subst. destruct (streq k' k); [intros [= <-]; assumption | auto].
Qed.

Lemma getCachedResults_all (queryCache : Cache) (k : jsstring) (now : Z) :
  cacheAll P queryCache ->
  cacheAll P (snd (getCachedResults queryCache k now))
  /\ forall l, fst (getCachedResults queryCache k now) = Some l -> P l.
Proof.
  intros H. unfold getCachedResults.
  destruct (JsMap.get queryCache k) as [e|] eqn:G; simpl;
    [|split; [exact H | discriminate]].
  pose proof (cacheAll_get _ _ _ H G) as He.
  destruct (now - timestamp e >? CACHE_TTL); simpl.
  - split; [now apply cacheAll_delete | discriminate].
  - split; [|intros l [= <-]; exact He].
    apply cacheAll_set; [now apply cacheAll_delete | exact He].
Qed.

Lemma setCachedResults_all (queryCache : Cache) (k : jsstring)
    (res : list Result) (now : Z) :
  cacheAll P queryCache -> P res ->
  cacheAll P (setCachedResults queryCache k res now).
Proof.
  intros H Hr. unfold setCachedResults.
  assert (S : cacheAll P (JsMap.set queryCache k (mkEntry res now)))
    by (now apply cacheAll_set).
  cbv zeta.
  destruct (JsMap.size _ >? CACHE_MAX_ENTRIES); [|exact S].
  destruct (JsMap.keys _) as [|oldest ?]; [exact S|].
  destruct (isEmpty oldest); [exact S | now apply cacheAll_delete].
Qed.

Variable toLowerCase : jsstring -> jsstring.
Variable powRound : Z -> Z -> Z -> Z.
Variable srv : Server.

Hypothesis P_nil : P [].
Hypothesis P_computed :
  forall groups isTitleOnly base cat,
    (forall b, base = Some b -> NoDup b) ->
    P (computeResults powRound srv groups isTitleOnly base cat).

(** Every response is a page of a list with the property, and the
    handler keeps the property of the cached lists. *)
Lemma apiSearch_all (queryCache : Cache) (now : Z) (req : Request) :
  cacheAll P queryCache ->
  (exists l,
     P l
     /\ fst (apiSearch toLowerCase powRound srv queryCache now req)
        = paginateResults l (pageNumOf (qPage req)) (sizeOf (qPageSize req)))
  /\ cacheAll P (snd (apiSearch toLowerCase powRound srv queryCache now req)).
Proof.
  intros H.
  assert (E : (exists l,
                 P l
                 /\ emptyResponse (pageNumOf (qPage req)) (sizeOf (qPageSize req))
                    = paginateResults l (pageNumOf (qPage req))
                        (sizeOf (qPageSize req)))
              /\ cacheAll P queryCache).
  { split; [|exact H]. exists []. split; [exact P_nil|].
    symmetry. apply paginateResults_nil. }
  unfold apiSearch.
  destruct (qKeyword req) as [keyword|]; [|exact E].
  destruct (isEmpty keyword); [exact E|].
  match goal with
  | |- context [if ?t then _ else _] => destruct t; [exact E|]
  end.
  unfold searchKeyword.
  destruct (Z.of_nat (List.length (parseSearchKeywords keyword)) =? 0);
    [exact E|].
  cbv zeta.
  match goal with
  | |- context [getCachedResults queryCache ?k now] =>
      pose proof (getCachedResults_all queryCache k now H) as [G1 G2];
      destruct (getCachedResults queryCache k now) as [[cached|] cache']
  end; cbn [fst snd] in *.
  - split; [|exact G1]. exists cached. split; [now apply G2 | reflexivity].
  - match goal with
    | |- context [computeResults powRound srv ?g ?t ?b ?c] =>
        assert (C : P (computeResults powRound srv g t b c))
          by (apply P_computed; intros b'; apply parseBaseIndexes_NoDup)
    end.
    split; [|now apply setCachedResults_all].
    eexists. split; [exact C | reflexivity].
Qed.

Lemma reachable_all (queryCache : Cache) :
  reachable toLowerCase powRound srv queryCache -> cacheAll P queryCache.
Proof.
  induction 1; [constructor | now apply apiSearch_all].
Qed.

End CacheInvariant.

Lemma NoDup_firstn {A} (n : nat) (l : list A) : NoDup l -> NoDup (firstn n l).
Proof.
  intros H. rewrite <- (firstn_skipn n l) in H.
  now apply NoDup_app_remove_r in H.
Qed.

Lemma NoDup_skipn {A} (n : nat) (l : list A) : NoDup l -> NoDup (skipn n l).
Proof.
  intros H. rewrite <- (firstn_skipn n l) in H.
  now apply NoDup_app_remove_l in H.
Qed.

Lemma slice_incl {A} (l : list A) (a b : Z) (x : A) :
  In x (slice l a b) -> In x l.
Proof.
  unfold slice. intros H.
  rewrite <- (firstn_skipn (Z.to_nat
    (if a <? 0 then Z.max (Z.of_nat (List.length l) + a) 0
     else Z.min a (Z.of_nat (List.length l)))) l).
  apply in_or_app. right.
  match type of H with
  | In x (firstn ?n ?m) =>
      rewrite <- (firstn_skipn n m); apply in_or_app; now left
  end.
Qed.

Lemma slice_length {A} (l : list A) (a b : Z) :
  0 <= a -> 0 <= b ->
  Z.of_nat (List.length (slice l a b)) <= Z.max (b - a) 0.
Proof.
  intros Ha Hb. unfold slice. rewrite length_firstn, length_skipn.
  destruct (Z.ltb_spec a 0); [lia|]. destruct (Z.ltb_spec b 0); lia.
Qed.

Lemma slice_map {A B} (f : A -> B) (l : list A) (a b : Z) :
  map f (slice l a b) = slice (map f l) a b.
Proof.
  unfold slice. now rewrite length_map, skipn_map, firstn_map.
Qed.

Lemma slice_NoDup {A} (l : list A) (a b : Z) : NoDup l -> NoDup (slice l a b).
Proof. intros H. unfold slice. now apply NoDup_firstn, NoDup_skipn. Qed.

Lemma indexes_bounded (srv : Server) (l : list Result) :
  resultsOK srv l ->
  (List.length l <= List.length (searchData srv))%nat.
Proof.
  intros [N F]. rewrite <- (length_map index l).
  rewrite <- (length_seq (List.length (searchData srv)) 0).
  rewrite <- (length_map Z.of_nat (seq 0 (List.length (searchData srv)))).
  apply NoDup_incl_length; [exact N|].
  intros i Hi. apply in_map_iff in Hi. destruct Hi as (r & <- & Hr).
  rewrite Forall_forall in F. apply F, docAt_Some in Hr.
  apply in_map_iff. exists (Z.to_nat (index r)). split; [lia|].
  apply in_seq. lia.
Qed.

Section ResponseProperties.

Variable toLowerCase : jsstring -> jsstring.
Variable powRound : Z -> Z -> Z -> Z.

Lemma computeResults_OK srv groups isTitleOnly base cat :
  indexOK (tokenIndex srv) ->
  (forall b, base = Some b -> NoDup b) ->
  resultsOK srv (computeResults powRound srv groups isTitleOnly base cat).
Proof.
  intros Hok Hbase. split.
  - unfold computeResults.
    assert (Hspace : NoDup
              match collectCandidateIndexes (tokenIndex srv) groups base with
              | Some cand => cand
              | None =>
                  match base with
                  | Some b => b
                  | None => map Z.of_nat (seq 0 (List.length (searchData srv)))
                  end
              end).
    { destruct (collectCandidateIndexes (tokenIndex srv) groups base)
        as [cand|] eqn:C.
      - now apply (collectCandidateIndexes_spec _ _ _ _ Hok Hbase C).
      - destruct base as [b|]; [now apply Hbase|].
        apply NoDup_map_NoDup_ForallPairs; [|apply seq_NoDup].
        intros x y _ _. apply Nat2Z.inj. }
    match goal with
    | |- NoDup (map index (if ?t then _ else _)) => destruct t; [constructor|]
    end.
    match goal with
    | |- NoDup (map index (if ?t then _ else _)) => destruct t; [constructor|]
    end.
    eapply Permutation_NoDup;
      [apply Permutation_map, Permutation_sym, sortBy_perm|].
    apply rankAll_indexes.
    destruct (isEmpty cat); [exact Hspace | now apply NoDup_filter].
  - apply Forall_forall. intros r Hr. apply computeResults_In in Hr.
    destruct Hr as [Hr _]. now apply rankItem_sound in Hr.
Qed.

(** X14.  Every response of a loaded server lists no document twice and at
    most [pageSize] results, each carrying the document stored under its
    identifier; the page size lies in [1, 100] and the page number is at
    least 1; and [total] counts no more results than the store has
    documents. *)
Theorem apiSearch_response_wellFormed (records : list Doc)
    (queryCache : Cache) (now : Z) (req : Request) :
  reachable toLowerCase powRound (loadRecords records) queryCache ->
  let response :=
    fst (apiSearch toLowerCase powRound (loadRecords records) queryCache
           now req) in
  NoDup (map index (resResults response))
  /\ (forall r, In r (resResults response) ->
        docAt (loadRecords records) (index r) = Some (item r))
  /\ Z.of_nat (List.length (resResults response)) <= pageSize response
  /\ 1 <= pageSize response <= MAX_PAGE_SIZE
  /\ 1 <= page response
  /\ Z.of_nat (List.length (resResults response)) <= total response
  /\ total response <= Z.of_nat (List.length records).
Proof.
  intros R response.
  assert (Pnil : resultsOK (loadRecords records) [])
    by (split; constructor).
  assert (Pc : forall groups isTitleOnly base cat,
             (forall b, base = Some b -> NoDup b) ->
             resultsOK (loadRecords records)
               (computeResults powRound (loadRecords records) groups
                  isTitleOnly base cat))
    by (intros; apply computeResults_OK; [apply loadRecords_ok | assumption]).
  pose proof (reachable_all (resultsOK (loadRecords records)) toLowerCase
                powRound (loadRecords records) Pnil Pc queryCache R) as C.
  destruct (apiSearch_all (resultsOK (loadRecords records)) toLowerCase
              powRound (loadRecords records) Pnil Pc queryCache now req C)
    as [(l & Hl & E) _].
  unfold response. rewrite E. clear E response.
  pose proof (sizeOf_range (qPageSize req)) as Hs.
  pose proof (pageNumOf_pos (qPage req)) as Hp.
  pose proof (indexes_bounded _ _ Hl) as Hb.
  rewrite loadRecords_searchData in Hb.
  destruct Hl as [N F]. unfold paginateResults.
  cbn [resResults pageSize page total].
  split; [rewrite slice_map; now apply slice_NoDup|].
  split.
  { intros r Hr. apply slice_incl in Hr. rewrite Forall_forall in F. auto. }
  split.
  { etransitivity; [apply slice_length; nia|]. lia. }
  split; [unfold MAX_PAGE_SIZE; lia|]. split; [exact Hp|].
  split; [|lia].
  unfold slice. rewrite length_firstn, length_skipn. lia.
Qed.

End ResponseProperties.

(* ================================================================== *)
(** ** Answers from the cache *)

Section CacheReuse.

Variable toLowerCase : jsstring -> jsstring.
Variable powRound : Z -> Z -> Z -> Z.

Lemma cacheKeyOf_nonempty (srv : Server) (req : Request) (k : jsstring) :
  cacheKeyOf toLowerCase srv req = Some k -> k <> [].
Proof.
  unfold cacheKeyOf.
  destruct (qKeyword req) as [keyword|]; [|discriminate].
  destruct (isEmpty keyword); [discriminate|].
  match goal with
  | |- context [if ?t then _ else _] => destruct t; [discriminate|]
  end.
  cbv zeta.
  destruct (Z.of_nat (List.length (parseSearchKeywords keyword)) =? 0);
    [discriminate|].
  intros [= <-]. apply buildCacheKey_nonempty.
Qed.

(** What the handler does with the result of the cache lookup. *)
Lemma apiSearch_lookup (srv : Server) (queryCache : Cache) (now : Z)
    (req : Request) (k : jsstring) :
  cacheKeyOf toLowerCase srv req = Some k ->
  apiSearch toLowerCase powRound srv queryCache now req
  = match getCachedResults queryCache k now with
    | (Some cachedResults, cache') =>
        (paginateResults cachedResults (pageNumOf (qPage req))
           (sizeOf (qPageSize req)), cache')
    | (None, cache') =>
        (paginateResults (freshResults toLowerCase powRound srv req)
           (pageNumOf (qPage req)) (sizeOf (qPageSize req)),
         setCachedResults cache' k
           (freshResults toLowerCase powRound srv req) now)
    end.
Proof.
  unfold cacheKeyOf, apiSearch, freshResults.
  destruct (qKeyword req) as [keyword|]; [|discriminate].
  destruct (isEmpty keyword); [discriminate|].
  match goal with
  | |- context [if ?t then _ else _] => destruct t; [discriminate|]
  end.
  unfold searchKeyword. cbv zeta.
  destruct (Z.of_nat (List.length (parseSearchKeywords keyword)) =? 0);
    [discriminate|].
  intros [= <-]. reflexivity.
Qed.

(** X15.  What a request is answered with is decided by the entry that the
    cache holds under its key at that moment.  A request whose key has
    no entry is answered with a page of its own freshly computed list,
    and stores that list under the key with the time of the request.  A
    request whose key has an entry is answered with a page of the list
    of that entry, whichever request stored it, when the entry is at
    most [CACHE_TTL] old, and with a page of its own fresh list when it
    is older.  So the request served next after a miss, with the same
    key, gets the list of the first for as long as the entry has not
    expired; a request served later gets it only while the entry is
    still in the cache, which keeps [CACHE_MAX_ENTRIES] entries. *)
Theorem apiSearch_answers_from_cache (srv : Server) (queryCache : Cache)
    (now : Z) (req1 : Request) (k : jsstring) :
  cacheOK queryCache ->
  cacheKeyOf toLowerCase srv req1 = Some k ->
  JsMap.get queryCache k = None ->
  let fresh := freshResults toLowerCase powRound srv in
  let after := snd (apiSearch toLowerCase powRound srv queryCache now req1) in
  fst (apiSearch toLowerCase powRound srv queryCache now req1)
  = paginateResults (fresh req1)
      (pageNumOf (qPage req1)) (sizeOf (qPageSize req1))
  /\ JsMap.get after k = Some (mkEntry (fresh req1) now)
  /\ (forall now' req2,
        cacheKeyOf toLowerCase srv req2 = Some k ->
        fst (apiSearch toLowerCase powRound srv after now' req2)
        = paginateResults
            (if now' - now >? CACHE_TTL then fresh req2 else fresh req1)
            (pageNumOf (qPage req2)) (sizeOf (qPageSize req2)))
  /\ (forall later entry now' req2,
        cacheKeyOf toLowerCase srv req2 = Some k ->
        JsMap.get later k = Some entry ->
        fst (apiSearch toLowerCase powRound srv later now' req2)
        = paginateResults
            (if now' - timestamp entry >? CACHE_TTL then fresh req2
             else results entry)
            (pageNumOf (qPage req2)) (sizeOf (qPageSize req2)))
  /\ (forall later now' req2,
        cacheKeyOf toLowerCase srv req2 = Some k ->
        JsMap.get later k = None ->
        fst (apiSearch toLowerCase powRound srv later now' req2)
        = paginateResults (fresh req2)
            (pageNumOf (qPage req2)) (sizeOf (qPageSize req2))).
Proof.
  intros Hok K1 G fresh after.
  pose proof (cacheKeyOf_nonempty _ _ _ K1) as Hk.
  assert (Hit : forall later entry now' req2,
            cacheKeyOf toLowerCase srv req2 = Some k ->
            JsMap.get later k = Some entry ->
            fst (apiSearch toLowerCase powRound srv later now' req2)
            = paginateResults
                (if now' - timestamp entry >? CACHE_TTL then fresh req2
                 else results entry)
                (pageNumOf (qPage req2)) (sizeOf (qPageSize req2))).
  { intros later entry now' req2 K2 E.
    rewrite (apiSearch_lookup srv later now' req2 k K2).
    unfold getCachedResults. rewrite E.
    destruct (now' - timestamp entry >? CACHE_TTL); reflexivity. }
  assert (Miss : forall later now' req2,
            cacheKeyOf toLowerCase srv req2 = Some k ->
            JsMap.get later k = None ->
            apiSearch toLowerCase powRound srv later now' req2
            = (paginateResults (fresh req2)
                 (pageNumOf (qPage req2)) (sizeOf (qPageSize req2)),
               setCachedResults later k (fresh req2) now')).
  { intros later now' req2 K2 E.
    rewrite (apiSearch_lookup srv later now' req2 k K2).
    unfold getCachedResults. rewrite E. reflexivity. }
  assert (S : JsMap.get after k = Some (mkEntry (fresh req1) now)).
  { unfold after. rewrite (Miss queryCache now req1 K1 G). cbn [snd].
    apply (setCachedResults_spec queryCache k (fresh req1) now Hok Hk). }
  split; [now rewrite (Miss queryCache now req1 K1 G)|].
  split; [exact S|]. split; [|split; [exact Hit|]].
  - intros now' req2 K2. exact (Hit after _ now' req2 K2 S).
  - intros later now' req2 K2 E. now rewrite (Miss later now' req2 K2 E).
Qed.

End CacheReuse.

(** The request for the two words guide and intro and the request for
    the phrase guide intro share their cache key: after the first, the
    second is answered with the document that holds both words, which
    does not hold the phrase. *)
Lemma apiSearch_answers_from_cache_witness :
  map index
    (resResults
       (fst (apiSearch asciiLower exactPowRound guideServer
               (snd (apiSearch asciiLower exactPowRound guideServer [] 0
                       (requestOf "guide intro")))
               1000 (phraseRequestOf "guide intro"))))
  = [0]
  /\ map index
       (resResults
          (fst (apiSearch asciiLower exactPowRound guideServer [] 1000
                  (phraseRequestOf "guide intro"))))
     = [].
Proof.
  split.
  - rewrite (proj1 (proj2 (proj2
               (apiSearch_answers_from_cache asciiLower exactPowRound
                  guideServer [] 0 (requestOf "guide intro")
                  (lit "0|guide intro||") cacheOK_nil eq_refl eq_refl)))
               1000 (phraseRequestOf "guide intro") eq_refl).
    vm_compute. reflexivity.
  - vm_compute. reflexivity.
Defined.

(* ================================================================== *)
(** ** Identifiers in decimal and the content endpoint *)

Lemma of_uint_acc_digits (d : Decimal.uint) (acc : positive) :
  Z.pos (Pos.of_uint_acc d acc)
  = fold_left (fun acc d => acc * 10 + (d - 48)) (uintDigits d) (Z.pos acc).
Proof.
  revert acc; induction d as [|d IH|d IH|d IH|d IH|d IH|d IH|d IH|d IH|d IH|d IH];
    intros acc; cbn [Pos.of_uint_acc uintDigits fold_left];
    [reflexivity | rewrite IH; f_equal; lia ..].
Qed.

Lemma of_uint_digits (d : Decimal.uint) :
  Z.of_N (Pos.of_uint d) = digitsValue (uintDigits d).
Proof.
  unfold digitsValue.
  induction d as [|d IH|d IH|d IH|d IH|d IH|d IH|d IH|d IH|d IH|d IH];
    cbn [Pos.of_uint uintDigits fold_left];
    [reflexivity | exact IH
     | (cbn [Z.of_N]; rewrite of_uint_acc_digits; reflexivity) ..].
Qed.

Lemma uintDigits_digits (d : Decimal.uint) :
  forallb isDigit (uintDigits d) = true.
Proof. induction d; simpl; auto. Qed.

Lemma takeWhile_all (p : jschar -> bool) (s : jsstring) :
  forallb p s = true -> takeWhile p s = s.
Proof.
  induction s as [|c s IH]; simpl; [reflexivity|].
  intros H. apply andb_true_iff in H. destruct H as [-> H]. now rewrite IH.
Qed.

(** The decimal numeral of a non-negative integer: digits only, at
    least one, and their value is the integer. *)
Lemma ofNumber_spec (n : Z) :
  0 <= n ->
  exists c r, ofNumber n = c :: r
              /\ forallb isDigit (c :: r) = true
              /\ digitsValue (c :: r) = n.
Proof.
  intros Hn. unfold ofNumber.
  pose proof (DecimalN.Unsigned.of_to (Z.to_N n)) as E. unfold N.of_uint in E.
  pose proof (of_uint_digits (N.to_uint (Z.to_N n))) as V. rewrite E in V.
  pose proof (uintDigits_digits (N.to_uint (Z.to_N n))) as D.
  destruct (uintDigits (N.to_uint (Z.to_N n))) as [|c r] eqn:U.
  - exfalso. destruct (Z.to_N n); [discriminate U | discriminate V].
  - exists c, r. split; [reflexivity|]. split; [exact D|].
    rewrite <- V. lia.
Qed.

Lemma parseIntAuto_digits (c : jschar) (r : jsstring) :
  forallb isDigit (c :: r) = true ->
  parseIntAuto (c :: r) = Some (digitsValue (c :: r))
  /\ parseInt (c :: r) = Some (digitsValue (c :: r)).
Proof.
  intros D. pose proof (takeWhile_all isDigit (c :: r) D) as T.
  cbn [forallb] in D. apply andb_true_iff in D. destruct D as [Dc Dr].
  assert (Hc : 48 <= c <= 57) by (unfold isDigit in Dc; lia).
  assert (W : isWhiteSpace c = false) by (unfold isWhiteSpace; lia).
  assert (M : (c =? 45) = false) by lia.
  assert (Pl : (c =? 43) = false) by lia.
  unfold parseIntAuto, parseInt. cbn [dropWhile]. rewrite W, M, Pl, T.
  cbn [isEmpty]. rewrite Z.mul_1_l. split; [|reflexivity].
  destruct r as [|x hex]; [reflexivity|].
  cbn [forallb] in Dr. apply andb_true_iff in Dr. destruct Dr as [Dx _].
  assert (Hx : 48 <= x <= 57) by (unfold isDigit in Dx; lia).
  replace ((c =? 48) && ((x =? 120) || (x =? 88))) with false by lia.
  reflexivity.
Qed.

(** Read back, without or with the radix 10, the decimal numeral of a
    non-negative integer is that integer. *)
Lemma parseInt_ofNumber (n : Z) :
  0 <= n ->
  parseIntAuto (ofNumber n) = Some n /\ parseInt (ofNumber n) = Some n.
Proof.
  intros Hn. destruct (ofNumber_spec n Hn) as (c & r & -> & D & V).
  rewrite <- V. now apply parseIntAuto_digits.
Qed.

(** X16.  The content endpoint answers the decimal numeral of the identifier
    of a stored document with the content, title and path of that
    document; and whatever it answers is the document stored under the
    integer that it read from the parameter, which lies within the
    store. *)
Theorem apiContent_serves_documents (srv : Server) :
  (forall i d, docAt srv i = Some d ->
     apiContent srv (ofNumber i) = Some (bodyOf d))
  /\ (forall indexParam body,
        apiContent srv indexParam = Some body ->
        exists idx d,
          parseIntAuto indexParam = Some idx
          /\ 0 <= idx < Z.of_nat (List.length (searchData srv))
          /\ docAt srv idx = Some d
          /\ body = bodyOf d).
Proof.
  split.
  - intros i d H. pose proof (docAt_Some _ _ _ H) as B.
    unfold apiContent.
    rewrite (proj1 (parseInt_ofNumber i (proj1 B))), H.
    replace ((0 <=? i) && (i <? Z.of_nat (List.length (searchData srv))))
      with true by lia.
    reflexivity.
  - intros indexParam body. unfold apiContent.
    destruct (parseIntAuto indexParam) as [idx|]; [|discriminate].
    destruct ((0 <=? idx) && (idx <? Z.of_nat (List.length (searchData srv))))
      eqn:B; [|discriminate].
    destruct (docAt srv idx) as [d|] eqn:D; [|discriminate].
    apply andb_true_iff in B. destruct B as [B1 B2].
    apply Z.leb_le in B1. apply Z.ltb_lt in B2.
    intros [= <-]. exists idx, d. repeat split; assumption.
Qed.

(* ================================================================== *)
(** ** The preview of a result *)

Lemma Qceiling_plus_Z (a b : Z) :
  Qceiling (Qplus (inject_Z a) (inject_Z b)) = a + b.
Proof.
  unfold Qceiling, Qfloor, Qplus, Qopp, inject_Z. simpl.
  rewrite Z.div_1_r. lia.
Qed.

Lemma indexOf_absent (source keyword : jsstring) :
  ~ occursIn keyword source -> indexOf source keyword 0 = -1.
Proof.
  intros H. unfold indexOf.
  replace (Z.max 0 (Z.min 0 (len source))) with 0 by (unfold len; lia).
  cbn [Z.to_nat skipn].
  destruct (Z.eq_dec (indexOfFrom keyword source 0) (-1)) as [E|E];
    [exact E|].
  exfalso. apply H. now apply (indexOfFrom_occurs keyword source 0).
Qed.

Lemma slice_prefix {A} (l : list A) (n : Z) :
  0 <= n -> slice l 0 n = firstn (Z.to_nat n) l.
Proof.
  intros Hn. change n with (0 + n) at 1.
  rewrite slice_window by lia. reflexivity.
Qed.

Section PreviewProperties.

Variable toLowerCase : jsstring -> jsstring.

Lemma bestPreviewMatch_none (lower : jsstring) (keywords : list jsstring) :
  (forall kw, In kw keywords -> kw <> [] ->
     ~ occursIn (toLowerCase kw) lower) ->
  bestPreviewMatch toLowerCase lower keywords = (-1, 0).
Proof.
  unfold bestPreviewMatch. generalize (-1, 0) as best.
  induction keywords as [|kw keywords IH]; intros best H; [reflexivity|].
  cbn [fold_left].
  destruct (isEmpty kw) eqn:E.
  - apply IH. intros k Hk. apply H. now right.
  - rewrite indexOf_absent
      by (apply H; [now left | now apply isEmpty_false]).
    cbn [Z.eqb negb andb]. apply IH. intros k Hk. apply H. now right.
Qed.

(** X17.  A preview is at most two code units longer than the window (one
    ellipsis at either end) and holds no carriage return.  When no
    keyword occurs in the lower-case text, it is the normalized text,
    cut after the window and closed by an ellipsis when it is longer. *)
Theorem buildPreview_bounded (text : jsstring) (keywords : list jsstring)
    (maxLength : Z) :
  0 <= maxLength ->
  len (buildPreview toLowerCase text keywords maxLength) <= maxLength + 2
  /\ ~ In crChar (buildPreview toLowerCase text keywords maxLength)
  /\ ((forall kw, In kw keywords -> kw <> [] ->
         ~ occursIn (toLowerCase kw)
             (toLowerCase (normalizeLineEndings text))) ->
      buildPreview toLowerCase text keywords maxLength
      = if len (normalizeLineEndings text) >? maxLength
        then firstn (Z.to_nat maxLength) (normalizeLineEndings text)
             ++ [ellipsisChar]
        else normalizeLineEndings text).
Proof.
  intros Hm.
  assert (Hcr : forall a b, ~ In crChar (slice (normalizeLineEndings text) a b)).
  { intros a b C. apply slice_incl in C.
    now apply (normalizeLineEndings_no_cr text). }
  assert (He : crChar <> ellipsisChar) by discriminate.
  split; [|split].
  - unfold buildPreview. destruct (isEmpty text); [unfold len; simpl; lia|].
    cbv zeta.
    destruct (fst (bestPreviewMatch toLowerCase _ keywords) =? -1).
    + pose proof (slice_length (normalizeLineEndings text) 0 maxLength
                    ltac:(lia) Hm) as L.
      destruct (len (normalizeLineEndings text) >? maxLength);
        unfold len in *; [rewrite length_app; simpl|]; lia.
    + rewrite Qceiling_plus_Z.
      match goal with
      | |- context [slice (normalizeLineEndings text) ?a ?b] =>
          pose proof (slice_length (normalizeLineEndings text) a b
                        ltac:(lia) ltac:(unfold len; lia)) as L;
          set (snippet := slice (normalizeLineEndings text) a b) in *
      end.
      match goal with
      | |- context [if ?c then ellipsisChar :: snippet else snippet] =>
          destruct c
      end;
        match goal with
        | |- context [if ?c then _ else _] => destruct c
        end;
        unfold len in *; try rewrite length_app; cbn [List.length] in *; lia.
  - unfold buildPreview. destruct (isEmpty text); [intros []|].
    cbv zeta.
    destruct (fst (bestPreviewMatch toLowerCase _ keywords) =? -1).
    + destruct (len (normalizeLineEndings text) >? maxLength);
        [|apply Hcr].
      intros C. apply in_app_or in C. destruct C as [C|[C|[]]];
        [now apply Hcr in C | congruence].
    + match goal with
      | |- context [slice (normalizeLineEndings text) ?a ?b] =>
          pose proof (Hcr a b) as S;
          set (snippet := slice (normalizeLineEndings text) a b) in *
      end.
      match goal with
      | |- context [if ?c then ellipsisChar :: snippet else snippet] =>
          destruct c
      end;
        match goal with
        | |- context [if ?c then _ else _] => destruct c
        end;
        intros C; repeat (apply in_app_or in C; destruct C as [C|C]);
        cbn [In] in C; intuition congruence.
  - intros H. unfold buildPreview.
    destruct (isEmpty text) eqn:E.
    { apply isEmpty_true in E. subst text.
      change (normalizeLineEndings []) with (@nil jschar).
      destruct (Z.gtb_spec (len (@nil jschar)) maxLength);
        [unfold len in *; simpl in *; lia | reflexivity]. }
    cbv zeta. rewrite (bestPreviewMatch_none _ keywords H).
    cbn [fst Z.eqb]. rewrite slice_prefix by exact Hm.
    destruct (Z.gtb_spec (len (normalizeLineEndings text)) maxLength);
      [reflexivity|].
    apply firstn_all2. unfold len in *. lia.
Qed.

End PreviewProperties.

(** The preview of a text in which the keyword does not occur, for a
    window of five code units. *)
Lemma buildPreview_bounded_witness :
  buildPreview asciiLower (lit "Hello World") [lit "zzz"] 5
  = lit "Hello" ++ [ellipsisChar].
Proof.
  rewrite (proj2 (proj2 (buildPreview_bounded asciiLower (lit "Hello World")
                           [lit "zzz"] 5 ltac:(discriminate)))).
  - reflexivity.
  - intros kw [<-|[]] _ O.
    assert (P : 0 < countOccurrences
                      (asciiLower (normalizeLineEndings (lit "Hello World")))
                      (asciiLower (lit "zzz")))
      by (apply countOccurrences_positive; split; [discriminate | exact O]).
    vm_compute in P. discriminate.
Defined.

(* ================================================================== *)
(** ** The result list of a cache miss, exactly *)

Lemma sorted_same_elements {A} (R : A -> A -> Prop) (l1 l2 : list A) :
  (forall a b, R a b -> ~ R b a) ->
  StronglySorted R l1 -> StronglySorted R l2 ->
  (forall x, In x l1 <-> In x l2) ->
  l1 = l2.
Proof.
  intros Hasym. revert l2.
  induction l1 as [|a l1 IH]; intros l2 S1 S2 E.
  - destruct l2 as [|b l2]; [reflexivity|].
    exfalso. apply (proj2 (E b)). now left.
  - destruct l2 as [|b l2]; [exfalso; apply (proj1 (E a)); now left|].
    apply StronglySorted_inv in S1. destruct S1 as [S1 F1].
    apply StronglySorted_inv in S2. destruct S2 as [S2 F2].
    rewrite Forall_forall in F1, F2.
    assert (Hab : a = b).
    { destruct (proj1 (E a) (or_introl eq_refl)) as [->|Ha]; [reflexivity|].
      destruct (proj2 (E b) (or_introl eq_refl)) as [->|Hb]; [reflexivity|].
      exfalso. apply (Hasym a b); auto. }
    subst b. f_equal. apply IH; [exact S1 | exact S2|].
    intros x. split; intros Hx.
    + destruct (proj1 (E x) (or_intror Hx)) as [<-|H]; [|exact H].
      exfalso. apply (Hasym a a); auto.
    + destruct (proj2 (E x) (or_intror Hx)) as [<-|H]; [|exact H].
      exfalso. apply (Hasym a a); auto.
Qed.

Lemma StronglySorted_filter {A} (R : A -> A -> Prop) (f : A -> bool)
    (l : list A) :
  StronglySorted R l -> StronglySorted R (filter f l).
Proof.
  induction 1 as [|a l S IH F]; simpl; [constructor|].
  destruct (f a); [|exact IH]. constructor; [exact IH|].
  rewrite Forall_forall in *. intros x Hx. apply filter_In in Hx.
  now apply F.
Qed.

Lemma precedes_asym (a b : Result) : precedes a b -> ~ precedes b a.
Proof. unfold precedes. lia. Qed.

Lemma withinBase_Some (ids : JsSet.t) (i : Z) :
  withinBase (Some ids) i <-> In i ids.
Proof.
  unfold withinBase. split; [intros H; now apply H | now intros H ? [= <-]].
Qed.

(** The candidate set by membership: null only when no bucket is used
    and there is no restriction. *)
Lemma collectCandidateIndexes_members (index : JsMap.t JsSet.t)
    (groups : list (list jsstring)) (base : option JsSet.t) :
  match collectCandidateIndexes index groups base with
  | Some cand =>
      forall i, In i cand
                <-> Forall (fun b => In i b) (usedBuckets index groups)
                    /\ withinBase base i
  | None => usedBuckets index groups = [] /\ base = None
  end.
Proof.
  unfold collectCandidateIndexes.
  pose proof (collectLoop_intersection index base groups None false
                (fun _ => True) (conj eq_refl (fun _ => I))) as L.
  destruct (usedBuckets index groups) as [|b bs].
  - rewrite L. cbn [negb]. destruct base as [ids|]; [|split; reflexivity].
    intros i. rewrite withinBase_Some. split; [intros H; split; [constructor | exact H] | tauto].
  - destruct L as (c' & -> & Hc'). cbn [negb]. intros i. rewrite Hc'. tauto.
Qed.

Lemma sorted_strict (l : list Z) :
  StronglySorted (fun a b => a - b <= 0) l -> NoDup l ->
  StronglySorted (fun a b => a < b) l.
Proof.
  induction 1 as [|a l S IH F]; intros N; [constructor|].
  inversion N as [|? ? Hnot Hnd]; subst.
  constructor; [now apply IH|].
  rewrite Forall_forall in *. intros x Hx.
  assert (a <> x) by (intros ->; contradiction).
  specialize (F x Hx). lia.
Qed.

(** Sorting by [a - b] gives one list for all orders of a set. *)
Lemma sortBy_ids_unique (ids1 ids2 : list Z) :
  NoDup ids1 -> Permutation ids1 ids2 ->
  sortBy (fun a b => a - b) ids1 = sortBy (fun a b => a - b) ids2.
Proof.
  intros N1 P.
  assert (N2 : NoDup ids2) by (eapply Permutation_NoDup; eauto).
  assert (S : forall ids, NoDup ids ->
            StronglySorted (fun a b => a < b) (sortBy (fun a b => a - b) ids)).
  { intros ids N. apply sorted_strict.
    - apply (sortBy_sorted (fun a b => a - b)); intros; lia.
    - eapply Permutation_NoDup; [apply Permutation_sym, sortBy_perm | exact N]. }
  apply (sorted_same_elements (fun a b => a < b)); [lia | now apply S | now apply S|].
  intros x. split; intros H.
  - apply (Permutation_in _ (sortBy_perm _ _)) in H.
    apply (Permutation_in _ (Permutation_sym (sortBy_perm _ _))).
    eapply Permutation_in; eauto.
  - apply (Permutation_in _ (sortBy_perm _ _)) in H.
    apply (Permutation_in _ (Permutation_sym (sortBy_perm _ _))).
    eapply Permutation_in; [apply Permutation_sym|]; eauto.
Qed.

Section ResultSet.

Variable powRound : Z -> Z -> Z -> Z.

(** The two early exits of the handler return what the ranking loop
    would have computed. *)
Lemma computeResults_eq srv groups isTitleOnly base cat :
  computeResults powRound srv groups isTitleOnly base cat
  = sortBy compareResults
      (rankAll powRound srv groups isTitleOnly
         (searchSpaceOf srv groups base cat)).
Proof.
  unfold computeResults, searchSpaceOf.
  destruct (collectCandidateIndexes (tokenIndex srv) groups base) as [cand|].
  - destruct cand as [|i cand]; cbn [JsSet.size List.length Z.of_nat Z.eqb].
    + destruct (isEmpty cat); reflexivity.
    + replace (Z.pos (Pos.of_succ_nat (List.length cand)) =? 0) with false
        by reflexivity.
      destruct (isEmpty cat); cbn [negb andb]; [reflexivity|].
      match goal with
      | |- (if Z.of_nat (List.length ?f) =? 0 then _ else _) = _ =>
          destruct f; reflexivity
      end.
  - destruct (isEmpty cat); cbn [negb andb]; [reflexivity|].
    match goal with
    | |- (if Z.of_nat (List.length ?f) =? 0 then _ else _) = _ =>
        destruct f; reflexivity
    end.
Qed.

Lemma searchSpaceOf_members srv groups base cat i d :
  docAt srv i = Some d ->
  In i (searchSpaceOf srv groups base cat)
  <-> Forall (fun b => In i b) (usedBuckets (tokenIndex srv) groups)
      /\ withinBase base i
      /\ (cat <> [] -> category d = cat).
Proof.
  intros D. unfold searchSpaceOf.
  pose proof (collectCandidateIndexes_members (tokenIndex srv) groups base) as M.
  assert (S : In i match collectCandidateIndexes (tokenIndex srv) groups base with
                   | Some cand => cand
                   | None =>
                       match base with
                       | Some ids => ids
                       | None => map Z.of_nat (seq 0 (List.length (searchData srv)))
                       end
                   end
              <-> Forall (fun b => In i b) (usedBuckets (tokenIndex srv) groups)
                  /\ withinBase base i).
  { destruct (collectCandidateIndexes (tokenIndex srv) groups base) as [cand|];
      [apply M|].
    destruct M as [-> ->]. split.
    - intros _. split; [constructor | intros ? [=]].
    - intros _. apply docAt_Some in D. apply in_map_iff.
      exists (Z.to_nat i). split; [lia | apply in_seq; lia]. }
  destruct (isEmpty cat) eqn:E.
  - apply isEmpty_true in E. rewrite S. subst cat. tauto.
  - apply isEmpty_false in E. rewrite filter_In, S, D, streq_eq. tauto.
Qed.

Lemma computeResults_iff srv groups isTitleOnly base cat r :
  In r (computeResults powRound srv groups isTitleOnly base cat)
  <-> rankItem powRound srv groups isTitleOnly (index r) = Some r
      /\ Forall (fun b => In (index r) b) (usedBuckets (tokenIndex srv) groups)
      /\ withinBase base (index r)
      /\ (cat <> [] -> category (item r) = cat).
Proof.
  rewrite computeResults_eq. split.
  - intros H. apply (Permutation_in _ (sortBy_perm compareResults _)) in H.
    apply rankAll_In in H. destruct H as (idx & Hidx & Hr).
    pose proof (rankItem_sound _ _ _ _ _ _ Hr) as (E & D & _). subst idx.
    split; [exact Hr|]. now apply (searchSpaceOf_members _ _ _ _ _ _ D).
  - intros (Hr & H).
    apply (Permutation_in _ (Permutation_sym (sortBy_perm compareResults _))).
    apply rankAll_In. exists (index r). split; [|exact Hr].
    pose proof (rankItem_sound _ _ _ _ _ _ Hr) as (_ & D & _).
    now apply (searchSpaceOf_members _ _ _ _ _ _ D).
Qed.

(** X18.  The result list of a cache miss holds a result exactly when it is
    the ranking of its document (which satisfies every group), every
    bucket that the candidate selection uses holds the document, the
    document lies within the restriction, and its category is the one
    asked for, if one is. *)
Theorem computeResults_members srv groups isTitleOnly base cat r :
  In r (computeResults powRound srv groups isTitleOnly base cat)
  <-> rankItem powRound srv groups isTitleOnly (index r) = Some r
      /\ Forall (groupSatisfied isTitleOnly (item r)) groups
      /\ Forall (fun b => In (index r) b) (usedBuckets (tokenIndex srv) groups)
      /\ withinBase base (index r)
      /\ (cat <> [] -> category (item r) = cat).
Proof.
  rewrite computeResults_iff. split.
  - intros (Hr & H). split; [exact Hr|]. split; [|exact H].
    now apply rankItem_sound in Hr.
  - tauto.
Qed.

(** X19.  On a cache miss, the list that the handler computes with a
    category filter is the list that it computes without the filter
    for the same groups, mode and restriction, cut down to the results
    whose document has that category, in the same order.  This is a
    statement about the two computed lists, not about what a request
    is answered with from the cache. *)
Theorem computeResults_category srv groups isTitleOnly base cat :
  indexOK (tokenIndex srv) ->
  (forall b, base = Some b -> NoDup b) ->
  cat <> [] ->
  computeResults powRound srv groups isTitleOnly base cat
  = filter (fun r => streq (category (item r)) cat)
      (computeResults powRound srv groups isTitleOnly base []).
Proof.
  intros Hok Hbase Hcat.
  apply (sorted_same_elements precedes); [apply precedes_asym | | |].
  - now apply computeResults_sorted.
  - apply StronglySorted_filter. now apply computeResults_sorted.
  - intros r. rewrite filter_In, streq_eq, !computeResults_iff.
    intuition congruence.
Qed.

(** X20.  Listing the identifiers of the restriction in another order changes
    neither the cache key nor the result list. *)
Theorem computeResults_base_order srv groups isTitleOnly ids1 ids2 cat parts :
  indexOK (tokenIndex srv) ->
  NoDup ids1 -> Permutation ids1 ids2 ->
  buildCacheKey parts isTitleOnly (Some ids1) cat
  = buildCacheKey parts isTitleOnly (Some ids2) cat
  /\ computeResults powRound srv groups isTitleOnly (Some ids1) cat
     = computeResults powRound srv groups isTitleOnly (Some ids2) cat.
Proof.
  intros Hok N1 P.
  assert (N2 : NoDup ids2) by (eapply Permutation_NoDup; eauto).
  split.
  - unfold buildCacheKey. now rewrite (sortBy_ids_unique ids1 ids2 N1 P).
  - apply (sorted_same_elements precedes); [apply precedes_asym | | |].
    + apply computeResults_sorted; [exact Hok | now intros b [= <-]].
    + apply computeResults_sorted; [exact Hok | now intros b [= <-]].
    + intros r. rewrite !computeResults_iff, !withinBase_Some.
      split; intros (H1 & H2 & H3 & H4); repeat split; auto.
      * exact (Permutation_in _ P H3).
      * exact (Permutation_in _ (Permutation_sym P) H3).
Qed.

End ResultSet.

(* ================================================================== *)
(** ** Source paths and the set of categories *)

Lemma collapseBackslashes_id (s : jsstring) (inRun : bool) :
  ~ In backslashChar s -> collapseBackslashes s inRun = s.
Proof.
  revert inRun; induction s as [|c s IH]; intros inRun H; simpl; [reflexivity|].
  destruct (Z.eqb_spec c backslashChar) as [E|E];
    [exfalso; apply H; now left|].
  rewrite IH; [reflexivity|]. intros C. apply H. now right.
Qed.

Lemma stripTopicsPrefix_In (s : jsstring) (c : jschar) :
  In c (stripTopicsPrefix s) -> In c s.
Proof.
  unfold stripTopicsPrefix.
  destruct s as [|c1 [|c2 [|c3 [|c4 [|c5 [|c6 [|c7 rest]]]]]]]; try tauto.
  destruct (_ && _); [|tauto].
  intros H. do 7 right. exact H.
Qed.

(** X21.  The source path of a result holds no backslash; a path without
    backslashes only loses the topics prefix, which is matched without
    regard to case; and without that prefix it is left as it is. *)
Theorem extractSourcePath_clean (rawPath : jsstring) :
  ~ In backslashChar (extractSourcePath rawPath)
  /\ (~ In backslashChar rawPath ->
      extractSourcePath rawPath = stripTopicsPrefix rawPath)
  /\ (forall rest,
        ~ In backslashChar rest ->
        extractSourcePath (lit "topics/" ++ rest) = rest
        /\ extractSourcePath (lit "Topics" ++ backslashChar :: rest) = rest).
Proof.
  split; [|split].
  - unfold extractSourcePath. destruct (isEmpty rawPath); [tauto|].
    intros C. apply stripTopicsPrefix_In in C.
    now apply collapseBackslashes_none in C.
  - intros H. unfold extractSourcePath.
    destruct rawPath as [|c r]; [reflexivity|]. cbn [isEmpty].
    now rewrite collapseBackslashes_id.
  - intros rest H. unfold extractSourcePath. cbn [lit isEmpty app
      list_ascii_of_string map]. cbn.
    now rewrite !collapseBackslashes_id.
Qed.

Section CategoryProperties.

Variable toLowerCase : jsstring -> jsstring.

(** X22.  After loading, the set of categories lists the default category
    first and then the category of every document, each once. *)
Theorem categoriesOf_documents (rawContents : list jsstring) :
  NoDup (categoriesOf toLowerCase rawContents)
  /\ hd [] (categoriesOf toLowerCase rawContents) = DEFAULT_CATEGORY
  /\ forall c,
       In c (categoriesOf toLowerCase rawContents)
       <-> c = DEFAULT_CATEGORY
           \/ exists d,
                In d (searchData (loadSearchData toLowerCase rawContents))
                /\ category d = c.
Proof.
  unfold categoriesOf, loadSearchData. rewrite loadRecords_searchData.
  split; [apply dedupe_spec|]. split; [reflexivity|].
  intros c. rewrite (proj2 (dedupe_spec _ _)). cbn [In].
  rewrite in_map_iff. split.
  - intros [[H|(d & E & Hd)] _]; [left; now symmetry | right; eauto].
  - intros [->|(d & Hd & E)]; (split; [|tauto]); [now left | right; eauto].
Qed.

End CategoryProperties.

(* ================================================================== *)
(** ** The chunk writer *)

Lemma chunkNames_length (n : nat) : List.length (chunkNames n) = n.
Proof. unfold chunkNames. now rewrite length_map, length_seq. Qed.

Lemma chunkNames_S (n : nat) :
  chunkNames (S n) = chunkNames n ++ [chunkFileName (Z.of_nat n)].
Proof. unfold chunkNames. now rewrite seq_S, map_app. Qed.

Lemma digitsValue_zeros (k : nat) (ds : jsstring) :
  digitsValue (repeat 48 k ++ ds) = digitsValue ds.
Proof.
  unfold digitsValue. rewrite fold_left_app. f_equal.
  induction k as [|k IH]; [reflexivity|]. cbn [repeat fold_left]. exact IH.
Qed.

(** The digits of a chunk file name read back as its number. *)
Lemma parseInt_padStart (a : Z) :
  0 <= a -> parseInt (padStart (ofNumber a) 3 48) = Some a.
Proof.
  intros Ha. destruct (ofNumber_spec a Ha) as (c & r & E & D & V).
  unfold padStart. rewrite E.
  match goal with
  | |- parseInt (?zeros ++ _) = _ =>
      assert (F : forallb isDigit (zeros ++ c :: r) = true);
      [|destruct (zeros ++ c :: r) as [|x xs] eqn:P;
        [destruct zeros; discriminate P|]]
  end.
  - rewrite forallb_app. apply andb_true_iff. split; [|exact D].
    induction (3 - List.length (c :: r))%nat as [|k IH];
      [reflexivity | exact IH].
  - rewrite (proj2 (parseIntAuto_digits x xs F)), <- P, digitsValue_zeros.
    now rewrite V.
Qed.

Lemma chunkFileName_inj (a b : Z) :
  0 <= a -> 0 <= b -> chunkFileName a = chunkFileName b -> a = b.
Proof.
  intros Ha Hb E. unfold chunkFileName in E.
  apply app_inv_head, app_inv_tail in E.
  apply (f_equal parseInt) in E.
  rewrite !parseInt_padStart in E by assumption. congruence.
Qed.

Lemma chunkNames_fresh (n : nat) :
  ~ In (chunkFileName (Z.of_nat n)) (chunkNames n).
Proof.
  unfold chunkNames. rewrite in_map_iff. intros (i & E & Hi).
  apply chunkFileName_inj in E; try lia. apply in_seq in Hi. lia.
Qed.

Lemma keys_combine {V} (names : list jsstring) (vals : list V) :
  List.length names = List.length vals ->
  JsMap.keys (combine names vals) = names.
Proof.
  revert vals; induction names as [|n names IH]; intros [|v vals] L;
    try discriminate; [reflexivity|].
  cbn. f_equal. apply IH. now injection L.
Qed.

Lemma combine_app {A B} (l1 l2 : list A) (m1 m2 : list B) :
  List.length l1 = List.length m1 ->
  combine (l1 ++ l2) (m1 ++ m2) = combine l1 m1 ++ combine l2 m2.
Proof.
  revert m1; induction l1 as [|x l1 IH]; intros [|y m1] L; try discriminate;
    [reflexivity|].
  cbn. f_equal. apply IH. now injection L.
Qed.

Section ChunkProperties.

Variable byteLength : jsstring -> Z.

Lemma flush_chunks (st st' : ChunkState) (chunks : list (list jsstring)) :
  holdsChunks st chunks ->
  flush byteLength st = Some st' ->
  exists chunks',
    holdsChunks st' chunks'
    /\ currentEntries st' = []
    /\ List.concat chunks' = List.concat chunks ++ currentEntries st
    /\ (Forall (goodChunk byteLength) chunks ->
        Forall (goodChunk byteLength) chunks').
Proof.
  intros (Hm & Hi & Hf). unfold flush.
  destruct (currentEntries st) as [|e cur] eqn:C;
    cbn [List.length Z.of_nat Z.eqb].
  - intros [= <-]. exists chunks. rewrite C, app_nil_r.
    repeat split; auto.
  - replace (Z.pos (Pos.of_succ_nat (List.length cur)) =? 0) with false
      by reflexivity.
    cbv zeta.
    destruct (Z.gtb_spec (byteLength (payloadOf (e :: cur))) MAX_CHUNK_BYTES);
      [discriminate|].
    intros [= <-]. exists (chunks ++ [e :: cur]).
    cbn [manifest chunkIndex writtenFiles currentEntries].
    assert (L : List.length (chunks ++ [e :: cur]) = S (List.length chunks))
      by (rewrite length_app; cbn [List.length]; lia).
    split; [|split; [reflexivity|split]].
    + unfold holdsChunks. cbn [manifest chunkIndex writtenFiles].
      rewrite L, chunkNames_S, Hm, Hi, Hf. split; [reflexivity|].
      split; [lia|].
      rewrite set_absent
        by (rewrite keys_combine by apply chunkNames_length;
            apply chunkNames_fresh).
      rewrite combine_app by apply chunkNames_length. reflexivity.
    + rewrite concat_app. cbn [List.concat]. now rewrite app_nil_r.
    + intros F. apply Forall_app. split; [exact F|].
      constructor; [|constructor]. split; [discriminate | assumption].
Qed.

Lemma addEntry_chunks (st st' : ChunkState) (e : jsstring)
    (chunks : list (list jsstring)) :
  holdsChunks st chunks ->
  addEntry byteLength st e = Some st' ->
  exists chunks',
    holdsChunks st' chunks'
    /\ List.concat chunks' ++ currentEntries st'
       = (List.concat chunks ++ currentEntries st) ++ [e]
    /\ (Forall (goodChunk byteLength) chunks ->
        Forall (goodChunk byteLength) chunks')
    /\ byteLength e <= MAX_CHUNK_BYTES.
Proof.
  intros H. unfold addEntry. cbv zeta.
  destruct (Z.gtb_spec (byteLength e) MAX_CHUNK_BYTES); [discriminate|].
  match goal with
  | |- context [if ?c then flush byteLength st else Some st] => destruct c
  end.
  - destruct (flush byteLength st) as [st1|] eqn:F; [|discriminate].
    destruct (flush_chunks _ _ _ H F) as (chunks' & H' & E & C & G).
    intros [= <-]. exists chunks'.
    cbn [currentEntries]. rewrite E. cbn [app].
    split; [exact H'|]. split; [now rewrite C|]. auto.
  - intros [= <-]. exists chunks. cbn [currentEntries].
    split; [exact H|]. split; [now rewrite app_assoc|]. auto.
Qed.

Lemma addEntries_chunks (entryJsons : list jsstring) (st st' : ChunkState)
    (chunks : list (list jsstring)) :
  holdsChunks st chunks ->
  addEntries byteLength st entryJsons = Some st' ->
  exists chunks',
    holdsChunks st' chunks'
    /\ List.concat chunks' ++ currentEntries st'
       = (List.concat chunks ++ currentEntries st) ++ entryJsons
    /\ (Forall (goodChunk byteLength) chunks ->
        Forall (goodChunk byteLength) chunks')
    /\ Forall (fun e => byteLength e <= MAX_CHUNK_BYTES) entryJsons.
Proof.
  revert st chunks; induction entryJsons as [|e rest IH]; intros st chunks H;
    cbn [addEntries].
  - intros [= <-]. exists chunks. rewrite app_nil_r. auto.
  - destruct (addEntry byteLength st e) as [st1|] eqn:A; [|discriminate].
    destruct (addEntry_chunks _ _ _ _ H A) as (chunks1 & H1 & C1 & G1 & B1).
    intros R. destruct (IH _ _ H1 R) as (chunks' & H' & C' & G' & B').
    exists chunks'. split; [exact H'|].
    split; [now rewrite C', C1, <- app_assoc|]. auto.
Qed.

Lemma writeChunks_chunks (entryJsons : list jsstring) (names : list jsstring)
    (files : JsMap.t (list jsstring)) :
  writeChunks byteLength entryJsons = Some (names, files) ->
  exists chunks,
    names = chunkNames (List.length chunks)
    /\ files = combine names chunks
    /\ List.concat chunks = entryJsons
    /\ Forall (goodChunk byteLength) chunks
    /\ Forall (fun e => byteLength e <= MAX_CHUNK_BYTES) entryJsons.
Proof.
  unfold writeChunks.
  destruct (addEntries byteLength (mkChunkState [] 0 [] [] 2) entryJsons)
    as [st|] eqn:A; [|discriminate].
  assert (H0 : holdsChunks (mkChunkState [] 0 [] [] 2) [])
    by (repeat split).
  destruct (addEntries_chunks _ _ _ _ H0 A) as (chunks1 & H1 & C1 & G1 & B1).
  destruct (flush byteLength st) as [st'|] eqn:F; [|discriminate].
  destruct (flush_chunks _ _ _ H1 F) as (chunks' & (Hm & Hi & Hf) & E & C & G).
  intros [= <- <-]. exists chunks'.
  split; [exact Hm|]. split; [now rewrite Hf, Hm|].
  split; [now rewrite C, C1|]. split; [|exact B1].
  apply G, G1. constructor.
Qed.

(** X23.  When the chunk writer does not throw, it has written the files
    [chunk-000.json], [chunk-001.json] and so on, which the manifest
    lists in this order and which hold, one after the other, the entries
    it was given, in order; no file is empty, no payload exceeds the
    limit, and no entry does. *)
Theorem writeChunks_partition (entryJsons : list jsstring)
    (names : list jsstring) (files : JsMap.t (list jsstring)) :
  writeChunks byteLength entryJsons = Some (names, files) ->
  exists chunks,
    names = map (fun i => chunkFileName (Z.of_nat i))
                (seq 0 (List.length chunks))
    /\ files = combine names chunks
    /\ List.concat chunks = entryJsons
    /\ Forall (goodChunk byteLength) chunks
    /\ Forall (fun e => byteLength e <= MAX_CHUNK_BYTES) entryJsons.
Proof. intros W. exact (writeChunks_chunks _ _ _ W). Qed.

Hypothesis byteLength_nonneg : forall e, 0 <= byteLength e.
Hypothesis byteLength_payload :
  forall entries, entries <> [] ->
    byteLength (payloadOf entries) = payloadBytes byteLength entries.

Lemma payloadBytes_snoc (entries : list jsstring) (e : jsstring) :
  payloadBytes byteLength (entries ++ [e])
  = match entries with
    | [] => 2 + byteLength e
    | _ :: _ => payloadBytes byteLength entries + 1 + byteLength e
    end.
Proof.
  unfold payloadBytes. rewrite fold_right_app, length_app. cbn [fold_right].
  assert (S : forall l a,
            fold_right (fun e acc => byteLength e + acc) a l
            = fold_right (fun e acc => byteLength e + acc) 0 l + a).
  { induction l as [|x l IH]; intros a; cbn [fold_right]; [lia|].
    rewrite IH. lia. }
  rewrite S. destruct entries; cbn [List.length fold_right]; lia.
Qed.

Lemma payloadBytes_In (entries : list jsstring) (e : jsstring) :
  In e entries -> byteLength e + 2 <= payloadBytes byteLength entries.
Proof.
  unfold payloadBytes. induction entries as [|x entries IH]; [intros []|].
  cbn [fold_right List.length]. intros [->|H].
  - assert (0 <= fold_right (fun e acc => byteLength e + acc) 0 entries).
    { clear IH. induction entries as [|y l IH]; cbn [fold_right]; [lia|].
      pose proof (byteLength_nonneg y). lia. }
    lia.
  - specialize (IH H). pose proof (byteLength_nonneg x).
    destruct entries; [destruct H|]. cbn [List.length] in *. lia.
Qed.

Lemma addEntry_fits (st : ChunkState) (e : jsstring) :
  fits byteLength st -> byteLength e <= MAX_CHUNK_BYTES - 2 ->
  exists st', addEntry byteLength st e = Some st' /\ fits byteLength st'.
Proof.
  intros F He. unfold addEntry. cbv zeta.
  destruct (Z.gtb_spec (byteLength e) MAX_CHUNK_BYTES); [lia|].
  pose proof (byteLength_nonneg e) as Hn.
  unfold fits in F.
  destruct (currentEntries st) as [|x cur] eqn:C.
  - cbn [List.length Z.of_nat Z.gtb Z.compare].
    destruct (Z.gtb_spec (currentSize st + 0 + byteLength e) MAX_CHUNK_BYTES);
      [lia|].
    eexists. split; [reflexivity|].
    unfold fits. cbn [currentEntries currentSize]. rewrite C. cbn [app].
    unfold payloadBytes. cbn [fold_right List.length]. lia.
  - replace (Z.of_nat (List.length (x :: cur)) >? 0) with true
      by (symmetry; apply Z.gtb_lt; cbn [List.length]; lia).
    destruct F as (F1 & F2 & F3).
    destruct (Z.gtb_spec (currentSize st + 1 + byteLength e) MAX_CHUNK_BYTES).
    + unfold flush. rewrite C.
      replace (Z.of_nat (List.length (x :: cur)) =? 0) with false
        by (symmetry; apply Z.eqb_neq; cbn [List.length]; lia).
      rewrite byteLength_payload by discriminate.
      destruct (Z.gtb_spec (payloadBytes byteLength (x :: cur)) MAX_CHUNK_BYTES);
        [lia|].
      eexists. split; [reflexivity|].
      unfold fits. cbn [currentEntries currentSize app].
      unfold payloadBytes. cbn [fold_right List.length]. lia.
    + eexists. split; [reflexivity|].
      unfold fits. cbn [currentEntries currentSize]. rewrite C.
      rewrite payloadBytes_snoc. cbn [app]. lia.
Qed.

Lemma addEntries_fits (entryJsons : list jsstring) (st : ChunkState) :
  fits byteLength st ->
  Forall (fun e => byteLength e <= MAX_CHUNK_BYTES - 2) entryJsons ->
  exists st', addEntries byteLength st entryJsons = Some st'
              /\ fits byteLength st'.
Proof.
  revert st; induction entryJsons as [|e rest IH]; intros st F H;
    cbn [addEntries]; [eauto|].
  inversion H; subst.
  destruct (addEntry_fits st e F) as (st1 & -> & F1); [assumption|].
  now apply IH.
Qed.

Lemma flush_oversized (st : ChunkState) :
  oversized byteLength st -> flush byteLength st = None.
Proof.
  intros (e & He & Hb). unfold flush.
  destruct (currentEntries st) as [|x cur] eqn:C; [destruct He|].
  replace (Z.of_nat (List.length (x :: cur)) =? 0) with false
    by (symmetry; apply Z.eqb_neq; cbn [List.length]; lia).
  rewrite byteLength_payload by discriminate.
  pose proof (payloadBytes_In (x :: cur) e He).
  destruct (Z.gtb_spec (payloadBytes byteLength (x :: cur)) MAX_CHUNK_BYTES);
    [reflexivity | lia].
Qed.

Lemma addEntry_oversized (st : ChunkState) (e : jsstring) :
  oversized byteLength st ->
  match addEntry byteLength st e with
  | Some st' => oversized byteLength st'
  | None => True
  end.
Proof.
  intros B. unfold addEntry. cbv zeta.
  destruct (byteLength e >? MAX_CHUNK_BYTES); [exact I|].
  match goal with
  | |- context [if ?c then flush byteLength st else Some st] => destruct c
  end.
  - now rewrite (flush_oversized st B).
  - destruct B as (x & Hx & Hb). exists x.
    cbn [currentEntries]. split; [apply in_or_app; now left | exact Hb].
Qed.

Lemma addEntries_oversized (entryJsons : list jsstring) (st : ChunkState) :
  oversized byteLength st ->
  match addEntries byteLength st entryJsons with
  | Some st' => oversized byteLength st'
  | None => True
  end.
Proof.
  revert st; induction entryJsons as [|e rest IH]; intros st B;
    cbn [addEntries]; [exact B|].
  pose proof (addEntry_oversized st e B) as A.
  destruct (addEntry byteLength st e) as [st1|]; [now apply IH | exact I].
Qed.

Lemma addEntries_large (entryJsons : list jsstring) (st : ChunkState)
    (e : jsstring) :
  In e entryJsons -> MAX_CHUNK_BYTES - 2 < byteLength e ->
  match addEntries byteLength st entryJsons with
  | Some st' => oversized byteLength st'
  | None => True
  end.
Proof.
  intros He Hb. revert st He.
  induction entryJsons as [|x rest IH]; intros st He; [destruct He|].
  cbn [addEntries]. destruct He as [->|He].
  - destruct (addEntry byteLength st e) as [st1|] eqn:A; [|exact I].
    apply addEntries_oversized. exists e. split; [|exact Hb].
    revert A. unfold addEntry. cbv zeta.
    destruct (byteLength e >? MAX_CHUNK_BYTES); [discriminate|].
    match goal with
    | |- context [if ?c then flush byteLength st else Some st] => destruct c
    end.
    + destruct (flush byteLength st); [|discriminate].
      intros [= <-]. cbn [currentEntries]. apply in_or_app. right. now left.
    + intros [= <-]. cbn [currentEntries]. apply in_or_app. right. now left.
  - destruct (addEntry byteLength st x) as [st1|]; [now apply IH | exact I].
Qed.

(** X24.  When the bytes of a payload are those of its entries, separators
    and brackets, the chunk writer succeeds exactly when every entry has
    at most [MAX_CHUNK_BYTES - 2] bytes: an entry of one or two bytes
    more passes the check on the entry and makes the write of its chunk
    throw. *)
Theorem writeChunks_succeeds (entryJsons : list jsstring) :
  (exists written, writeChunks byteLength entryJsons = Some written)
  <-> Forall (fun e => byteLength e <= MAX_CHUNK_BYTES - 2) entryJsons.
Proof.
  split.
  - intros (written & W). apply Forall_forall. intros e He.
    destruct (Z_le_gt_dec (byteLength e) (MAX_CHUNK_BYTES - 2)) as [L|G];
      [exact L|].
    exfalso. revert W. unfold writeChunks.
    pose proof (addEntries_large entryJsons (mkChunkState [] 0 [] [] 2) e He
                  ltac:(lia)) as B.
    destruct (addEntries byteLength (mkChunkState [] 0 [] [] 2) entryJsons)
      as [st|]; [|discriminate].
    now rewrite (flush_oversized st B).
  - intros F. unfold writeChunks.
    destruct (addEntries_fits entryJsons (mkChunkState [] 0 [] [] 2)) as (st & -> & Fs);
      [reflexivity | exact F|].
    unfold flush. unfold fits in Fs.
    destruct (currentEntries st) as [|x cur] eqn:C.
    + cbn. eauto.
    + replace (Z.of_nat (List.length (x :: cur)) =? 0) with false
        by (symmetry; apply Z.eqb_neq; cbn [List.length]; lia).
      rewrite byteLength_payload by discriminate.
      destruct (Z.gtb_spec (payloadBytes byteLength (x :: cur)) MAX_CHUNK_BYTES);
        [lia | eauto].
Qed.

End ChunkProperties.

(* ================================================================== *)
(** ** The splitter and the loader *)

Section SplitterProperties.

Variable toLowerCase : jsstring -> jsstring.

(** X25.  The splitter groups the data array into the records that the server
    loads: as many, with the same content; the title of the server is
    the trimmed, normalized title of the splitter; and no path of the
    splitter holds a backslash. *)
Theorem groupEntries_records (rawArray : list jsstring) :
  List.length (groupEntries rawArray) = (List.length rawArray / 3)%nat
  /\ map entryContent (groupEntries rawArray)
     = map content (recordsOf toLowerCase rawArray)
  /\ map (fun e => trim (normalizeLineEndings (entryTitle e)))
         (groupEntries rawArray)
     = map title (recordsOf toLowerCase rawArray)
  /\ Forall (fun e => ~ In backslashChar (entryPath e))
            (groupEntries rawArray).
Proof.
  induction rawArray as [| | |a b c rest IH] using triples_ind;
    try (repeat split; constructor).
  destruct IH as (L & C & T & P).
  cbn [groupEntries recordsOf map List.length]. split; [|split; [|split]].
  - rewrite L.
    change (S (S (S (List.length rest)))) with (1 * 3 + List.length rest)%nat.
    now rewrite Nat.div_add_l by discriminate.
  - now rewrite C.
  - now rewrite T.
  - constructor; [|exact P]. cbn [entryPath].
    apply replaceChar_removes. discriminate.
Qed.

End SplitterProperties.

(* ================================================================== *)
(** ** The further properties at concrete inputs *)

Lemma bucket_documents_contain_token_witness :
  0 < countOccurrences (titleLower (docOf "foobar" "")) (lit "foobar")
  \/ 0 < countOccurrences (contentLower (docOf "foobar" "")) (lit "foobar").
Proof.
  apply (bucket_documents_contain_token [docOf "foo" ""; docOf "foobar" ""]
           (lit "foobar") [1] 1 (docOf "foobar" "")).
  - vm_compute. reflexivity.
  - now left.
  - vm_compute. reflexivity.
Defined.

Lemma countOccurrences_copies_witness :
  countOccurrences (List.concat (repeat (lit "ab") 3)) (lit "ab") = 3.
Proof. apply (countOccurrences_copies (lit "ab") 3). discriminate. Defined.

Lemma rankItem_rank_witness :
  rank (mkResult 0 43 (docOf "Intro Guide" "guide guide tutorial"))
  = exactPowRound (rankProduct (lit "intro guide") [[lit "guide"]]) 1 20
    + exactPowRound (rankProduct (lit "guide guide tutorial") [[lit "guide"]])
        1 1.
Proof.
  refine (proj2 (proj2 (proj2 (proj2
            (rankItem_rank exactPowRound guideServer [[lit "guide"]] false 0
               (mkResult 0 43 (docOf "Intro Guide" "guide guide tutorial"))
               _))))).
  vm_compute. reflexivity.
Defined.

Lemma paginateResults_tiles_witness :
  List.concat
    (map (fun p =>
            resResults
              (paginateResults
                 [mkResult 0 43 (docOf "a" ""); mkResult 1 41 (docOf "b" "");
                  mkResult 2 20 (docOf "c" "")] (Z.of_nat p) 2))
       (seq 1 (Z.to_nat
                 (totalPages
                    (paginateResults
                       [mkResult 0 43 (docOf "a" "");
                        mkResult 1 41 (docOf "b" "");
                        mkResult 2 20 (docOf "c" "")] 1 2)))))
  = [mkResult 0 43 (docOf "a" ""); mkResult 1 41 (docOf "b" "");
     mkResult 2 20 (docOf "c" "")].
Proof.
  refine (proj1 (paginateResults_tiles
                   [mkResult 0 43 (docOf "a" ""); mkResult 1 41 (docOf "b" "");
                    mkResult 2 20 (docOf "c" "")] 2 _)).
  lia.
Defined.

Lemma apiSearch_response_wellFormed_witness :
  NoDup
    (map index
       (resResults
          (fst (apiSearch asciiLower exactPowRound
                  (loadRecords [docOf "foo" ""; docOf "foobar" ""]) [] 0
                  (requestOf "oo"))))).
Proof.
  refine (proj1 (apiSearch_response_wellFormed asciiLower exactPowRound
                   [docOf "foo" ""; docOf "foobar" ""] [] 0 (requestOf "oo")
                   _)).
  apply reachable_load.
Defined.

Lemma computeResults_category_witness :
  map index
    (computeResults exactPowRound shelfServer [[lit "fire"]] false None
       (lit "spells"))
  = [0].
Proof.
  refine (eq_trans
            (f_equal (map index)
               (computeResults_category exactPowRound shelfServer
                  [[lit "fire"]] false None (lit "spells") _ _ _)) _).
  - apply loadRecords_ok.
  - discriminate.
  - discriminate.
  - vm_compute. reflexivity.
Defined.

Lemma computeResults_base_order_witness :
  buildCacheKey [lit "fire"] false (Some [1; 0]) []
  = buildCacheKey [lit "fire"] false (Some [0; 1]) []
  /\ computeResults exactPowRound shelfServer [[lit "fire"]] false
       (Some [1; 0]) []
     = computeResults exactPowRound shelfServer [[lit "fire"]] false
         (Some [0; 1]) [].
Proof.
  apply (computeResults_base_order exactPowRound shelfServer [[lit "fire"]]
           false [1; 0] [0; 1] [] [lit "fire"]).
  - apply loadRecords_ok.
  - constructor; [intros [C|[]]; discriminate|].
    constructor; [intros []|constructor].
  - apply perm_swap.
Defined.

Lemma len_nonneg (s : jsstring) : 0 <= len s.
Proof. unfold len. lia. Qed.

Lemma len_payloadOf (entries : list jsstring) :
  entries <> [] -> len (payloadOf entries) = payloadBytes len entries.
Proof.
  intros H. unfold payloadOf, payloadBytes, len.
  rewrite !length_app. cbn [List.length].
  assert (J : Z.of_nat (List.length (join [commaChar] entries))
              = fold_right (fun e acc => Z.of_nat (List.length e) + acc) 0 entries
                + (Z.of_nat (List.length entries) - 1)).
  { destruct entries as [|e entries]; [congruence|]. clear H. revert e.
    induction entries as [|x entries IH]; intros e.
    - cbn [join fold_right List.length]. lia.
    - change (join [commaChar] (e :: x :: entries))
        with (e ++ [commaChar] ++ join [commaChar] (x :: entries)).
      rewrite !length_app. specialize (IH x).
      cbn [fold_right List.length] in *. lia. }
  rewrite !Nat2Z.inj_add, J. unfold jsstring. cbn [Z.of_nat]. lia.
Qed.

Lemma writeChunks_partition_witness :
  exists chunks,
    [lit "chunk-000.json"]
    = map (fun i => chunkFileName (Z.of_nat i)) (seq 0 (List.length chunks))
    /\ [(lit "chunk-000.json", [lit "{}"; lit "{}"])]
       = combine [lit "chunk-000.json"] chunks
    /\ List.concat chunks = [lit "{}"; lit "{}"]
    /\ Forall (goodChunk len) chunks
    /\ Forall (fun e => len e <= MAX_CHUNK_BYTES) [lit "{}"; lit "{}"].
Proof.
  apply (writeChunks_partition len [lit "{}"; lit "{}"]
           [lit "chunk-000.json"]
           [(lit "chunk-000.json", [lit "{}"; lit "{}"])]).
  vm_compute. reflexivity.
Defined.

Lemma writeChunks_succeeds_witness :
  exists written, writeChunks len [lit "{}"; lit "{}"] = Some written.
Proof.
  apply (proj2 (writeChunks_succeeds len len_nonneg len_payloadOf
                  [lit "{}"; lit "{}"])).
  repeat constructor; vm_compute; discriminate.
Defined.

(* ================================================================== *)
(** ** Narrowing a search *)

Lemma usedBuckets_app (index : JsMap.t JsSet.t)
    (groups more : list (list jsstring)) :
  usedBuckets index (groups ++ more)
  = usedBuckets index groups ++ usedBuckets index more.
Proof. unfold usedBuckets. apply flat_map_app. Qed.

Lemma groupSatisfied_titleOnly (D : Doc) (group : list jsstring) :
  groupSatisfied true D group -> groupSatisfied false D group.
Proof. unfold groupSatisfied. tauto. Qed.

Section Narrowing.

Variable powRound : Z -> Z -> Z -> Z.

(** What makes a document appear in the result list of a cache miss. *)
Lemma computeResults_appears srv groups isTitleOnly base cat i :
  appearsIn i (computeResults powRound srv groups isTitleOnly base cat)
  <-> exists D,
        docAt srv i = Some D
        /\ Forall (groupSatisfied isTitleOnly D) groups
        /\ Forall (fun b => In i b) (usedBuckets (tokenIndex srv) groups)
        /\ withinBase base i
        /\ (cat <> [] -> category D = cat).
Proof.
  unfold appearsIn. split.
  - intros (r & Hr & <-). apply computeResults_iff in Hr.
    destruct Hr as (Hr & H). exists (item r).
    apply rankItem_sound in Hr. tauto.
  - intros (D & HD & HG & H).
    destruct (rankItem_complete powRound srv groups isTitleOnly i D HD HG)
      as [r Hr].
    pose proof (rankItem_sound _ _ _ _ _ _ Hr) as (E & HD' & _).
    assert (item r = D) by congruence. subst D.
    exists r. split; [|exact E]. apply computeResults_iff. now rewrite E.
Qed.

(** X26.  Asking for more never adds a document: not a further group, not
    the restriction to titles, not a restriction to a set of
    identifiers, and not a category. *)
Theorem computeResults_narrowing srv groups more isTitleOnly base ids cat i :
  (appearsIn i (computeResults powRound srv (groups ++ more) isTitleOnly
                  base cat) ->
   appearsIn i (computeResults powRound srv groups isTitleOnly base cat))
  /\ (appearsIn i (computeResults powRound srv groups true base cat) ->
      appearsIn i (computeResults powRound srv groups false base cat))
  /\ (appearsIn i (computeResults powRound srv groups isTitleOnly
                     (Some ids) cat) ->
      appearsIn i (computeResults powRound srv groups isTitleOnly None cat))
  /\ (appearsIn i (computeResults powRound srv groups isTitleOnly base cat) ->
      appearsIn i (computeResults powRound srv groups isTitleOnly base [])).
Proof.
  rewrite !computeResults_appears. split; [|split; [|split]].
  - intros (D & HD & HG & HB & H). exists D. split; [exact HD|].
    apply Forall_app in HG. rewrite usedBuckets_app in HB.
    apply Forall_app in HB. tauto.
  - intros (D & HD & HG & H). exists D. split; [exact HD|].
    split; [|exact H].
    eapply Forall_impl; [|exact HG]. intros g. apply groupSatisfied_titleOnly.
  - intros (D & HD & HG & HB & _ & H). exists D.
    repeat split; auto. intros ? [=].
  - intros (D & HD & HG & HB & HW & _). exists D.
    repeat split; auto. congruence.
Qed.

End Narrowing.

(* ================================================================== *)
(** ** The page number *)

(** X27.  The effective page number is at least 1.  When the parameter reads
    as an integer [n] of at most [MAX_SAFE_INTEGER], it is [n] from 1 on
    and 1 otherwise, as for an absent or non-numeric parameter; and a
    page number from 1 to [MAX_SAFE_INTEGER], written in decimal, is
    read back as it is. *)
Theorem pageNumOf_effective (s : jsstring) :
  1 <= pageNumOf (Some s)
  /\ (forall n, parseInt s = Some n -> n <= MAX_SAFE_INTEGER ->
        pageNumOf (Some s) = if 1 <=? n then n else 1)
  /\ (parseInt s = None -> pageNumOf (Some s) = 1)
  /\ pageNumOf None = 1
  /\ (forall n, 1 <= n <= MAX_SAFE_INTEGER ->
        pageNumOf (Some (ofNumber n)) = n).
Proof.
  assert (P : forall t n, parseInt t = Some n ->
            pageNumOf (Some t) = if 1 <=? n then n else 1).
  { intros t n H. unfold pageNumOf, parseIntOr. rewrite H.
    destruct (Z.eqb_spec n 0); destruct (Z.leb_spec 1 n); lia. }
  split; [apply pageNumOf_pos|]. split; [intros n H _; now apply P|].
  split; [intros H; unfold pageNumOf, parseIntOr; now rewrite H|].
  split; [reflexivity|].
  intros n Hn.
  rewrite (P (ofNumber n) n) by (apply parseInt_ofNumber; lia).
  destruct (Z.leb_spec 1 n); [reflexivity | lia].
Qed.

(* ================================================================== *)
(** ** A search within a restriction *)

Section RestrictedSearch.

Variable toLowerCase : jsstring -> jsstring.
Variable powRound : Z -> Z -> Z -> Z.

(** X30.  A request whose [baseIndexes] parameter has at least one entry that
    names a document of the store, and whose cache lookup misses, is
    answered with a page of one list, in the order of the ranking, in
    which a document appears exactly when one of the entries names it
    and it satisfies every group, lies in every bucket that the
    candidate selection uses and has the category asked for, if one
    is.  Entries that name no document, and repeated entries, make no
    difference. *)
Theorem apiSearch_restricted (records : list Doc) (queryCache : Cache)
    (now : Z) (req : Request) (keyword s k : jsstring) :
  qKeyword req = Some keyword ->
  qBaseIndexes req = Some s ->
  (exists entry i, In entry (split commaChar s)
                   /\ namesValidDoc (loadRecords records) entry i) ->
  cacheKeyOf toLowerCase (loadRecords records) req = Some k ->
  fst (getCachedResults queryCache k now) = None ->
  let srv := loadRecords records in
  let groups := map (map toLowerCase) (parseSearchKeywords keyword) in
  let cat := categoryFilterOf toLowerCase (qCategory req) in
  exists found,
    fst (apiSearch toLowerCase powRound srv queryCache now req)
    = paginateResults found (pageNumOf (qPage req)) (sizeOf (qPageSize req))
    /\ StronglySorted precedes found
    /\ (forall i,
          appearsIn i found
          <-> (exists entry, In entry (split commaChar s)
                             /\ namesValidDoc srv entry i)
              /\ exists D,
                   docAt srv i = Some D
                   /\ Forall (groupSatisfied (isTitleOnlyOf (qTitleOnly req)) D)
                        groups
                   /\ Forall (fun b => In i b)
                        (usedBuckets (tokenIndex srv) groups)
                   /\ (cat <> [] -> category D = cat)).
Proof.
  intros K B (entry & j & He & Hn) Hk Hmiss srv groups cat.
  assert (Hj : In j (validIndexes srv s))
    by (apply validIndexes_In; eauto).
  assert (T : (0 <? len (trim s)) = true).
  { apply Z.ltb_lt. destruct (trim s) eqn:Ts; [|unfold len; simpl; lia].
    rewrite (blank_names_no_document srv s Ts) in Hj. destruct Hj. }
  assert (P : parseBaseIndexes srv (qBaseIndexes req)
              = Some (JsSet.ofList (validIndexes srv s)))
    by (rewrite B; unfold parseBaseIndexes; now rewrite T).
  exists (freshResults toLowerCase powRound srv req).
  split; [|split].
  - rewrite (apiSearch_lookup toLowerCase powRound srv queryCache now req k Hk).
    destruct (getCachedResults queryCache k now) as [[cached|] cache'];
      [discriminate Hmiss | reflexivity].
  - unfold freshResults. rewrite K.
    apply computeResults_sorted; [apply loadRecords_ok|].
    rewrite P. intros b [= <-]. apply ofList_NoDup.
  - intros i. unfold freshResults. rewrite K, P.
    rewrite computeResults_appears. fold groups cat.
    rewrite <- (validIndexes_In srv s i), <- ofList_In, <- withinBase_Some.
    split.
    + intros (D & HD & HG & HB & HW & HC). split; [exact HW|].
      exists D. tauto.
    + intros [HW (D & HD & HG & HB & HC)]. exists D. tauto.
Qed.

End RestrictedSearch.

Lemma apiSearch_restricted_witness :
  exists found,
    fst (apiSearch asciiLower exactPowRound fooServer [] 0
           (restrictedRequestOf "oo" "1,x,1,9, 0" None))
    = paginateResults found 1 20
    /\ StronglySorted precedes found
    /\ (forall i,
          appearsIn i found
          <-> (exists entry, In entry (split commaChar (lit "1,x,1,9, 0"))
                             /\ namesValidDoc fooServer entry i)
              /\ exists D,
                   docAt fooServer i = Some D
                   /\ Forall (groupSatisfied false D) [[lit "oo"]]
                   /\ Forall (fun b => In i b)
                        (usedBuckets (tokenIndex fooServer) [[lit "oo"]])
                   /\ (@nil jschar <> [] -> category D = [])).
Proof.
  apply (apiSearch_restricted asciiLower exactPowRound
           [docOf "foo" ""; docOf "foobar" ""] [] 0
           (restrictedRequestOf "oo" "1,x,1,9, 0" None)
           (lit "oo") (lit "1,x,1,9, 0") (lit "0|oo|0,1|")).
  - reflexivity.
  - reflexivity.
  - exists (lit "1"), 1. split; [vm_compute; tauto|].
    split; [vm_compute; reflexivity | vm_compute; split; congruence].
  - vm_compute. reflexivity.
  - reflexivity.
Defined.

(** The restricted request of the statement above is answered with both
    documents, each named by a valid entry. *)
Example apiSearch_restricted_example :
  map index
    (resResults
       (fst (apiSearch asciiLower exactPowRound fooServer [] 0
               (restrictedRequestOf "oo" "1,x,1,9, 0" None))))
  = [0; 1].
Proof. vm_compute. reflexivity. Qed.

(* ================================================================== *)
(** ** Loading what the splitter wrote *)















Section ChunkRoundTrip.

Variable byteLength : jsstring -> Z.
Variable stringify : SplitEntry -> jsstring.
Variable parseEntry : jsstring -> SplitEntry.

Hypothesis parse_stringify : forall e, parseEntry (stringify e) = e.





End ChunkRoundTrip.

Lemma occursIn_cons_iff (keyword s : jsstring) (c : jschar) :
  occursIn keyword (c :: s)
  <-> (exists post, c :: s = keyword ++ post) \/ occursIn keyword s.
Proof.
  split.
  - intros (pre & post & E). destruct pre as [|x pre].
    + left. now exists post.
    + right. injection E as _ E. now exists pre, post.
  - intros [(post & E)|H]; [now exists [], post | now apply occursIn_cons].
Qed.

Lemma collapseBackslashes_length (s : jsstring) (inRun : bool) :
  (List.length (collapseBackslashes s inRun) <= List.length s)%nat.
Proof.
  revert inRun; induction s as [|c s IH]; intros inRun; simpl; [lia|].
  pose proof (IH true). pose proof (IH false).
  destruct (c =? backslashChar); [destruct inRun|]; simpl; lia.
Qed.

(** Collapsing the runs of backslashes and replacing every backslash
    agree exactly on the strings without two backslashes in a row. *)
Lemma collapse_replace_iff (s : jsstring) (inRun : bool) :
  collapseBackslashes s inRun = replaceChar backslashChar slashChar s
  <-> ~ occursIn [backslashChar; backslashChar] s
      /\ (inRun = true -> hd 0 s <> backslashChar).
Proof.
  revert inRun; induction s as [|c s IH]; intros inRun.
  - split; [|reflexivity]. intros _. split; [|discriminate].
    intros (pre & post & E). destruct pre; discriminate.
  - cbn [collapseBackslashes replaceChar map hd].
    rewrite occursIn_cons_iff.
    destruct (Z.eqb_spec c backslashChar) as [->|Hc].
    + destruct inRun.
      * split.
        -- intros E. exfalso.
           pose proof (collapseBackslashes_length s true) as L.
           apply (f_equal (@List.length _)) in E.
           change (List.length (collapseBackslashes s true)
                   = S (List.length (replaceChar backslashChar slashChar s)))
             in E.
           unfold replaceChar in E. rewrite length_map in E.
           unfold jschar in *. lia.
        -- intros [_ H]. exfalso. now apply H.
      * specialize (IH true). split.
        -- intros [= E]. apply IH in E. destruct E as [E1 E2].
           split; [|discriminate].
           intros [(post & P)|O]; [|contradiction].
           injection P as P. apply E2; [reflexivity|]. now rewrite P.
        -- intros [H _]. f_equal. apply IH. split; [tauto|].
           intros _ Hs. apply H. left.
           destruct s as [|x s]; [discriminate Hs|]. cbn [hd] in Hs. subst x.
           now exists s.
    + specialize (IH false). split.
      * intros [= E]. apply IH in E. destruct E as [E1 _].
        split; [|intros _; exact Hc].
        intros [(post & P)|O]; [|contradiction].
        injection P as P _. contradiction.
      * intros [H _]. f_equal. apply IH. split; [tauto | discriminate].
Qed.

(** X29.  The splitter and the first variant of the server group the
    data array into as many entries with the same contents and titles;
    the entries are the same exactly when no path of the array has two
    backslashes in a row, which the server turns into one slash and the
    splitter into two. *)
Theorem groupEntries_loadFromLegacy (rawArray : list jsstring) :
  map entryContent (groupEntries rawArray)
  = map entryContent (FirstServer.loadFromLegacy rawArray)
  /\ map entryTitle (groupEntries rawArray)
     = map entryTitle (FirstServer.loadFromLegacy rawArray)
  /\ (groupEntries rawArray = FirstServer.loadFromLegacy rawArray
      <-> Forall (fun rawPath =>
                    ~ occursIn [backslashChar; backslashChar] rawPath)
                 (rawPathsOf rawArray)).
Proof.
  induction rawArray as [| | |a b c rest IH] using triples_ind;
    try (split; [reflexivity | split; [reflexivity|]];
         split; [constructor | reflexivity]).
  destruct IH as (C & T & P).
  cbn [groupEntries FirstServer.loadFromLegacy rawPathsOf map].
  unfold FirstServer.ingestEntry at 1 2 3. cbn [entryContent entryTitle].
  rewrite C, T. split; [reflexivity|]. split; [reflexivity|].
  rewrite (replacePair_without_first _ _ _ _ (collapseBackslashes_none c false)).
  split.
  - intros [= E1 E2]. constructor; [|now apply P].
    symmetry in E1. now apply collapse_replace_iff in E1.
  - intros F. inversion F as [|? ? F1 F2]; subst.
    f_equal; [|now apply P]. f_equal. symmetry.
    apply collapse_replace_iff. split; [exact F1 | discriminate].
Qed.



(** Beyond a thousand chunks the names no longer sort in the order of
    writing: the name of chunk 1000 comes before that of chunk 101. *)
Example chunkNames_beyond_thousand :
  compareStrings (chunkFileName 1000) (chunkFileName 101) < 0.
Proof. vm_compute. reflexivity. Qed.
